(** * Onboard controller of the ROV: a shallow embedding

    The robot-side script accepts command tokens over a socket, mixes
    joystick degrees of freedom into PWM pulse widths, runs a depth-lock
    loop and streams telemetry from interval timers.  This file embeds
    the script function by function and states its properties.  The
    handlers run over exact numbers; the mixing computation is embedded
    a second time over the arithmetic of the engine, binary64, whose
    rounding is derived from the kernel's specification of its floats. *)

From Stdlib Require Import QArith Qabs Qcanon Qcabs Qpower Lqa Ascii String.
From Stdlib Require Floats.
From stdpp Require Import gmap strings list fin_maps numbers pretty.

Local Open Scope Qc_scope.
Local Open Scope string_scope.
Local Open Scope list_scope.

(** ** JavaScript numbers

    The handlers are embedded over exact rationals plus [NaN]: this
    arithmetic agrees with the engine's wherever every result is
    representable, which is the case for the whole numbers and halves
    the handlers are run on below, and it rounds nothing and overflows
    nowhere.  What depends on rounding or overflow is stated over the
    arithmetic of [Engine] further down.  A division by zero (which the
    program never performs) is mapped to [NaN]. *)

Inductive jsnum : Type :=
  | Num (q : Qc)
  | NaN.

Definition nz (z : Z) : jsnum := Num (Qc_of_Z z).

Definition Qcgtb (x y : Qc) : bool :=
  match (x ?= y)%Qc with Gt => true | _ => false end.

Definition Qceqb (x y : Qc) : bool :=
  match (x ?= y)%Qc with Eq => true | _ => false end.

Definition jsadd (a b : jsnum) : jsnum :=
  match a, b with Num x, Num y => Num (x + y) | _, _ => NaN end.

Definition jssub (a b : jsnum) : jsnum :=
  match a, b with Num x, Num y => Num (x - y) | _, _ => NaN end.

Definition jsmul (a b : jsnum) : jsnum :=
  match a, b with Num x, Num y => Num (x * y) | _, _ => NaN end.

Definition jsdiv (a b : jsnum) : jsnum :=
  match a, b with
  | Num x, Num y => if Qceqb y 0 then NaN else Num (x / y)
  | _, _ => NaN
  end.

Definition jsneg (a : jsnum) : jsnum :=
  match a with Num x => Num (- x) | NaN => NaN end.

(** [Math.abs] *)
Definition jsabs (a : jsnum) : jsnum :=
  match a with Num x => Num (Qcabs x) | NaN => NaN end.

(** [a > b]; any comparison with [NaN] is false. *)
Definition jsgt (a b : jsnum) : bool :=
  match a, b with Num x, Num y => Qcgtb x y | _, _ => false end.

(** [Math.max] and [Math.min]: [NaN] as soon as one argument is. *)
Definition jsmax (a b : jsnum) : jsnum :=
  match a, b with
  | Num x, Num y => Num (if Qcgtb y x then y else x)
  | _, _ => NaN
  end.

Definition jsmin (a b : jsnum) : jsnum :=
  match a, b with
  | Num x, Num y => Num (if Qcgtb x y then y else x)
  | _, _ => NaN
  end.

(** ** JavaScript values

    What [JSON.parse] can return, plus [undefined]. Objects keep their
    members in insertion order. *)

#[warnings="-register-all"] Inductive jsval : Type :=
  | JUndefined
  | JNull
  | JBool (b : bool)
  | JNum (n : jsnum)
  | JStr (s : string)
  | JArr (l : list jsval)
  | JObj (members : list (string * jsval)).

Definition jn (z : Z) : jsval := JNum (nz z).

(** Own-property lookup in a member list; a later member wins. *)
Fixpoint objLookup (k : string) (members : list (string * jsval)) : option jsval :=
  match members with
  | [] => None
  | (k', v) :: rest =>
      match objLookup k rest with
      | Some x => Some x
      | None => if String.eqb k k' then Some v else None
      end
  end.

(** Truthiness, as tested by [if (x)] and [!x]. *)
Definition truthy (v : jsval) : bool :=
  match v with
  | JUndefined | JNull => false
  | JBool b => b
  | JNum (Num q) => negb (Qceqb q 0)
  | JNum NaN => false
  | JStr s => negb (String.eqb s "")
  | JArr _ | JObj _ => true
  end.

(** The own enumerable properties [Object.assign] copies from a source:
    the members of an object, the indexed elements of an array, the
    indexed characters of a string, nothing for the other primitives. *)
Fixpoint indexedChars (s : string) (i : nat) : list (string * jsval) :=
  match s with
  | EmptyString => []
  | String c rest => (pretty i, JStr (String c EmptyString)) :: indexedChars rest (S i)
  end.

Definition ownEntries (v : jsval) : list (string * jsval) :=
  match v with
  | JObj members => members
  | JArr l => imap (fun i x => (pretty i, x)) l
  | JStr s => indexedChars s 0
  | _ => []
  end.

(** ** The process state and what a run leaves behind *)

Inductive exn : Type :=
  | TypeError (what : string)
  | UnhandledError (payload : jsval).

(** The levels of [logger.v], [logger.d], [logger.i] and [logger.e]. *)
Inductive level : Type := LogV | LogD | LogI | LogE.

Inductive event : Type :=
  | Logged (lvl : level) (tag : string)
  | Rejection (e : exn).

(** [new responseToken(body, transactionID)] *)
Record responseToken : Type := mkResponse {
  body : jsval;
  transactionID : jsval
}.

Inductive callback : Type := ReadMag | ReadPiTemp | DepthLoop.

(** A live [setInterval] registration. *)
Record timer : Type := mkTimer {
  callee : callback;
  period : jsval;
  argument : jsval
}.

(** An [async] function parked at its [await]. *)
Inductive suspension : Type :=
  | AwaitTargetPressure (data : jsval)
  | AwaitCurrentPressure (target : jsval)
  | AwaitTempFile (data : jsval)
  | AwaitElectromagOn (data : jsval).

Record World : Type := mkWorld {
  debug : bool;                          (* args.debug *)
  client : option nat;                   (* _client: None when undefined or null *)
  written : list (nat * responseToken);  (* _client.write(...), oldest first *)
  pulses : list (jsval * jsval);         (* pca.setPulseLength(channel, value) *)
  duties : list (Z * jsnum);             (* pca.setDutyCycle(channel, dutyCycle) *)
  magnet : list bool;                    (* what was written to the electromagnet slave *)
  intervals : gmap string nat;           (* the intervals object *)
  timers : gmap nat timer;               (* timers of the event loop that still fire *)
  nextTimer : nat;
  oldDOFValues : gmap string jsval;
  depthLockToggle : jsval;
  targetPressure : jsval;
  zKp : jsval;
  zKi : jsval;
  zKd : jsval;
  suspended : list suspension;
  randomDraws : nat
}.

Definition setClient (c : option nat) (w : World) : World :=
  mkWorld (debug w) c (written w) (pulses w) (duties w) (magnet w) (intervals w)
    (timers w) (nextTimer w) (oldDOFValues w) (depthLockToggle w) (targetPressure w)
    (zKp w) (zKi w) (zKd w) (suspended w) (randomDraws w).

Definition setWritten (x : list (nat * responseToken)) (w : World) : World :=
  mkWorld (debug w) (client w) x (pulses w) (duties w) (magnet w) (intervals w)
    (timers w) (nextTimer w) (oldDOFValues w) (depthLockToggle w) (targetPressure w)
    (zKp w) (zKi w) (zKd w) (suspended w) (randomDraws w).

Definition setPulses (x : list (jsval * jsval)) (w : World) : World :=
  mkWorld (debug w) (client w) (written w) x (duties w) (magnet w) (intervals w)
    (timers w) (nextTimer w) (oldDOFValues w) (depthLockToggle w) (targetPressure w)
    (zKp w) (zKi w) (zKd w) (suspended w) (randomDraws w).

Definition setDuties (x : list (Z * jsnum)) (w : World) : World :=
  mkWorld (debug w) (client w) (written w) (pulses w) x (magnet w) (intervals w)
    (timers w) (nextTimer w) (oldDOFValues w) (depthLockToggle w) (targetPressure w)
    (zKp w) (zKi w) (zKd w) (suspended w) (randomDraws w).

Definition setMagnet (x : list bool) (w : World) : World :=
  mkWorld (debug w) (client w) (written w) (pulses w) (duties w) x (intervals w)
    (timers w) (nextTimer w) (oldDOFValues w) (depthLockToggle w) (targetPressure w)
    (zKp w) (zKi w) (zKd w) (suspended w) (randomDraws w).

Definition setIntervals (x : gmap string nat) (w : World) : World :=
  mkWorld (debug w) (client w) (written w) (pulses w) (duties w) (magnet w) x
    (timers w) (nextTimer w) (oldDOFValues w) (depthLockToggle w) (targetPressure w)
    (zKp w) (zKi w) (zKd w) (suspended w) (randomDraws w).

Definition setTimers (x : gmap nat timer) (n : nat) (w : World) : World :=
  mkWorld (debug w) (client w) (written w) (pulses w) (duties w) (magnet w) (intervals w)
    x n (oldDOFValues w) (depthLockToggle w) (targetPressure w)
    (zKp w) (zKi w) (zKd w) (suspended w) (randomDraws w).

Definition setOldDOFValues (x : gmap string jsval) (w : World) : World :=
  mkWorld (debug w) (client w) (written w) (pulses w) (duties w) (magnet w) (intervals w)
    (timers w) (nextTimer w) x (depthLockToggle w) (targetPressure w)
    (zKp w) (zKi w) (zKd w) (suspended w) (randomDraws w).

Definition setDepthLockToggle (x : jsval) (w : World) : World :=
  mkWorld (debug w) (client w) (written w) (pulses w) (duties w) (magnet w) (intervals w)
    (timers w) (nextTimer w) (oldDOFValues w) x (targetPressure w)
    (zKp w) (zKi w) (zKd w) (suspended w) (randomDraws w).

Definition setTargetPressure (x : jsval) (w : World) : World :=
  mkWorld (debug w) (client w) (written w) (pulses w) (duties w) (magnet w) (intervals w)
    (timers w) (nextTimer w) (oldDOFValues w) (depthLockToggle w) x
    (zKp w) (zKi w) (zKd w) (suspended w) (randomDraws w).

Definition setGains (kp ki kd : jsval) (w : World) : World :=
  mkWorld (debug w) (client w) (written w) (pulses w) (duties w) (magnet w) (intervals w)
    (timers w) (nextTimer w) (oldDOFValues w) (depthLockToggle w) (targetPressure w)
    kp ki kd (suspended w) (randomDraws w).

Definition setSuspended (x : list suspension) (w : World) : World :=
  mkWorld (debug w) (client w) (written w) (pulses w) (duties w) (magnet w) (intervals w)
    (timers w) (nextTimer w) (oldDOFValues w) (depthLockToggle w) (targetPressure w)
    (zKp w) (zKi w) (zKd w) x (randomDraws w).

Definition setRandomDraws (x : nat) (w : World) : World :=
  mkWorld (debug w) (client w) (written w) (pulses w) (duties w) (magnet w) (intervals w)
    (timers w) (nextTimer w) (oldDOFValues w) (depthLockToggle w) (targetPressure w)
    (zKp w) (zKi w) (zKd w) (suspended w) x.

(** ** Constants of the script *)

Definition motorChannels_LF : jsval := jn 8.
Definition motorChannels_RF : jsval := jn 1.
Definition motorChannels_LB : jsval := jn 9.
Definition motorChannels_RB : jsval := jn 2.
Definition motorChannels_F : jsval := jn 3.
Definition motorChannels_B : jsval := jn 11.
Definition motorChannels_manip : jsval := jn 0.
Definition motorChannels_picam : jsval := jn 10.
Definition motorChannels_leveler : jsval := jn 7.

Definition motorChannelGroups_vector : list jsval :=
  [motorChannels_LF; motorChannels_RF; motorChannels_LB; motorChannels_RB].
Definition motorChannelGroups_depth : list jsval :=
  [motorChannels_F; motorChannels_B].

Definition LEDChannels : list Z := [5%Z; 6%Z].

(** The state right after the script is loaded, before any connection.
    Outside debug mode the driver's initialisation callback has set every
    motor channel to 1550. *)
Definition initialDOFValues : gmap string jsval :=
  list_to_map
    [ ("FB", jn 0); ("turn", jn 0); ("strafe", jn 0); ("pitch", jn 0);
      ("depth", jn 0); ("manip", jn 0); ("leveler", jn 0); ("picam", jn 0) ].

Definition initialPulses : list (jsval * jsval) :=
  map (fun channel => (channel, jn 1550))
      [ motorChannels_LF; motorChannels_RF; motorChannels_LB; motorChannels_RB;
        motorChannels_F; motorChannels_B; motorChannels_manip; motorChannels_picam;
        motorChannels_leveler ].

Definition startup (dbg : bool) : World :=
  mkWorld dbg None [] (if dbg then [] else initialPulses) [] [] ∅ ∅ 0
    initialDOFValues JUndefined JUndefined (jn 1) (jn 1) (jn 0) [] 0.

(** ** Computations: state, a trace of log lines, exceptions *)

Inductive outcome (A : Type) : Type :=
  | Ret (a : A)
  | Throw (e : exn).
Arguments Ret {A} a.
Arguments Throw {A} e.

Definition M (A : Type) : Type := World -> outcome A * World * list event.

Definition ret {A : Type} (a : A) : M A := fun w => (Ret a, w, []).

Definition bind {A B : Type} (m : M A) (f : A -> M B) : M B :=
  fun w =>
    match m w with
    | (Ret a, w1, evs1) =>
        match f a w1 with
        | (r, w2, evs2) => (r, w2, evs1 ++ evs2)
        end
    | (Throw e, w1, evs1) => (Throw e, w1, evs1)
    end.

Definition throw {A : Type} (e : exn) : M A := fun w => (Throw e, w, []).

Definition gets {A : Type} (f : World -> A) : M A := fun w => (Ret (f w), w, []).

Definition modify (f : World -> World) : M unit := fun w => (Ret tt, f w, []).

Definition emitEvent (ev : event) : M unit := fun w => (Ret tt, w, [ev]).

Notation "'let*' x := m 'in' k" := (bind m (fun x => k))
  (at level 10, x name, m at level 100, k at level 200).
Notation "m >> k" := (bind m (fun _ => k))
  (at level 90, right associativity).

(** [logger.v], [logger.d], [logger.i], [logger.e]: only the level and
    the tag of a line are kept. *)
Definition logger (lvl : level) (tag : string) : M unit := emitEvent (Logged lvl tag).

(** Calling an [async] function: an exception inside it rejects the
    returned promise, which no caller in the script observes. *)
Definition async (m : M unit) : M unit :=
  fun w =>
    match m w with
    | (Throw e, w1, evs) => (Ret tt, w1, evs ++ [Rejection e])
    | r => r
    end.

Definition world {A : Type} (r : outcome A * World * list event) : World := snd (fst r).
Definition result {A : Type} (r : outcome A * World * list event) : outcome A := fst (fst r).
Definition trace {A : Type} (r : outcome A * World * list event) : list event := snd r.

(** A pure step that may throw. *)
Definition lift {A : Type} (o : outcome A) : M A := fun w => (o, w, []).

(** [v.k] for a key [k] that is neither an index nor inherited. *)
Definition propOf (v : jsval) (k : string) : outcome jsval :=
  match v with
  | JUndefined | JNull => Throw (TypeError ("cannot read property " ++ k))
  | JObj members => Ret (default JUndefined (objLookup k members))
  | _ => Ret JUndefined
  end.

Definition getProp (v : jsval) (k : string) : M jsval := lift (propOf v k).

(** [v.hasOwnProperty(k)], same keys.  A parsed object that carries a
    member named hasOwnProperty shadows the method with a non-function. *)
Definition ownsOf (v : jsval) (k : string) : outcome bool :=
  match v with
  | JUndefined | JNull => Throw (TypeError "cannot read property hasOwnProperty")
  | JObj members =>
      match objLookup "hasOwnProperty" members with
      | Some _ => Throw (TypeError "hasOwnProperty is not a function")
      | None => Ret (bool_decide (is_Some (objLookup k members)))
      end
  | _ => Ret false
  end.

Definition hasOwnProperty (v : jsval) (k : string) : M bool := lift (ownsOf v k).

(** [a || b] and [a && b] on computations of booleans. *)
Definition orM (a b : M bool) : M bool :=
  let* x := a in if x then ret true else b.

Definition andM (a b : M bool) : M bool :=
  let* x := a in if x then b else ret false.

(** [l.map((x, index) => f(x, index))] with an effectful callback. *)
Fixpoint mapMFrom {A B : Type} (f : A -> nat -> M B) (l : list A) (index : nat) : M (list B) :=
  match l with
  | [] => ret []
  | x :: rest =>
      let* y := f x index in
      let* ys := mapMFrom f rest (S index) in
      ret (y :: ys)
  end.

Definition mapM {A B : Type} (f : A -> nat -> M B) (l : list A) : M (list B) :=
  mapMFrom f l 0.

(** [l.forEach(f)] *)
Fixpoint forEach {A : Type} (f : A -> M unit) (l : list A) : M unit :=
  match l with
  | [] => ret tt
  | x :: rest => f x >> forEach f rest
  end.

(** ** Timers *)

Definition setInterval (f : callback) (ms : jsval) (arg : jsval) : M nat :=
  fun w =>
    let id := nextTimer w in
    (Ret id, setTimers (<[id := mkTimer f ms arg]> (timers w)) (S id) w, []).

(** [clearInterval(h)]; [h] is [None] for [undefined]. *)
Definition clearInterval (h : option nat) : M unit :=
  match h with
  | None => ret tt
  | Some id => modify (fun w => setTimers (delete id (timers w)) (nextTimer w) w)
  end.

(** The identifier tables exported by the protocol package. *)
Record TokenTypes : Type := mkTokenTypes {
  ECHO : jsval;
  READMAG : jsval;
  STARTMAGSTREAM : jsval;
  STOPMAGSTREAM : jsval;
  CONTROLLERDATA : jsval;
  READPITEMP : jsval;
  STARTPITEMPSTREAM : jsval;
  STOPPITEMPSTREAM : jsval;
  SETDEPTHLOCK : jsval;
  LEDTEST : jsval;
  PIDTUNE : jsval;
  SPECIALTOKEN : jsval
}.

Record ResponseTypes : Type := mkResponseTypes {
  MAGDATA : jsval;
  PITEMPDATA : jsval;
  MOTORDATA : jsval
}.

(** ** Framing: [data.toString().replace(/}{/g, '}|{').split('|')] *)

Fixpoint replaceBoundaries (s : string) : string :=
  match s with
  | EmptyString => EmptyString
  | String c rest =>
      match rest with
      | String c' rest' =>
          if (Ascii.eqb c "}"%char && Ascii.eqb c' "{"%char)%bool
          then String "}"%char (String "|"%char (String "{"%char (replaceBoundaries rest')))
          else String c (replaceBoundaries rest)
      | EmptyString => String c EmptyString
      end
  end.

Fixpoint splitOn (sep : ascii) (s : string) : list string :=
  match s with
  | EmptyString => [EmptyString]
  | String c rest =>
      if Ascii.eqb c sep then EmptyString :: splitOn sep rest
      else match splitOn sep rest with
           | [] => [String c EmptyString]
           | piece :: pieces => String c piece :: pieces
           end
  end.

Definition tokenTexts (data : string) : list string :=
  splitOn "|"%char (replaceBoundaries data).

(** [Object.assign(target, source)] on the retained DOF object. *)
Definition objectAssign (target : gmap string jsval) (source : jsval) : gmap string jsval :=
  foldl (fun m kv => <[kv.1 := kv.2]> m) target (ownEntries source).

(** What the script takes from outside the repository: built-ins of the
    language, the tables of the protocol package, and the random source. *)
Class Platform : Type := mkPlatform {
  (** [Number(s)] for a string [s] *)
  stringToNumber : string -> jsnum;
  (** [String(n)] for a number [n] *)
  numberToString : jsnum -> string;
  (** [JSON.parse]: [None] when it throws *)
  parseJSON : string -> option jsval;
  (** [Math.random() * 2 * Math.PI - Math.PI] at the n-th draw *)
  randomAngle : nat -> jsnum;
  tokenTypes : TokenTypes;
  responseTypes : ResponseTypes
}.

Section Remote.

Context {platform : Platform}.

(** [String(v)]. *)
Fixpoint toString (v : jsval) : string :=
  match v with
  | JUndefined => "undefined"
  | JNull => "null"
  | JBool true => "true"
  | JBool false => "false"
  | JNum n => numberToString n
  | JStr s => s
  | JArr l =>
      String.concat ","
        (map (fun x => match x with
                       | JUndefined | JNull => ""
                       | _ => toString x
                       end) l)
  | JObj _ => "[object Object]"
  end.

(** [Number(v)], the coercion applied by [*], [/] and unary [-].  An
    array goes through its string form; for the one-element array of a
    number this gives the number back, since [Number(String(n))] is [n]. *)
Fixpoint toNumber (v : jsval) : jsnum :=
  match v with
  | JUndefined => NaN
  | JNull => Num 0
  | JBool true => Num 1
  | JBool false => Num 0
  | JNum n => n
  | JStr s => stringToNumber s
  | JArr l =>
      match l with
      | [] => Num 0
      | [x] =>
          match x with
          | JUndefined | JNull => Num 0
          | JNum n => n
          | JStr s => stringToNumber s
          | JArr _ => toNumber x
          | JBool _ | JObj _ => NaN
          end
      | _ :: _ :: _ => NaN
      end
  | JObj _ => NaN
  end.

(** [arr[i]] *)
Definition arrGet (arr : list jsval) (i : nat) : jsval :=
  default JUndefined (arr !! i).

(** [l.reduce((acc, x, index) => f(acc, x, index), init)] *)
Fixpoint reduceFrom {A B : Type} (f : B -> A -> nat -> B) (l : list A)
    (index : nat) (acc : B) : B :=
  match l with
  | [] => acc
  | x :: rest => reduceFrom f rest (S index) (f acc x index)
  end.

Definition reduce {A B : Type} (f : B -> A -> nat -> B) (l : list A) (init : B) : B :=
  reduceFrom f l 0 init.

(** ** The mixing engine *)

Definition vectorMapMatrix : list (list jsnum) :=
  [ [nz 1; nz 1; nz 1];
    [nz 1; nz (-1); nz (-1)];
    [nz 1; nz 1; nz (-1)];
    [nz 1; nz (-1); nz 1] ].

Definition depthMapMatrix : list (list jsnum) :=
  [ [nz 1; nz (-1)];
    [nz (-1); nz (-1)] ].

Definition defaultDiff : jsnum := nz 400.
Definition defaultMid : jsnum := nz 1550.

(** [row.reduce((sum, dir, index) => sum + dir * data[index], 0)] *)
Definition rawValue (data : list jsval) (row : list jsnum) : jsnum :=
  reduce (fun sum dir index => jsadd sum (jsmul dir (toNumber (arrGet data index))))
         row (nz 0).

Definition rawValues (data : list jsval) (matrix : list (list jsnum)) : list jsnum :=
  map (rawValue data) matrix.

(** [rawValues.reduce((accum, val) => Math.abs(val) > accum ? Math.abs(val) : accum, 1)] *)
Definition maxRaw (raws : list jsnum) : jsnum :=
  reduce (fun accum val (_ : nat) => if jsgt (jsabs val) accum then jsabs val else accum)
         raws (nz 1).

Definition calcMotorValues (data : list jsval) (matrix : list (list jsnum))
    (diff mid : jsnum) : list jsnum :=
  let raws := rawValues data matrix in
  map (fun element => jsadd (jsmul (jsdiv element (maxRaw raws)) diff) mid) raws.

(** The wrapper takes [diff] and [mid] but calls [calcMotorValues] with
    two arguments only, so the callee's defaults apply. *)
Definition calcMotorValue (data : jsval) (diff mid : jsnum) : jsval :=
  default JUndefined
    (JNum <$> (calcMotorValues [JArr [data]] [[nz 1]] defaultDiff defaultMid) !! 0%nat).

(** ** Handlers *)

(** [v + n] for a number [n]: concatenation as soon as [v] is not
    converted to a number by [ToPrimitive]. *)
Definition jsplus (v : jsval) (n : jsnum) : jsval :=
  match v with
  | JStr _ | JArr _ | JObj _ => JStr (toString v ++ numberToString n)
  | _ => JNum (jsadd (toNumber v) n)
  end.

Definition sendToken (token : responseToken) : M unit :=
  logger LogD "message" >>
  let* c := gets client in
  match c with
  | None => throw (TypeError "cannot read property write")
  | Some socket => modify (fun w => setWritten (written w ++ [(socket, token)]) w)
  end.

(** [new responseToken(b, data.headers.transactionID)] *)
Definition respondTo (b : jsval) (data : jsval) : M responseToken :=
  let* headers := getProp data "headers" in
  let* tid := getProp headers "transactionID" in
  ret (mkResponse b tid).

Definition streamToken (tid : jsval) : jsval :=
  JObj [("headers", JObj [("transactionID", tid)])].

Definition echo (data : jsval) : M unit :=
  let* b := getProp data "body" in
  let* response := respondTo b data in
  sendToken response.

Definition random : M jsnum :=
  fun w => (Ret (randomAngle (randomDraws w)), setRandomDraws (S (randomDraws w)) w, []).

Definition readMag (data : jsval) : M unit :=
  let* dbg := gets debug in
  if dbg then
    let* heading := random in
    let* pitch := random in
    let* roll := random in
    let* response :=
      respondTo (JObj [("heading", JNum heading); ("pitch", JNum pitch); ("roll", JNum roll)])
                data in
    sendToken response
  else ret tt.

Definition startMagStream (data : jsval) : M unit :=
  let* h := gets (fun w => intervals w !! "mag") in
  clearInterval h >>
  let* b := getProp data "body" in
  let* ms := getProp b "interval" in
  let* id := setInterval ReadMag ms (streamToken (MAGDATA responseTypes)) in
  modify (fun w => setIntervals (<["mag" := id]> (intervals w)) w) >>
  let* response := respondTo (JObj []) data in
  sendToken response.

Definition stopMagStream (data : jsval) : M unit :=
  let* h := gets (fun w => intervals w !! "mag") in
  clearInterval h >>
  let* response := respondTo (JObj []) data in
  sendToken response.

(** The driver call sits in a [try]/[catch] that only prints, so the
    attempted write is recorded and [value] is returned either way. *)
Definition setChannel (channel : jsval) (value : jsval) : M jsval :=
  let* dbg := gets debug in
  if dbg then ret value
  else modify (fun w => setPulses (pulses w ++ [(channel, value)]) w) >> ret value.

(** [DOFValues.hasOwnProperty(k) ? DOFValues[k] : oldDOFValues[k]] *)
Definition pick (DOFValues : jsval) (k : string) : M jsval :=
  let* own := hasOwnProperty DOFValues k in
  if own then getProp DOFValues k
  else gets (fun w => default JUndefined (oldDOFValues w !! k)).

Definition setMotors (data : jsval) (fromController : bool) : M unit :=
  logger LogD "motor values token" >>
  let* DOFValues := getProp data "body" in
  let* moveVector :=
    orM (orM (hasOwnProperty DOFValues "FB") (hasOwnProperty DOFValues "turn"))
        (hasOwnProperty DOFValues "strafe") in
  let* vector :=
    if moveVector then
      let* fb := pick DOFValues "FB" in
      let* turn := pick DOFValues "turn" in
      let* strafe := pick DOFValues "strafe" in
      let* values :=
        mapM (fun value index => setChannel (arrGet motorChannelGroups_vector index) (JNum value))
             (calcMotorValues [fb; turn; strafe] vectorMapMatrix defaultDiff defaultMid) in
      ret [("vector", JArr values)]
    else ret [] in
  let* moveDepth :=
    orM (hasOwnProperty DOFValues "pitch")
        (andM (andM (hasOwnProperty DOFValues "depth")
                    (let* locked := gets depthLockToggle in ret (negb (truthy locked))))
              (ret fromController)) in
  let* depth :=
    if moveDepth then
      let* pitch := pick DOFValues "pitch" in
      let* depth := pick DOFValues "depth" in
      let* values :=
        mapM (fun value index =>
                let* locked := gets depthLockToggle in
                if (truthy locked && Nat.eqb index 1)%bool then ret JUndefined
                else setChannel (arrGet motorChannelGroups_depth index) (JNum value) >>
                     ret JUndefined)
             (calcMotorValues [pitch; depth] depthMapMatrix defaultDiff defaultMid) in
      ret [("depth", JArr values)]
    else ret [] in
  let* hasManip := hasOwnProperty DOFValues "manip" in
  let* manip :=
    if hasManip then
      let* x := getProp DOFValues "manip" in
      let* value := setChannel motorChannels_manip (calcMotorValue x (nz 400) (nz 1550)) in
      ret [("manip", value)]
    else ret [] in
  let* hasPicam := hasOwnProperty DOFValues "picam" in
  let* picam :=
    if hasPicam then
      let* x := getProp DOFValues "picam" in
      let* value := setChannel motorChannels_picam (calcMotorValue x (nz 400) (nz 1550)) in
      ret [("picam", value)]
    else ret [] in
  let* hasLeveler := hasOwnProperty DOFValues "leveler" in
  let* leveler :=
    if hasLeveler then
      let* x := getProp DOFValues "leveler" in
      let* value := setChannel motorChannels_leveler (calcMotorValue x (nz 500) (nz 1550)) in
      ret [("leveler", value)]
    else ret [] in
  logger LogD "motor values" >>
  let* response := respondTo (JObj (vector ++ depth ++ manip ++ picam ++ leveler)) data in
  sendToken response >>
  modify (fun w => setOldDOFValues (objectAssign (oldDOFValues w) DOFValues) w).

Definition setMotor (data : jsval) : M unit :=
  setMotors (JObj [("headers", JObj [("transactionID", MOTORDATA responseTypes)]);
                   ("body", data)])
            false.

Definition suspend (s : suspension) : M unit :=
  modify (fun w => setSuspended (suspended w ++ [s]) w).

(** [readPiTemp] up to its [await], and from it on. *)
Definition readPiTemp (data : jsval) : M unit :=
  async (let* dbg := gets debug in
         if dbg then
           let* response := respondTo (JStr "6 bajillion degrees") data in
           sendToken response
         else suspend (AwaitTempFile data)).

Definition readPiTempResume (data : jsval) (content : jsval) : M unit :=
  async (let* response := respondTo (JNum (jsdiv (toNumber content) (nz 1000))) data in
         sendToken response).

Definition startPiTempStream (data : jsval) : M unit :=
  let* ms := getProp data "body" in
  let* id := setInterval ReadPiTemp ms (streamToken (PITEMPDATA responseTypes)) in
  modify (fun w => setIntervals (<["piTemp" := id]> (intervals w)) w) >>
  let* response := respondTo (JObj []) data in
  sendToken response.

Definition stopPiTempStream (data : jsval) : M unit :=
  let* h := gets (fun w => intervals w !! "piTemp") in
  clearInterval h >>
  let* response := respondTo (JObj []) data in
  sendToken response.

(** In debug mode [depthSlave] is the empty object, so calling its
    [getPressure] throws. *)
Definition getPressure (parked : suspension) : M unit :=
  let* dbg := gets debug in
  if dbg then throw (TypeError "depthSlave.getPressure is not a function")
  else suspend parked.

Definition setDepthLock (data : jsval) : M unit :=
  async (let* h := gets (fun w => intervals w !! "depthLock") in
         clearInterval h >>
         let* b := getProp data "body" in
         if negb (truthy b) then
           logger LogI "depth lock" >>
           modify (setDepthLockToggle (JBool false))
         else
           modify (setDepthLockToggle (JBool true)) >>
           getPressure (AwaitTargetPressure data)).

Definition setDepthLockResume (data : jsval) (reading : jsval) : M unit :=
  async (modify (setTargetPressure reading) >>
         logger LogI "depth lock" >>
         let* id := setInterval DepthLoop (jn 100) JUndefined in
         modify (fun w => setIntervals (<["depthLock" := id]> (intervals w)) w) >>
         let* response := respondTo (JObj []) data in
         sendToken response).

(** [depthLoop]: the left operand of the subtraction is read before the
    sensor is awaited. *)
Definition depthLoop : M unit :=
  async (let* target := gets targetPressure in
         getPressure (AwaitCurrentPressure target)).

Definition depthCorrection (target reading : jsval) : jsnum :=
  let error := jssub (toNumber target) (toNumber reading) in
  jsmin (jsmax (nz (-1)) (jsdiv error (nz 30))) (nz 1).

Definition depthLoopResume (target reading : jsval) : M unit :=
  async (let dofValue := depthCorrection target reading in
         setMotor (JObj [("depth", JNum (jsneg dofValue))]) >>
         logger LogV "depth lock").

Definition setLEDBrightness (data : jsval) : M unit :=
  let* dbg := gets debug in
  if dbg then ret tt
  else
    let* b := getProp data "body" in
    let dutyCycle := jsdiv (toNumber (jsplus b (nz 1))) (nz 2) in
    forEach (fun channel =>
               logger LogD "LEDTest" >>
               modify (fun w => setDuties (duties w ++ [(channel, dutyCycle)]) w))
            LEDChannels >>
    let* response := respondTo (JObj []) data in
    sendToken response.

Definition tunePIDLoop (data : jsval) : M unit :=
  let* hasKp := hasOwnProperty data "zKp" in
  (if hasKp then
     let* b := getProp data "body" in
     let* v := getProp b "zKp" in
     modify (fun w => setGains v (zKi w) (zKd w) w)
   else ret tt) >>
  let* hasKi := hasOwnProperty data "zKi" in
  (if hasKi then
     let* b := getProp data "body" in
     let* v := getProp b "zKi" in
     modify (fun w => setGains (zKp w) v (zKd w) w)
   else ret tt) >>
  let* hasKd := hasOwnProperty data "zKd" in
  (if hasKd then
     let* b := getProp data "body" in
     let* v := getProp b "zKd" in
     modify (fun w => setGains (zKp w) (zKi w) v w)
   else ret tt) >>
  let* kp := gets zKp in
  let* ki := gets zKi in
  let* kd := gets zKd in
  let* response := respondTo (JObj [("zKp", kp); ("zKi", ki); ("zKd", kd)]) data in
  sendToken response.

Definition specialTest (data : jsval) : M unit :=
  logger LogD "special delivery" >>
  let* response := respondTo (JStr "WOOOOO") data in
  sendToken response.

(** In debug mode [electromagSlave] is the empty object too. *)
Definition electromagWrite (bit : bool) : M unit :=
  let* dbg := gets debug in
  if dbg then throw (TypeError "electromagSlave method is not a function")
  else modify (fun w => setMagnet (magnet w ++ [bit]) w).

Definition specialElectromagResume (data : jsval) : M unit :=
  async (let* response := respondTo (JObj []) data in
         sendToken response).

Definition specialElectromag (data : jsval) : M unit :=
  async (let* b := getProp data "body" in
         if truthy b then
           logger LogD "electromag" >>
           electromagWrite true >>
           suspend (AwaitElectromagOn data)
         else
           logger LogD "electromag" >>
           electromagWrite false >>
           let* response := respondTo (JObj []) data in
           sendToken response).

(** ** The two event emitters *)

Definition listener : Type := jsval * (jsval -> M unit).

(** [emitter.emit(type, datum)]: listeners are found under the property
    key of [type], run in registration order; an ['error'] event nobody
    listens to is thrown. *)
Definition emit (listeners : list listener) (type : jsval) (datum : jsval) : M unit :=
  match filter (fun l : listener => toString l.1 = toString type) listeners with
  | [] =>
      match type with
      | JStr "error" => throw (UnhandledError datum)
      | _ => ret tt
      end
  | found => forEach (fun l : listener => l.2 datum) found
  end.

Definition specialEmitter : list listener :=
  [ (JStr "test", specialTest);
    (JStr "electromag", specialElectromag) ].

Definition special (data : jsval) : M unit :=
  let* headers := getProp data "headers" in
  let* specialType := getProp headers "specialType" in
  logger LogD "special" >>
  emit specialEmitter specialType data.

Definition tokenTypeEmitter : list listener :=
  [ (ECHO tokenTypes, echo);
    (READMAG tokenTypes, readMag);
    (STARTMAGSTREAM tokenTypes, startMagStream);
    (STOPMAGSTREAM tokenTypes, stopMagStream);
    (CONTROLLERDATA tokenTypes, fun data => setMotors data true);
    (READPITEMP tokenTypes, readPiTemp);
    (STARTPITEMPSTREAM tokenTypes, startPiTempStream);
    (STOPPITEMPSTREAM tokenTypes, stopPiTempStream);
    (SETDEPTHLOCK tokenTypes, setDepthLock);
    (LEDTEST tokenTypes, setLEDBrightness);
    (PIDTUNE tokenTypes, tunePIDLoop);
    (SPECIALTOKEN tokenTypes, special) ].

(** ** Entry points of the event loop *)

Definition onServerConnection (socket : nat) : M unit :=
  logger LogI "connection" >>
  modify (setClient (Some socket)).

(** The callback of [forEach] in [onClientData], for one text. *)
Definition onDatum (datum : string) : M unit :=
  logger LogD "message" >>
  let* parsed :=
    match parseJSON datum with
    | Some v => ret v
    | None => logger LogE "token parse" >> ret (JStr "tokenerror")
    end in
  let* type := getProp parsed "type" in
  emit tokenTypeEmitter type parsed.

Definition onClientData (data : string) : M unit :=
  forEach onDatum (tokenTexts data).

Definition onClientDisconnect : M unit :=
  logger LogI "connection" >>
  let* registered := gets (fun w => (map_to_list (intervals w)).*2) in
  forEach (fun interval => clearInterval (Some interval)) registered >>
  modify (setClient None).

(** A timer of the event loop comes due. *)
Definition fireTimer (id : nat) : M unit :=
  let* t := gets (fun w => timers w !! id) in
  match t with
  | None => ret tt
  | Some tm =>
      match callee tm with
      | ReadMag => readMag (argument tm)
      | ReadPiTemp => readPiTemp (argument tm)
      | DepthLoop => depthLoop
      end
  end.

(** The awaited promise of a parked function settles: [Some v] when it
    resolves with [v], [None] when it rejects. *)
Definition resume (s : suspension) (settled : option jsval) : M unit :=
  match settled with
  | None => emitEvent (Rejection (UnhandledError JUndefined))
  | Some v =>
      match s with
      | AwaitTargetPressure data => setDepthLockResume data v
      | AwaitCurrentPressure target => depthLoopResume target v
      | AwaitTempFile data => readPiTempResume data v
      | AwaitElectromagOn data => specialElectromagResume data
      end
  end.

Definition settle (i : nat) (settled : option jsval) : M unit :=
  let* parked := gets suspended in
  match parked !! i with
  | None => ret tt
  | Some s =>
      modify (fun w => setSuspended (take i parked ++ drop (S i) parked) w) >>
      resume s settled
  end.

End Remote.

(** ** Vocabulary of the statements *)

(** The raw channel sum of the specification, [Σ_j row[j] * v[j]]. *)
Definition rowSum (row v : list Qc) : Qc :=
  foldr Qcplus 0 (zip_with Qcmult row v).

(** A DOF vector whose entries are all numbers, and a matrix of numbers. *)
Definition dofVector (v : list Qc) : list jsval := map (fun q => JNum (Num q)) v.

Definition coefficients (m : list (list Qc)) : list (list jsnum) := map (map Num) m.

Definition maxAbs (acc : Qc) (rs : list Qc) : Qc :=
  foldl (fun a r => if Qcgtb (Qcabs r) a then Qcabs r else a) acc rs.

(** ** Sample data for the examples *)

Definition quote : string := String "034"%char EmptyString.

(** A command token [{type, headers: {transactionID}, body}]. *)
Definition token (type : jsval) (tid : string) (b : jsval) : jsval :=
  JObj [("type", type); ("headers", JObj [("transactionID", JStr tid)]); ("body", b)].

Definition sampleTokenTypes : TokenTypes :=
  mkTokenTypes (JStr "echo") (JStr "readMag") (JStr "startMagStream")
    (JStr "stopMagStream") (JStr "controllerData") (JStr "readPiTemp")
    (JStr "startPiTempStream") (JStr "stopPiTempStream") (JStr "setDepthLock")
    (JStr "LEDTest") (JStr "pidTune") (JStr "special").

Definition sampleResponseTypes : ResponseTypes :=
  mkResponseTypes (JStr "magData") (JStr "piTempData") (JStr "motorData").

(** The text of an echo request, and a parser that knows this text only. *)
Definition echoText : string :=
  "{" ++ quote ++ "type" ++ quote ++ ":" ++ quote ++ "echo" ++ quote ++ ","
      ++ quote ++ "headers" ++ quote ++ ":{" ++ quote ++ "transactionID" ++ quote
      ++ ":" ++ quote ++ "abc" ++ quote ++ "},"
      ++ quote ++ "body" ++ quote ++ ":" ++ quote ++ "hello" ++ quote ++ "}".

Definition samplePlatform : Platform :=
  mkPlatform
    (fun _ => NaN)
    (fun _ => "0")
    (fun text => if String.eqb text echoText
                 then Some (token (JStr "echo") "abc" (JStr "hello"))
                 else None)
    (fun _ => nz 0)
    sampleTokenTypes
    sampleResponseTypes.

(** The script after a client connected on socket 0. *)
Definition connected (dbg : bool) : World := setClient (Some 0%nat) (startup dbg).

Definition thrustMatrix : list (list Qc) :=
  [ [Qc_of_Z 1; Qc_of_Z 1; Qc_of_Z 1];
    [Qc_of_Z 1; Qc_of_Z (-1); Qc_of_Z (-1)];
    [Qc_of_Z 1; Qc_of_Z 1; Qc_of_Z (-1)];
    [Qc_of_Z 1; Qc_of_Z (-1); Qc_of_Z 1] ].

(** The depth-lock timer of [w] taken off the event loop. *)
Definition depthLockCancelled (w : World) : World :=
  match intervals w !! "depthLock" with
  | Some id => setTimers (delete id (timers w)) (nextTimer w) w
  | None => w
  end.

(** The script with the depth lock engaged at pressure 1000 and the
    first tick of its timer awaiting the sensor. *)
Definition lockRequested `{Platform} : World :=
  world (setDepthLock (token (SETDEPTHLOCK tokenTypes) "lock" (JBool true)) (connected false)).

Definition lockEngaged `{Platform} : World :=
  world (settle 0 (Some (jn 1000)) lockRequested).

Definition lockTicking `{Platform} : World :=
  world (fireTimer 0 lockEngaged).

(** Two start requests for the Pi temperature stream, then a stop. *)
Definition piTempStartedTwice `{Platform} : World :=
  world ((startPiTempStream (token (STARTPITEMPSTREAM tokenTypes) "s1" (jn 1000)) >>
          startPiTempStream (token (STARTPITEMPSTREAM tokenTypes) "s2" (jn 1000)))
           (connected true)).

Definition piTempStopped `{Platform} : World :=
  world (stopPiTempStream (token (STOPPITEMPSTREAM tokenTypes) "s3" JNull) piTempStartedTwice).

(** A computation is steady for a relation when every run takes the
    state to a related one, whether it returns or throws. *)
Definition steady {A : Type} (R : World -> World -> Prop) (m : M A) : Prop :=
  forall w, R w (world (m w)).

(** The retained DOF value under key [k] is the same in both states. *)
Definition retains (k : string) (w w' : World) : Prop :=
  oldDOFValues w' !! k = oldDOFValues w !! k.

(** The driver writes of a channel group, for values mixed from row [i] on. *)
Fixpoint channelWrites (group : list jsval) (values : list jsnum) (i : nat)
    : list (jsval * jsval) :=
  match values with
  | [] => []
  | value :: rest => (arrGet group i, JNum value) :: channelWrites group rest (S i)
  end.

Definition half : jsval := JNum (Num (Q2Qc (1 # 2))).

(** The property keys under which [tokenTypeEmitter] has listeners. *)
Definition registeredKeys `{Platform} : list string :=
  map (fun l : listener => toString l.1) tokenTypeEmitter.

(** What handling a text that does not parse leaves in the trace. *)
Definition parseErrorTrace : list event :=
  [Logged LogD "message"; Logged LogE "token parse"].

(** A run with some trace put in front of its own. *)
Definition after {A : Type} (evs : list event) (r : outcome A * World * list event)
    : outcome A * World * list event :=
  (result r, world r, evs ++ trace r).

Definition forwardOnly : list Qc := [Qc_of_Z 1; Qc_of_Z 0; Qc_of_Z 0].

(** A chunk made of a text that is not a token, then an echo request. *)
Definition mixedChunk : string := "{oops}" ++ echoText.

(** ** Vocabulary of the further properties *)

(** [s] holds the character [c]. *)
Fixpoint hasChar (c : ascii) (s : string) : bool :=
  match s with
  | EmptyString => false
  | String c' rest => (Ascii.eqb c' c || hasChar c rest)%bool
  end.

(** [s] with every [c] taken out. *)
Fixpoint withoutChar (c : ascii) (s : string) : string :=
  match s with
  | EmptyString => EmptyString
  | String c' rest =>
      if Ascii.eqb c' c then withoutChar c rest else String c' (withoutChar c rest)
  end.

(** [s] holds a closing brace right before an opening one. *)
Fixpoint hasBoundary (s : string) : bool :=
  match s with
  | EmptyString => false
  | String c rest =>
      match rest with
      | String c' _ => ((Ascii.eqb c "}"%char && Ascii.eqb c' "{"%char) || hasBoundary rest)%bool
      | EmptyString => false
      end
  end.

(** The timer registered under [name] taken off the event loop; the
    handle stays in the intervals object. *)
Definition cancelled (name : string) (w : World) : World :=
  match intervals w !! name with
  | Some id => setTimers (delete id (timers w)) (nextTimer w) w
  | None => w
  end.

(** A state predicate is preserved by a computation when it holds after
    every run that starts where it holds, whether the run returns or
    throws. *)
Definition preserves {A : Type} (I : World -> Prop) (m : M A) : Prop :=
  forall w, I w -> I (world (m w)).

(** What the event loop hands to the script. *)
Inductive input : Type :=
  | Connection (socket : nat)
  | Data (chunk : string)
  | Close
  | Tick (id : nat)
  | Settled (i : nat) (settled : option jsval).

Definition react `{Platform} (e : input) : M unit :=
  match e with
  | Connection socket => onServerConnection socket
  | Data chunk => onClientData chunk
  | Close => onClientDisconnect
  | Tick id => fireTimer id
  | Settled i settled => settle i settled
  end.

(** The state after a sequence of inputs; an exception that reaches the
    event loop ends the process, and the inputs after it are not seen. *)
Fixpoint runAll `{Platform} (inputs : list input) (w : World) : World :=
  match inputs with
  | [] => w
  | e :: rest =>
      match result (react e w) with
      | Ret _ => runAll rest (world (react e w))
      | Throw _ => world (react e w)
      end
  end.

(** Debug mode is on and the hardware has seen nothing since [w0]. *)
Definition hardwareQuiet (w0 w : World) : Prop :=
  debug w = true /\ pulses w = pulses w0 /\ duties w = duties w0 /\ magnet w = magnet w0.

(** No session is stored and nothing has been written since [w0]. *)
Definition sessionless (w0 w : World) : Prop :=
  client w = None /\ written w = written w0.

(** Every DOF key retained in [w0] is still retained. *)
Definition keepsKeys (w0 w : World) : Prop :=
  forall k, is_Some (oldDOFValues w0 !! k) -> is_Some (oldDOFValues w !! k).

(** No session is stored and the retained DOF values are those of [w0]. *)
Definition unsentUnretained (w0 w : World) : Prop :=
  client w = None /\ oldDOFValues w = oldDOFValues w0.

Definition isConnection (e : input) : bool :=
  match e with Connection _ => true | _ => false end.

(** A platform whose parser knows three texts: one that is [null], one
    token of a type nobody listens to, one token of type ["error"]. *)
Definition probePlatform : Platform :=
  mkPlatform
    (fun _ => NaN)
    (fun _ => "0")
    (fun text => if String.eqb text "null" then Some JNull
                 else if String.eqb text "{ping}" then Some (token (JStr "ping") "p1" JNull)
                 else if String.eqb text "{error}" then Some (token (JStr "error") "e1" JNull)
                 else None)
    (fun _ => nz 0)
    sampleTokenTypes
    sampleResponseTypes.


(** * binary64 by its specification

    The kernel specifies its primitive floats by the functions of
    [SpecFloat]: a finite number is a sign, a mantissa and an exponent.
    This module reads such a number as a rational, and names what the
    proof that the operations round faithfully speaks of. *)

Module Binary64.

Import SpecFloat.

Local Open Scope Z_scope.
Local Open Scope Q_scope.

Definition prec : Z := 53.
Definition emax : Z := 1024.

Definition pow2 (e : Z) : Q := Qpower 2 e.

(** [m * 2^e] *)
Definition F2Q (m e : Z) : Q := inject_Z m * pow2 e.

(** The rational a finite number stands for. *)
Definition SFval (x : spec_float) : option Q :=
  match x with
  | S754_zero _ => Some 0
  | S754_finite s m e => Some (F2Q (cond_Zopp s (Zpos m)) e)
  | _ => None
  end.

(** A number as the engine holds it: canonical mantissa and exponent. *)
Definition valid (x : spec_float) : Prop := valid_binary prec emax x = true.

(** The magnitudes of the finite numbers: zero and the canonical ones. *)
Definition representable (h : Q) : Prop :=
  h == 0 \/ exists m e, bounded prec emax m e = true /\ h == F2Q (Zpos m) e.

Definition exact_flags (mrs : shr_record) : Prop :=
  shr_r mrs = false /\ shr_s mrs = false.

(** [mrs] at exponent [e] stands for the value [v]: its mantissa is the
    integer part, and its two flags are clear when nothing is left. *)
Definition stands (mrs : shr_record) (e : Z) (v : Q) : Prop :=
  (0 <= shr_m mrs)%Z /\
  F2Q (shr_m mrs) e <= v /\ v < F2Q (shr_m mrs + 1) e /\
  (exact_flags mrs <-> v == F2Q (shr_m mrs) e).

(** What a result of [binary_round_aux] is, for the sign [sx]: a zero or
    a finite number of magnitude [R]. *)
Definition magnitude_of (res : spec_float) (sx : bool) (R : Q) : Prop :=
  match res with
  | S754_zero s => s = sx /\ R == 0
  | S754_finite s m e => s = sx /\ R == F2Q (Zpos m) e
  | _ => False
  end.

End Binary64.

(** * The arithmetic of the engine

    A JavaScript number is an IEEE 754 binary64 value, and [+], [*], [/],
    [Math.abs] and [>] are the engine's.  The mixing computation is
    embedded here over an arithmetic that is a parameter: binary64
    itself, which the statements on rounding and overflow are about,
    and the exact numbers of the handlers. *)

Module Engine.

Class Arith : Type := mkArith {
  num : Type;
  (** an integer literal of the program *)
  lit : Z -> num;
  (** what arithmetic makes of [undefined] *)
  nan : num;
  add : num -> num -> num;
  mul : num -> num -> num;
  div : num -> num -> num;
  abs : num -> num;
  (** [a > b] *)
  gt : num -> num -> bool
}.

Section Mixing.

Context {arith : Arith}.

Definition vectorMapMatrix : list (list num) :=
  [ [lit 1; lit 1; lit 1];
    [lit 1; lit (-1); lit (-1)];
    [lit 1; lit 1; lit (-1)];
    [lit 1; lit (-1); lit 1] ].

Definition depthMapMatrix : list (list num) :=
  [ [lit 1; lit (-1)];
    [lit (-1); lit (-1)] ].

Definition defaultDiff : num := lit 400.
Definition defaultMid : num := lit 1550.

(** [data[index]] as an operand: past the end it is [undefined]. *)
Definition operand (data : list num) (index : nat) : num :=
  default nan (data !! index).

(** [row.reduce((sum, dir, index) => sum + dir * data[index], 0)] *)
Definition rawValue (data : list num) (row : list num) : num :=
  reduce (fun sum dir index => add sum (mul dir (operand data index))) row (lit 0).

Definition rawValues (data : list num) (matrix : list (list num)) : list num :=
  map (rawValue data) matrix.

(** [rawValues.reduce((accum, val) => Math.abs(val) > accum ? Math.abs(val) : accum, 1)] *)
Definition maxRaw (raws : list num) : num :=
  reduce (fun accum val (_ : nat) => if gt (abs val) accum then abs val else accum)
         raws (lit 1).

Definition calcMotorValues (data : list num) (matrix : list (list num))
    (diff mid : num) : list num :=
  let raws := rawValues data matrix in
  map (fun element => add (mul (div element (maxRaw raws)) diff) mid) raws.

End Mixing.

(** ** binary64

    The engine's own numbers, as the kernel's primitive floats. *)

Definition literal64 (z : Z) : PrimFloat.float :=
  match z with
  | Z0 => PrimFloat.zero
  | Zpos _ => PrimFloat.of_uint63 (Uint63.of_Z z)
  | Zneg p => PrimFloat.opp (PrimFloat.of_uint63 (Uint63.of_Z (Zpos p)))
  end.

Definition binary64 : Arith :=
  mkArith PrimFloat.float literal64 PrimFloat.nan PrimFloat.add PrimFloat.mul PrimFloat.div
          PrimFloat.abs (fun a b => PrimFloat.ltb b a).

(** The rational a binary64 value stands for, if it is finite. *)
Definition value64 (x : PrimFloat.float) : option Qc :=
  Q2Qc <$> Binary64.SFval (FloatOps.Prim2SF x).

(** ** Exact arithmetic

    The rationals with [NaN]: the arithmetic that rounds nothing. *)

Definition exact : Arith := mkArith jsnum nz NaN jsadd jsmul jsdiv jsabs jsgt.

Definition exactValue (a : jsnum) : option Qc :=
  match a with Num q => Some q | NaN => None end.

(** ** Faithful rounding

    What the statements below use of an arithmetic.  [val a] is the
    rational a finite number stands for, and is [None] for NaN and the
    infinities.  An operation on finite operands returns a number that
    no number of the arithmetic separates from the exact result: it
    lies between any two finite numbers that enclose the exact result,
    so it is that result when the arithmetic has it.  [Math.abs] and
    [>] are exact, every finite number has its opposite, and dividing
    by the literal 1 returns the dividend.  Nothing of this is assumed
    of binary64: [binary64_faithful] derives it from the functions by
    which the kernel specifies its floats. *)

Record Faithful (arith : Arith) (val : num -> option Qc) : Prop :=
  mkFaithful {
    val_one : val (lit 1) = Some 1;
    val_opp : forall a x, val a = Some x -> exists b, val b = Some (- x);
    val_abs : forall a x, val a = Some x -> val (abs a) = Some (Qcabs x);
    gt_spec : forall a b x y, val a = Some x -> val b = Some y -> gt a b = Qcgtb x y;
    add_between : forall a b l h x y lo hi,
      val a = Some x -> val b = Some y -> val l = Some lo -> val h = Some hi ->
      lo <= x + y -> x + y <= hi ->
      exists z, val (add a b) = Some z /\ lo <= z /\ z <= hi;
    mul_between : forall a b l h x y lo hi,
      val a = Some x -> val b = Some y -> val l = Some lo -> val h = Some hi ->
      lo <= x * y -> x * y <= hi ->
      exists z, val (mul a b) = Some z /\ lo <= z /\ z <= hi;
    div_between : forall a b l h x y lo hi,
      val a = Some x -> val b = Some y -> y <> 0 ->
      val l = Some lo -> val h = Some hi ->
      lo <= x / y -> x / y <= hi ->
      exists z, val (div a b) = Some z /\ lo <= z /\ z <= hi;
    div_one : forall a, div a (lit 1) = a
  }.

End Engine.

(** A finite number whose value lies in [lo, hi]. *)
Definition between {arith : Engine.Arith} (val : Engine.num -> option Qc) (lo hi : Qc)
    (p : Engine.num) : Prop :=
  exists q, val p = Some q /\ lo <= q /\ q <= hi.

(** A finite number of magnitude at most [bound]. *)
Definition within {arith : Engine.Arith} (val : Engine.num -> option Qc) (bound : Qc)
    (r : Engine.num) : Prop :=
  exists x, val r = Some x /\ Qcabs x <= bound.


(** A DOF vector whose first two values are 2^1023: their sum overflows. *)
Definition overflowing : list PrimFloat.float :=
  [FloatOps.Z.ldexp PrimFloat.one 1023; FloatOps.Z.ldexp PrimFloat.one 1023; Engine.literal64 0].

(** 2^52, 3/2 and -(2^52 + 1): the exact sum is 1/2. *)
Definition cancelling : list PrimFloat.float :=
  [Engine.literal64 (2 ^ 52);
   PrimFloat.div (Engine.literal64 3) (Engine.literal64 2);
   Engine.literal64 (- (2 ^ 52 + 1))].

(** 3 * 2^-54: with the center 1 the sum 1 + 3 * 2^-54 is no number of
    the engine. *)
Definition tinyDiff : PrimFloat.float := FloatOps.Z.ldexp (Engine.literal64 3) (-54).

(** The stick positions k/16, for k from -16 to 16, on binary64. *)
Definition stickPositions : list PrimFloat.float :=
  map (fun k => PrimFloat.div (Engine.literal64 k) (Engine.literal64 16)) (seqZ (-16) 33).

(** [lo <= p && p <= hi] on binary64. *)
Definition inRange64 (lo hi p : PrimFloat.float) : bool :=
  (PrimFloat.leb lo p && PrimFloat.leb p hi)%bool.

(** Every pulse width of the mix of [data] lies in [1150, 1950]. *)
Definition mixInRange (matrix : list (list PrimFloat.float)) (data : list PrimFloat.float)
    : bool :=
  forallb (inRange64 (Engine.literal64 1150) (Engine.literal64 1950))
          (@Engine.calcMotorValues Engine.binary64 data matrix
             Engine.defaultDiff Engine.defaultMid).

(** ** The control law in the words of the specification

    [dofValue = clamp(error / 30, -1, 1)] with
    [error = targetPressure - currentPressure]. *)
Definition clamp (x lo hi : jsnum) : jsnum :=
  if jsgt lo x then lo else if jsgt x hi then hi else x.

Definition controlLaw (targetPressure currentPressure : jsnum) : jsnum :=
  let error := jssub targetPressure currentPressure in
  clamp (jsdiv error (nz 30)) (nz (-1)) (nz 1).

(** What a proportional term with gain [kp] would make of the same error. *)
Definition proportionalTerm (kp targetPressure currentPressure : jsnum) : jsnum :=
  let error := jssub targetPressure currentPressure in
  clamp (jsmul kp (jsdiv error (nz 30))) (nz (-1)) (nz 1).

(** A tune token that owns the key [zKp] itself and carries the gain 5
    in its body. *)
Definition tuneToken : jsval :=
  JObj [("type", JStr "pidTune");
        ("headers", JObj [("transactionID", JStr "t1")]);
        ("body", JObj [("zKp", jn 5)]);
        ("zKp", JBool true)].

(** * Properties *)

(** ** Tactics *)

(** Exposes the state-passing form of a computation whose handlers have
    been unfolded. *)
Ltac unfold_monad :=
  unfold orM, andM, getProp, hasOwnProperty, clearInterval, setInterval, suspend,
    logger, emitEvent, lift, gets, modify, ret, throw, async, bind.

(** Closed equations between values that contain rationals. *)
Ltac qc_equal :=
  vm_compute;
  repeat first [ reflexivity | apply Qc_is_canon; reflexivity | f_equal ].

(** [value64 a = Some q] for a closed [a]: the float is evaluated. *)
Ltac value64_eval :=
  unfold Engine.value64;
  match goal with
  | |- context [FloatOps.Prim2SF ?a] =>
      let v := eval vm_compute in (FloatOps.Prim2SF a) in
      change (FloatOps.Prim2SF a) with v
  end;
  simpl.

Ltac value64_closed :=
  value64_eval; f_equal; apply Qc_is_canon; vm_compute; reflexivity.

Section Properties.

Context {platform : Platform}.

#[local] Arguments propOf : simpl never.
#[local] Arguments ownsOf : simpl never.

(** ** Arithmetic of the mixing engine *)

Lemma Qcgtb_true (x y : Qc) : Qcgtb x y = true <-> y < x.
Proof.
  unfold Qcgtb. split.
  - destruct (x ?= y)%Qc eqn:E; try discriminate. intros _. by apply Qcgt_alt.
  - intros H. apply Qcgt_alt in H. by rewrite H.
Qed.

Lemma Qcgtb_false (x y : Qc) : Qcgtb x y = false <-> x <= y.
Proof.
  rewrite Qcle_alt. unfold Qcgtb. destruct (x ?= y)%Qc; split; intros; congruence.
Qed.

Lemma Qceqb_true (x y : Qc) : Qceqb x y = true <-> x = y.
Proof.
  rewrite Qceq_alt. unfold Qceqb. destruct (x ?= y)%Qc; split; intros; congruence.
Qed.

Lemma Qceqb_false_pos (x : Qc) : 0 < x -> Qceqb x 0 = false.
Proof.
  intros H. destruct (Qceqb x 0) eqn:E; [|done].
  apply Qceqb_true in E. subst. by destruct (Qclt_not_eq 0 0).
Qed.

Lemma Qc_of_Z_0 : Qc_of_Z 0 = 0.
Proof. by apply Qc_is_canon. Qed.

Lemma Qc_of_Z_1 : Qc_of_Z 1 = 1.
Proof. by apply Qc_is_canon. Qed.

Lemma arrGet_dofVector (v : list Qc) (i : nat) (x : Qc) :
  v !! i = Some x -> arrGet (dofVector v) i = JNum (Num x).
Proof.
  intros H. unfold arrGet, dofVector. change (map ?f v) with (f <$> v).
  by rewrite list_lookup_fmap, H.
Qed.

Lemma rawValue_from (row : list Qc) : forall (v : list Qc) (i : nat) (acc : Qc),
  (length row + i <= length v)%nat ->
  reduceFrom (fun sum dir index =>
                jsadd sum (jsmul dir (toNumber (arrGet (dofVector v) index))))
             (map Num row) i (Num acc)
  = Num (acc + rowSum row (drop i v)).
Proof.
  induction row as [|d row IH]; intros v i acc Hlen; simpl.
  - unfold rowSum. simpl. by rewrite Qcplus_0_r.
  - simpl in Hlen.
    destruct (lookup_lt_is_Some_2 v i) as [x Hx]; [lia|].
    rewrite (arrGet_dofVector _ _ _ Hx). simpl.
    rewrite IH by lia. f_equal.
    rewrite (drop_S _ _ _ Hx). unfold rowSum. simpl. ring.
Qed.

Lemma rawValue_rowSum (row v : list Qc) :
  (length row <= length v)%nat ->
  rawValue (dofVector v) (map Num row) = Num (rowSum row v).
Proof.
  intros H. unfold rawValue, reduce, nz.
  rewrite rawValue_from by lia. rewrite drop_0, Qc_of_Z_0. f_equal. ring.
Qed.

Lemma rawValues_rowSum (m : list (list Qc)) (v : list Qc) :
  Forall (fun row => (length row <= length v)%nat) m ->
  rawValues (dofVector v) (coefficients m) = map Num (map (fun row => rowSum row v) m).
Proof.
  unfold rawValues, coefficients. induction 1 as [|row m Hrow _ IH]; simpl; [done|].
  rewrite rawValue_rowSum by done. f_equal. apply IH.
Qed.

Lemma maxRaw_from (rs : list Qc) : forall (i : nat) (acc : Qc),
  reduceFrom (fun accum val (_ : nat) => if jsgt (jsabs val) accum then jsabs val else accum)
             (map Num rs) i (Num acc)
  = Num (maxAbs acc rs).
Proof.
  induction rs as [|r rs IH]; intros i acc; simpl; [done|].
  destruct (Qcgtb (Qcabs r) acc); apply IH.
Qed.

Lemma maxRaw_maxAbs (rs : list Qc) : maxRaw (map Num rs) = Num (maxAbs 1 rs).
Proof. unfold maxRaw, reduce, nz. rewrite Qc_of_Z_1. apply maxRaw_from. Qed.

Lemma maxAbs_ge_acc (rs : list Qc) : forall acc, acc <= maxAbs acc rs.
Proof.
  induction rs as [|r rs IH]; intros acc; simpl; [apply Qcle_refl|].
  destruct (Qcgtb (Qcabs r) acc) eqn:E; [|apply IH].
  apply Qcgtb_true in E. eapply Qcle_trans; [|apply IH]. by apply Qclt_le_weak.
Qed.

Lemma maxAbs_ge_elem (rs : list Qc) : forall acc r,
  r ∈ rs -> Qcabs r <= maxAbs acc rs.
Proof.
  induction rs as [|r0 rs IH]; intros acc r Hin; [by apply elem_of_nil in Hin|].
  apply elem_of_cons in Hin as [->|Hin]; simpl; [|by apply IH].
  destruct (Qcgtb (Qcabs r0) acc) eqn:E.
  - apply maxAbs_ge_acc.
  - apply Qcgtb_false in E. eapply Qcle_trans; [exact E|apply maxAbs_ge_acc].
Qed.

Lemma maxAbs_unit (rs : list Qc) :
  Forall (fun r => Qcabs r <= 1) rs -> maxAbs 1 rs = 1.
Proof.
  induction 1 as [|r rs Hr _ IH]; simpl; [done|].
  apply Qcgtb_false in Hr. by rewrite Hr.
Qed.

Lemma Qc_one_pos : (0 : Qc) < 1.
Proof. by apply Qclt_alt. Qed.

Lemma Qcinv_nonneg (m : Qc) : 0 < m -> 0 <= / m.
Proof.
  intros H. destruct (Qclt_le_dec (/ m) 0) as [Hneg|]; [|done].
  exfalso. apply (Qcmult_lt_compat_r _ _ m H) in Hneg.
  rewrite Qcmult_0_l, Qcmult_inv_l in Hneg.
  - apply (Qclt_not_le _ _ Hneg). apply Qclt_le_weak, Qc_one_pos.
  - intros ->. by destruct (Qclt_not_eq 0 0).
Qed.

(** The whole computation on a well-shaped numeric input. *)
Lemma calcMotorValues_numeric (v : list Qc) (m : list (list Qc)) (diff mid : Qc) :
  Forall (fun row => (length row <= length v)%nat) m ->
  calcMotorValues (dofVector v) (coefficients m) (Num diff) (Num mid)
  = map (fun row => Num (rowSum row v / maxAbs 1 (map (fun row => rowSum row v) m) * diff + mid))
        m.
Proof.
  intros Hshape. unfold calcMotorValues.
  rewrite rawValues_rowSum by done. rewrite maxRaw_maxAbs.
  rewrite !map_map. apply map_ext. intros row. simpl.
  rewrite Qceqb_false_pos; [done|].
  eapply Qclt_le_trans; [apply Qc_one_pos|apply maxAbs_ge_acc].
Qed.

Lemma calcMotorValues_length (data : list jsval) (matrix : list (list jsnum)) (diff mid : jsnum) :
  length (calcMotorValues data matrix diff mid) = length matrix.
Proof. unfold calcMotorValues, rawValues. by rewrite !length_map. Qed.

(** ** Single channels *)

(** What the single-channel wrapper computes for an input of magnitude at
    most 1, whatever [diff] and [mid] it is given. *)
Lemma calcMotorValue_default_range (x diff mid : Qc) :
  Qcabs x <= 1 ->
  calcMotorValue (JNum (Num x)) (Num diff) (Num mid)
  = JNum (Num (Qc_of_Z 1550 + x * Qc_of_Z 400)).
Proof.
  intros Hx. unfold calcMotorValue, calcMotorValues, rawValues, rawValue, maxRaw, reduce.
  simpl. rewrite Qc_of_Z_0, Qc_of_Z_1, Qcplus_0_l, Qcmult_1_l.
  apply Qcgtb_false in Hx. rewrite Hx.
  replace (Qceqb 1 0) with false by done. simpl.
  rewrite ?Qc_of_Z_1. do 2 f_equal.
  generalize (Qc_of_Z 400) (Qc_of_Z 1550). intros d c. field. apply Q_apart_0_1.
Qed.

(** C8. The leveler is asked for a half-range of 500, but the wrapper
    does not hand its [diff] on: a full-scale leveler command yields
    1950, not 1550 + 500, and that is the pulse written to channel 7. *)
Theorem leveler_half_range_dropped :
  calcMotorValue (jn 1) (nz 500) (nz 1550) = jn 1950 /\
  pulses (world (setMotors (token (CONTROLLERDATA tokenTypes) "t1" (JObj [("leveler", jn 1)]))
                           true (connected false)))
  = initialPulses ++ [(motorChannels_leveler, jn 1950)].
Proof. split; qc_equal. Qed.

(** ** Sending *)

(** C9, amended. Sending while no session is stored logs the token and
    then throws; nothing is written and the state is left as it was. *)
Theorem sendToken_without_session (t : responseToken) (w : World) :
  client w = None ->
  sendToken t w = (Throw (TypeError "cannot read property write"), w, [Logged LogD "message"]).
Proof. intros H. unfold sendToken. unfold_monad. simpl. by rewrite H. Qed.

Lemma sendToken_with_session (t : responseToken) (w : World) (socket : nat) :
  client w = Some socket ->
  sendToken t w = (Ret tt, setWritten (written w ++ [(socket, t)]) w, [Logged LogD "message"]).
Proof. intros H. unfold sendToken. unfold_monad. simpl. by rewrite H. Qed.

(** ** Depth lock *)

(** C10. A set-depth-lock command with a falsy body cancels the
    depthLock timer and clears the flag without writing any response
    and without parking on the sensor; the acknowledgement is written on
    the enable path only, once the target pressure has been read. *)
Theorem setDepthLock_off_sends_nothing :
  (forall (data b : jsval) (w : World),
     propOf data "body" = Ret b ->
     truthy b = false ->
     setDepthLock data w
     = (Ret tt, setDepthLockToggle (JBool false) (depthLockCancelled w),
        [Logged LogI "depth lock"]) /\
     written (world (setDepthLock data w)) = written w /\
     depthLockToggle (world (setDepthLock data w)) = JBool false /\
     (forall id, intervals w !! "depthLock" = Some id ->
                 timers (world (setDepthLock data w)) !! id = None)) /\
  (forall (data headers tid reading : jsval) (w : World) (socket : nat),
     propOf data "headers" = Ret headers ->
     propOf headers "transactionID" = Ret tid ->
     client w = Some socket ->
     written (world (setDepthLockResume data reading w))
     = written w ++ [(socket, mkResponse (JObj []) tid)]).
Proof.
  split.
  - intros data b w Hbody Hfalsy.
    assert (Hrun : setDepthLock data w
                   = (Ret tt, setDepthLockToggle (JBool false) (depthLockCancelled w),
                      [Logged LogI "depth lock"])).
    { unfold setDepthLock, depthLockCancelled. unfold_monad.
      destruct (intervals w !! "depthLock") as [id|]; simpl;
        rewrite Hbody; simpl; rewrite Hfalsy; reflexivity. }
    rewrite Hrun. split; [done|]. unfold world, depthLockCancelled. simpl.
    repeat split.
    + by destruct (intervals w !! "depthLock").
    + intros id Hid. rewrite Hid. simpl. apply lookup_delete_eq.
  - intros data headers tid reading w socket Hh Ht Hc.
    unfold setDepthLockResume, respondTo, sendToken. unfold_monad.
    simpl. rewrite Hh. simpl. rewrite Ht. simpl. by rewrite Hc.
Qed.

(** C3. One correction cycle with the lock engaged at 1000 and a
    reading of 970: the correction is 1, the retained depth axis becomes
    -1 and a response tagged with the motor-data identifier is written,
    but its body is empty and no pulse reaches any channel: the driver
    has seen nothing since its initialisation. *)
Theorem depthLoop_cycle_drives_no_channel :
  let r := settle 0 (Some (jn 970)) lockTicking in
  suspended lockTicking = [AwaitCurrentPressure (jn 1000)] /\
  depthCorrection (jn 1000) (jn 970) = nz 1 /\
  result r = Ret tt /\
  oldDOFValues (world r) !! "depth" = Some (jn (-1)) /\
  written (world r)
  = written lockTicking ++ [(0%nat, mkResponse (JObj []) (MOTORDATA responseTypes))] /\
  pulses (world r) = initialPulses.
Proof. repeat split; qc_equal. Qed.

(** A depth-only command that does not come from the controller never
    reaches the driver, whatever the state. *)
Lemma setMotor_depth_writes_no_pulse (v : jsval) (w : World) :
  pulses (world (setMotor (JObj [("depth", v)]) w)) = pulses w.
Proof.
  unfold setMotor, setMotors, respondTo, sendToken. unfold_monad.
  unfold propOf, ownsOf. simpl.
  destruct (truthy (depthLockToggle w)); simpl; by destruct (client w).
Qed.

(** ** Streams *)

(** C4. Starting the Pi temperature stream twice leaves two live timers:
    the handle of the first is overwritten without being cleared, so
    neither a stop request nor a disconnect cancels it, and it goes on
    producing telemetry. *)
Theorem startPiTempStream_twice_leaks_timer :
  callee <$> timers piTempStartedTwice !! 0%nat = Some ReadPiTemp /\
  callee <$> timers piTempStartedTwice !! 1%nat = Some ReadPiTemp /\
  intervals piTempStartedTwice !! "piTemp" = Some 1%nat /\
  callee <$> timers piTempStopped !! 0%nat = Some ReadPiTemp /\
  callee <$> timers (world (onClientDisconnect piTempStartedTwice)) !! 0%nat = Some ReadPiTemp /\
  written (world (fireTimer 0 piTempStopped))
  = written piTempStopped
    ++ [(0%nat, mkResponse (JStr "6 bajillion degrees") (PITEMPDATA responseTypes))].
Proof. repeat split; vm_compute; reflexivity. Qed.

(** The magnetometer stream does clear the previous timer first. *)
Lemma startMagStream_replaces_timer (data b ms : jsval) (w : World) :
  propOf data "body" = Ret b ->
  propOf b "interval" = Ret ms ->
  timers (world (startMagStream data w))
  = <[nextTimer w := mkTimer ReadMag ms (streamToken (MAGDATA responseTypes))]>
      (match intervals w !! "mag" with
       | Some id => delete id (timers w)
       | None => timers w
       end).
Proof.
  intros Hb Hms.
  unfold startMagStream, respondTo, sendToken. unfold_monad.
  destruct (intervals w !! "mag") as [id|]; simpl; rewrite Hb; simpl; rewrite Hms; simpl;
    destruct (propOf data "headers") as [h|]; simpl; try done;
    destruct (propOf h "transactionID"); simpl; try done;
    by destruct (client w).
Qed.

(** ** Retained DOF values along a run *)

Lemma retains_refl (k : string) (w : World) : retains k w w.
Proof. reflexivity. Qed.

Lemma retains_trans (k : string) (w1 w2 w3 : World) :
  retains k w1 w2 -> retains k w2 w3 -> retains k w1 w3.
Proof. unfold retains. congruence. Qed.

Section Steady.

Variable k : string.

Lemma steady_ret {A : Type} (a : A) : steady (retains k) (ret a).
Proof. intros w. apply retains_refl. Qed.

Lemma steady_lift {A : Type} (o : outcome A) : steady (retains k) (lift o).
Proof. intros w. apply retains_refl. Qed.

Lemma steady_gets {A : Type} (f : World -> A) : steady (retains k) (gets f).
Proof. intros w. apply retains_refl. Qed.

Lemma steady_logger (lvl : level) (tag : string) : steady (retains k) (logger lvl tag).
Proof. intros w. apply retains_refl. Qed.

Lemma steady_modify (f : World -> World) :
  (forall w, retains k w (f w)) -> steady (retains k) (modify f).
Proof. intros H w. apply H. Qed.

Lemma steady_bind {A B : Type} (m : M A) (f : A -> M B) :
  steady (retains k) m -> (forall a, steady (retains k) (f a)) ->
  steady (retains k) (bind m f).
Proof.
  intros Hm Hf w. specialize (Hm w). unfold bind, world in *.
  destruct (m w) as [[[a|e] w1] evs1]; simpl in *; [|done].
  specialize (Hf a w1). unfold world in Hf.
  destruct (f a w1) as [[r w2] evs2]; simpl in *. by apply retains_trans with w1.
Qed.

Lemma steady_bind_lift {A B : Type} (o : outcome A) (f : A -> M B) :
  (forall a, o = Ret a -> steady (retains k) (f a)) ->
  steady (retains k) (bind (lift o) f).
Proof.
  intros Hf w. unfold bind, lift, world.
  destruct o as [a|e]; simpl; [|apply retains_refl].
  specialize (Hf a eq_refl w). unfold world in Hf.
  by destruct (f a w) as [[r w2] evs2].
Qed.

Lemma steady_orM (a b : M bool) :
  steady (retains k) a -> steady (retains k) b -> steady (retains k) (orM a b).
Proof.
  intros Ha Hb. apply steady_bind; [done|]. intros [|]; [apply steady_ret|done].
Qed.

Lemma steady_andM (a b : M bool) :
  steady (retains k) a -> steady (retains k) b -> steady (retains k) (andM a b).
Proof.
  intros Ha Hb. apply steady_bind; [done|]. intros [|]; [done|apply steady_ret].
Qed.

Lemma steady_mapMFrom {A B : Type} (f : A -> nat -> M B) (l : list A) :
  (forall x i, steady (retains k) (f x i)) -> forall i, steady (retains k) (mapMFrom f l i).
Proof.
  intros Hf. induction l as [|x l IH]; intros i; simpl; [apply steady_ret|].
  apply steady_bind; [apply Hf|]. intros y.
  apply steady_bind; [apply IH|]. intros ys. apply steady_ret.
Qed.

End Steady.

Lemma steady_setChannel (k : string) (channel value : jsval) :
  steady (retains k) (setChannel channel value).
Proof.
  unfold setChannel. apply steady_bind; [apply steady_gets|]. intros [|].
  - apply steady_ret.
  - apply steady_bind; [|intros; apply steady_ret]. by apply steady_modify.
Qed.

Lemma steady_pick (k : string) (DOFValues : jsval) (key : string) :
  steady (retains k) (pick DOFValues key).
Proof.
  unfold pick, hasOwnProperty. apply steady_bind_lift. intros [|] _.
  - apply steady_lift.
  - apply steady_gets.
Qed.

Lemma steady_respondTo (k : string) (b data : jsval) :
  steady (retains k) (respondTo b data).
Proof.
  unfold respondTo, getProp. apply steady_bind_lift. intros headers _.
  apply steady_bind_lift. intros tid _. apply steady_ret.
Qed.

Lemma steady_sendToken (k : string) (t : responseToken) :
  steady (retains k) (sendToken t).
Proof.
  unfold sendToken. apply steady_bind; [apply steady_logger|]. intros _.
  apply steady_bind; [apply steady_gets|]. intros [socket|].
  - by apply steady_modify.
  - intros w. apply retains_refl.
Qed.

(** [Object.assign] leaves the keys its source does not own. *)
Lemma objectAssign_absent (old : gmap string jsval) (source : jsval) (k : string) :
  k ∉ (ownEntries source).*1 -> objectAssign old source !! k = old !! k.
Proof.
  unfold objectAssign. generalize (ownEntries source). intros entries.
  revert old. induction entries as [|[k' v] entries IH]; intros old Hk; simpl; [done|].
  rewrite fmap_cons, not_elem_of_cons in Hk. destruct Hk as [Hne Hk].
  rewrite IH by done. by apply lookup_insert_ne.
Qed.

Lemma steady_setMotors (k : string) (data : jsval) (fromController : bool) :
  (forall b, propOf data "body" = Ret b -> k ∉ (ownEntries b).*1) ->
  steady (retains k) (setMotors data fromController).
Proof.
  intros Habsent. unfold setMotors, getProp, hasOwnProperty.
  apply steady_bind; [apply steady_logger|]. intros _.
  apply steady_bind_lift. intros DOFValues Hbody.
  repeat first
    [ apply steady_ret | apply steady_lift | apply steady_gets | apply steady_logger
    | apply steady_pick | apply steady_setChannel | apply steady_respondTo
    | apply steady_sendToken | apply steady_orM | apply steady_andM
    | apply steady_mapMFrom | apply steady_bind
    | match goal with
      | |- steady _ (if ?c then _ else _) => destruct c
      | |- steady _ (mapM _ _) => unfold mapM
      | |- forall _, _ => intro
      end ].
  apply steady_modify. intros w. unfold retains. simpl.
  apply objectAssign_absent. by apply Habsent.
Qed.

Lemma setPulses_same (w : World) : setPulses (pulses w) w = w.
Proof. by destruct w. Qed.

(** Writing a row of mixed values: every value is handed back, and
    outside debug mode one pulse per value goes to the driver. *)
Lemma mapMFrom_setChannel (group : list jsval) (values : list jsnum) :
  forall (i : nat) (w : World),
    mapMFrom (fun value index => setChannel (arrGet group index) (JNum value)) values i w
    = (Ret (map JNum values),
       if debug w then w else setPulses (pulses w ++ channelWrites group values i) w,
       []).
Proof.
  induction values as [|x values IH]; intros i w; simpl.
  - rewrite app_nil_r, setPulses_same. by destruct (debug w).
  - unfold bind at 1. unfold setChannel at 1. unfold_monad.
    destruct (debug w) eqn:Hdbg; simpl.
    + rewrite IH, Hdbg. reflexivity.
    + rewrite IH. simpl. rewrite Hdbg. unfold setPulses. simpl.
      by rewrite <- app_assoc.
Qed.

#[local] Opaque calcMotorValues.

(** C5. A DOF key that an update does not own keeps its retained value;
    the partial update [{turn: 1/2}] is mixed with the retained forward
    and strafe values, which stay as they were; and the override issued
    by the depth lock touches no retained axis but depth and writes no
    pulse. *)
Theorem setMotors_partial_update_retains :
  (forall (data : jsval) (fromController : bool) (k : string) (w : World),
     (forall b, propOf data "body" = Ret b -> k ∉ (ownEntries b).*1) ->
     oldDOFValues (world (setMotors data fromController w)) !! k = oldDOFValues w !! k) /\
  (forall (type : jsval) (tid : string) (fromController : bool) (w : World) (socket : nat),
     client w = Some socket ->
     let r := setMotors (token type tid (JObj [("turn", half)])) fromController w in
     written (world r)
     = written w
       ++ [(socket,
            mkResponse
              (JObj [("vector",
                      JArr (map JNum
                              (calcMotorValues
                                 [default JUndefined (oldDOFValues w !! "FB");
                                  half;
                                  default JUndefined (oldDOFValues w !! "strafe")]
                                 vectorMapMatrix defaultDiff defaultMid)))])
              (JStr tid))] /\
     oldDOFValues (world r) !! "FB" = oldDOFValues w !! "FB" /\
     oldDOFValues (world r) !! "strafe" = oldDOFValues w !! "strafe" /\
     oldDOFValues (world r) !! "turn" = Some half) /\
  (forall (v : jsval) (w : World) (k : string),
     k <> "depth" ->
     oldDOFValues (world (setMotor (JObj [("depth", v)]) w)) !! k = oldDOFValues w !! k /\
     pulses (world (setMotor (JObj [("depth", v)]) w)) = pulses w).
Proof.
  split; [|split].
  - intros data fromController k w Habsent. by apply steady_setMotors.
  - intros type tid fromController w socket Hclient r.
    assert (Hold : forall k, k <> "turn" ->
                     oldDOFValues (world r) !! k = oldDOFValues w !! k).
    { intros k Hk. apply steady_setMotors. intros b Hb.
      vm_compute in Hb. injection Hb as Hb. subst b. simpl.
      rewrite not_elem_of_cons. split; [done|apply not_elem_of_nil]. }
    repeat split; [| by apply Hold | by apply Hold |].
    + subst r. unfold setMotors, respondTo, sendToken, pick, token, mapM.
      unfold_monad. unfold propOf, ownsOf. simpl.
      rewrite mapMFrom_setChannel. simpl.
      destruct (debug w); simpl; by rewrite Hclient.
    + subst r. unfold setMotors, respondTo, sendToken, pick, token, mapM.
      unfold_monad. unfold propOf, ownsOf. simpl.
      rewrite mapMFrom_setChannel. simpl.
      destruct (debug w); simpl; rewrite Hclient; simpl; apply lookup_insert_eq.
  - intros v w k Hk. split; [|apply setMotor_depth_writes_no_pulse].
    apply steady_setMotors. intros b Hb.
    vm_compute in Hb. injection Hb as Hb. subst b. simpl.
      rewrite not_elem_of_cons. split; [done|apply not_elem_of_nil].
Qed.

#[local] Transparent calcMotorValues.

(** ** Framing and dispatch *)

Lemma bind_noop {A B : Type} (m : M A) (f : A -> M B) (a : A) (w : World) (evs : list event) :
  m w = (Ret a, w, evs) -> bind m f w = after evs (f a w).
Proof.
  intros H. unfold bind, after, result, world, trace. rewrite H.
  by destruct (f a w) as [[r w2] evs2].
Qed.

Lemma filter_no_listener (key : string) (listeners : list listener) :
  key ∉ map (fun l : listener => toString l.1) listeners ->
  filter (fun l : listener => toString l.1 = key) listeners = [].
Proof.
  induction listeners as [|l listeners IH]; intros Hkey; [done|].
  simpl in Hkey. apply not_elem_of_cons in Hkey as [Hne Hkey].
  rewrite filter_cons_False by congruence. by apply IH.
Qed.

Lemma emit_undefined (datum : jsval) :
  "undefined" ∉ registeredKeys ->
  emit tokenTypeEmitter JUndefined datum = ret tt.
Proof.
  intros Hkeys. unfold emit. change (toString JUndefined) with "undefined".
  by rewrite (filter_no_listener _ _ Hkeys).
Qed.

#[local] Opaque emit.

(** The sentinel of a failed parse has no [type]; its event is emitted
    under the key of [undefined], where nobody listens. *)
Lemma onDatum_malformed (bad : string) (w : World) :
  parseJSON bad = None ->
  "undefined" ∉ registeredKeys ->
  onDatum bad w = (Ret tt, w, parseErrorTrace).
Proof.
  intros Hparse Hkeys. unfold onDatum. rewrite Hparse.
  unfold_monad. unfold propOf. simpl.
  by rewrite (emit_undefined _ Hkeys).
Qed.

#[local] Transparent emit.

Lemma forEach_skip_noop {A : Type} (f : A -> M unit) (x : A) (evs : list event) :
  (forall w, f x w = (Ret tt, w, evs)) ->
  forall (pre post : list A) (w : World),
    result (forEach f (pre ++ x :: post) w) = result (forEach f (pre ++ post) w) /\
    world (forEach f (pre ++ x :: post) w) = world (forEach f (pre ++ post) w).
Proof.
  intros Hnoop pre post. induction pre as [|y pre IH]; intros w; simpl.
  - rewrite (bind_noop _ _ tt w evs) by apply Hnoop. done.
  - unfold bind, result, world in *.
    destruct (f y w) as [[[[]|e] w1] evs1]; [|done].
    specialize (IH w1).
    destruct (forEach f (pre ++ x :: post) w1) as [[r2 w2] evs2].
    by destruct (forEach f (pre ++ post) w1) as [[r3 w3] evs3].
Qed.

(** C6. A text that does not parse sends nothing and dispatches nothing:
    handling it returns normally with the state untouched, leaving two
    log lines.  The texts around it in the chunk are handled as if it
    were not there, and a well-formed text right after it is dispatched. *)
Theorem malformed_text_is_isolated (bad : string) :
  parseJSON bad = None ->
  "undefined" ∉ registeredKeys ->
  (forall w, onDatum bad w = (Ret tt, w, parseErrorTrace)) /\
  (forall (data : string) (pre post : list string) (w : World),
     tokenTexts data = pre ++ bad :: post ->
     result (onClientData data w) = result (forEach onDatum (pre ++ post) w) /\
     world (onClientData data w) = world (forEach onDatum (pre ++ post) w)) /\
  (forall (good : string) (w : World),
     forEach onDatum [bad; good] w = after parseErrorTrace (onDatum good w)).
Proof.
  intros Hparse Hkeys.
  assert (Hbad : forall w, onDatum bad w = (Ret tt, w, parseErrorTrace))
    by (intros w; by apply onDatum_malformed).
  split; [exact Hbad|]. split.
  - intros data pre post w Htexts. unfold onClientData. rewrite Htexts.
    by apply forEach_skip_noop with parseErrorTrace.
  - intros good w. simpl.
    rewrite (bind_noop _ _ tt w parseErrorTrace) by apply Hbad.
    f_equal. unfold bind, ret.
    destruct (onDatum good w) as [[[[]|e] w1] evs1]; simpl; [|done].
    by rewrite app_nil_r.
Qed.

(** ** PID gains *)

Lemma depthCorrection_controlLaw (target reading : jsval) :
  depthCorrection target reading = controlLaw (toNumber target) (toNumber reading).
Proof.
  unfold depthCorrection, controlLaw, clamp.
  destruct (jsdiv (jssub (toNumber target) (toNumber reading)) (nz 30)) as [x|]; [|done].
  unfold jsmax, jsmin, jsgt, nz.
  destruct (Qcgtb (Qc_of_Z (-1)) x) eqn:Hlow; destruct (Qcgtb x (Qc_of_Z (-1))) eqn:Hlow'.
  - apply Qcgtb_true in Hlow, Hlow'. destruct (Qclt_not_le _ _ Hlow). by apply Qclt_le_weak.
  - by replace (Qcgtb (Qc_of_Z (-1)) (Qc_of_Z 1)) with false.
  - by destruct (Qcgtb x (Qc_of_Z 1)).
  - apply Qcgtb_false in Hlow, Hlow'.
    assert (Hx : x = Qc_of_Z (-1)) by (by apply Qcle_antisym).
    subst x. reflexivity.
Qed.

(** C7, amended. The response to a tune command reports the gains as
    they are stored once the command is handled.  A correction cycle
    commands, for the depth axis, the opposite of
    [clamp((targetPressure - currentPressure) / 30, -1, 1)]; and it
    does the same thing whatever the three stored gains are, none of
    them takes part in the correction. *)
Theorem tune_reports_gains_and_cycle_applies_fixed_law :
  (forall (data headers tid : jsval) (w : World) (socket : nat),
     propOf data "headers" = Ret headers ->
     propOf headers "transactionID" = Ret tid ->
     client w = Some socket ->
     result (tunePIDLoop data w) = Ret tt ->
     last (written (world (tunePIDLoop data w)))
     = Some (socket,
             mkResponse (JObj [("zKp", zKp (world (tunePIDLoop data w)));
                               ("zKi", zKi (world (tunePIDLoop data w)));
                               ("zKd", zKd (world (tunePIDLoop data w)))])
                        tid)) /\
  (forall (target reading : jsval) (w : World) (socket : nat),
     client w = Some socket ->
     result (depthLoopResume target reading w) = Ret tt /\
     oldDOFValues (world (depthLoopResume target reading w)) !! "depth"
     = Some (JNum (jsneg (controlLaw (toNumber target) (toNumber reading))))) /\
  (forall (target reading kp ki kd : jsval) (w : World),
     depthLoopResume target reading (setGains kp ki kd w)
     = (result (depthLoopResume target reading w),
        setGains kp ki kd (world (depthLoopResume target reading w)),
        trace (depthLoopResume target reading w))).
Proof.
  split; [|split].
  - intros data headers tid w socket Hh Ht Hc.
    unfold tunePIDLoop, respondTo, sendToken. unfold_monad. unfold result, world.
    simpl. rewrite Hh. simpl. rewrite Ht. simpl.
    repeat match goal with
           | |- context [match ownsOf ?v ?k with _ => _ end] =>
               destruct (ownsOf v k) as [[|]|]; simpl
           | |- context [match propOf ?v ?k with _ => _ end] =>
               destruct (propOf v k); simpl
           end;
      rewrite ?Hc; simpl; try done; intros _; apply last_snoc.
  - intros target reading w socket Hc. rewrite <- depthCorrection_controlLaw.
    unfold depthLoopResume. generalize (depthCorrection target reading). intros dofValue.
    unfold setMotor, setMotors, respondTo, sendToken.
    unfold_monad. unfold propOf, ownsOf, result, world. simpl.
    destruct (truthy (depthLockToggle w)); simpl; rewrite Hc; simpl;
      (split; [done|apply lookup_insert_eq]).
  - intros target reading kp ki kd w.
    unfold depthLoopResume, setMotor, setMotors, respondTo, sendToken.
    unfold_monad. unfold propOf, ownsOf, result, world, trace. simpl.
    destruct (truthy (depthLockToggle w)); simpl; by destruct (client w).
Qed.

End Properties.

(** * binary64 rounds faithfully

    The kernel specifies its floats by the functions of [SpecFloat].
    What follows derives, from these functions, that an operation on
    finite operands returns a finite number between any two finite
    numbers that enclose the exact result. *)

Section Faithful64.

Import SpecFloat Binary64.

Local Open Scope Z_scope.
Local Open Scope Q_scope.

(** ** Powers of two *)

Lemma pow2_pos (e : Z) : 0 < pow2 e.
Proof. apply Qpower_0_lt. reflexivity. Qed.

Lemma pow2_add (a b : Z) : pow2 (a + b) == pow2 a * pow2 b.
Proof. apply Qpower_plus. discriminate. Qed.

Lemma pow2_succ (e : Z) : pow2 (e + 1) == 2 * pow2 e.
Proof. rewrite pow2_add. unfold pow2 at 2. simpl. ring. Qed.

Lemma pow2_le (a b : Z) : (a <= b)%Z -> pow2 a <= pow2 b.
Proof. intros H. apply Qpower_le_compat_l; [exact H|discriminate]. Qed.

Lemma pow2_lt (a b : Z) : (a < b)%Z -> pow2 a < pow2 b.
Proof. intros H. apply Qpower_lt_compat_l; [exact H|reflexivity]. Qed.

Lemma pow2_inject (n : Z) : (0 <= n)%Z -> pow2 n == inject_Z (2 ^ n).
Proof. intros H. unfold pow2. by rewrite Zpower_Qpower. Qed.

Lemma F2Q_shift (m e k : Z) : (0 <= k)%Z -> F2Q (m * 2 ^ k) e == F2Q m (e + k).
Proof.
  intros Hk. unfold F2Q. rewrite inject_Z_mult, pow2_add, (pow2_inject k Hk). ring.
Qed.

Lemma F2Q_le (m n e : Z) : (m <= n)%Z -> F2Q m e <= F2Q n e.
Proof.
  intros H. unfold F2Q. apply Qmult_le_compat_r.
  - by rewrite <- Zle_Qle.
  - apply Qlt_le_weak, pow2_pos.
Qed.

Lemma F2Q_lt (m n e : Z) : (m < n)%Z -> F2Q m e < F2Q n e.
Proof.
  intros H. unfold F2Q. apply Qmult_lt_compat_r; [apply pow2_pos|]. by rewrite <- Zlt_Qlt.
Qed.

Lemma F2Q_lt_inv (m n e : Z) : F2Q m e < F2Q n e -> (m < n)%Z.
Proof.
  intros H. destruct (Z_lt_le_dec m n) as [|Hle]; [done|].
  apply (F2Q_le _ _ e) in Hle. lra.
Qed.

Lemma F2Q_le_inv (m n e : Z) : F2Q m e <= F2Q n e -> (m <= n)%Z.
Proof.
  intros H. destruct (Z_le_gt_dec m n) as [|Hgt]; [done|].
  apply Z.gt_lt, (F2Q_lt _ _ e) in Hgt. lra.
Qed.

(** ** Digits *)

Lemma Zpow2_split (d : Z) : (0 < d)%Z -> (2 ^ d = 2 * 2 ^ (d - 1))%Z.
Proof.
  intros H. replace d with (Z.succ (d - 1)) at 1 by lia. apply Z.pow_succ_r. lia.
Qed.

Lemma digits2_pos_bounds (p : positive) :
  (2 ^ (Zpos (digits2_pos p) - 1) <= Zpos p < 2 ^ Zpos (digits2_pos p))%Z.
Proof.
  induction p as [p IH|p IH|]; simpl digits2_pos.
  - rewrite Pos2Z.inj_succ. change (Zpos p~1) with (2 * Zpos p + 1)%Z.
    replace (Z.succ (Zpos (digits2_pos p)) - 1)%Z with (Zpos (digits2_pos p)) by lia.
    rewrite Z.pow_succ_r by lia. rewrite (Zpow2_split (Zpos (digits2_pos p))) in * by lia. lia.
  - rewrite Pos2Z.inj_succ. change (Zpos p~0) with (2 * Zpos p)%Z.
    replace (Z.succ (Zpos (digits2_pos p)) - 1)%Z with (Zpos (digits2_pos p)) by lia.
    rewrite Z.pow_succ_r by lia. rewrite (Zpow2_split (Zpos (digits2_pos p))) in * by lia. lia.
  - simpl. lia.
Qed.

Lemma Zdigits2_bounds (m : Z) :
  (0 < m)%Z -> (2 ^ (Zdigits2 m - 1) <= m < 2 ^ Zdigits2 m)%Z.
Proof. destruct m as [|p|p]; try lia. intros _. apply digits2_pos_bounds. Qed.

Lemma Zdigits2_nonneg (m : Z) : (0 <= m)%Z -> (0 <= Zdigits2 m)%Z.
Proof. destruct m; simpl; lia. Qed.

Lemma Zdigits2_pos (m : Z) : (0 < m)%Z -> (0 < Zdigits2 m)%Z.
Proof. destruct m; simpl; lia. Qed.

(** The number of digits is determined by the bounds. *)
Lemma Zdigits2_unique (m d : Z) :
  (2 ^ (d - 1) <= m < 2 ^ d)%Z -> (0 < m)%Z -> Zdigits2 m = d.
Proof.
  intros [Hlo Hhi] Hm. pose proof (Zdigits2_bounds m Hm) as [Hlo' Hhi'].
  pose proof (Zdigits2_pos m Hm) as Hpos.
  assert (Hd : (0 < d)%Z).
  { destruct (Z_lt_le_dec 0 d) as [|Hle]; [done|].
    destruct (Z.eq_dec d 0%Z) as [->|Hne]; [simpl in Hhi; lia|].
    rewrite (Z.pow_neg_r 2 d) in Hhi by lia. lia. }
  destruct (Z.lt_trichotomy (Zdigits2 m) d) as [Hlt|[Heq|Hgt]]; [|done|].
  - assert (2 ^ Zdigits2 m <= 2 ^ (d - 1))%Z by (apply Z.pow_le_mono_r; lia). lia.
  - assert (2 ^ d <= 2 ^ (Zdigits2 m - 1))%Z by (apply Z.pow_le_mono_r; lia). lia.
Qed.

(** ** Shifting right *)

Lemma inject_Z_xO (p : positive) : inject_Z (Zpos p~0) == 2 * inject_Z (Zpos p).
Proof. change (Zpos p~0) with (2 * Zpos p)%Z. by rewrite inject_Z_mult. Qed.

Lemma inject_Z_xI (p : positive) : inject_Z (Zpos p~1) == 2 * inject_Z (Zpos p) + 1.
Proof.
  change (Zpos p~1) with (2 * Zpos p + 1)%Z. by rewrite inject_Z_plus, inject_Z_mult.
Qed.

Lemma shr_1_stands (mrs : shr_record) (e : Z) (v : Q) :
  stands mrs e v -> stands (shr_1 mrs) (e + 1) v.
Proof.
  destruct mrs as [m r s]. unfold stands, exact_flags, F2Q. simpl.
  intros (Hm & Hlo & Hhi & Hex).
  pose proof (pow2_pos e) as Hpos. pose proof (pow2_succ e) as Hsucc.
  destruct m as [|[p|p|]|p]; simpl; try lia.
  - change (inject_Z (0 + 1)) with 1 in *. change (inject_Z 0) with 0 in *. rewrite Hsucc.
    split; [lia|]. split; [lra|]. split; [lra|]. split.
    + intros [_ Hrs]. apply orb_false_iff in Hrs. apply Hex in Hrs. lra.
    + intros Heq. split; [done|]. apply orb_false_iff, Hex. lra.
  - rewrite inject_Z_plus in *. rewrite inject_Z_xI in *. rewrite Hsucc.
    change (inject_Z 1) with 1 in *.
    split; [lia|]. split; [lra|]. split; [lra|].
    split; [intros [? _]; discriminate|]. intros Heq. lra.
  - rewrite inject_Z_plus in *. rewrite inject_Z_xO in *. rewrite Hsucc.
    change (inject_Z 1) with 1 in *.
    split; [lia|]. split; [lra|]. split; [lra|]. split.
    + intros [_ Hrs]. apply orb_false_iff in Hrs. apply Hex in Hrs. lra.
    + intros Heq. split; [done|]. apply orb_false_iff, Hex. lra.
  - rewrite Hsucc. change (inject_Z (1 + 1)) with 2 in Hhi.
    change (inject_Z 1) with 1 in *. change (inject_Z (0 + 1)) with 1.
    change (inject_Z 0) with 0.
    split; [lia|]. split; [lra|]. split; [lra|].
    split; [intros [? _]; discriminate|]. intros Heq. lra.
Qed.

Lemma iter_shr_1_stands (p : positive) : forall (mrs : shr_record) (e : Z) (v : Q),
  stands mrs e v -> stands (iter_pos shr_1 p mrs) (e + Zpos p) v.
Proof.
  induction p as [p IH|p IH|]; intros mrs e v H; simpl.
  - replace (e + Zpos p~1)%Z with (e + 1 + Zpos p + Zpos p)%Z by lia.
    by apply IH, IH, shr_1_stands.
  - replace (e + Zpos p~0)%Z with (e + Zpos p + Zpos p)%Z by lia.
    by apply IH, IH.
  - by apply shr_1_stands.
Qed.

Lemma shr_stands (mrs : shr_record) (e n : Z) (v : Q) :
  stands mrs e v ->
  stands (fst (shr mrs e n)) (snd (shr mrs e n)) v /\
  snd (shr mrs e n) = (e + Z.max n 0)%Z.
Proof.
  intros H. destruct n as [|p|p]; simpl.
  - split; [done|lia].
  - split; [by apply iter_shr_1_stands|lia].
  - split; [done|lia].
Qed.

Lemma record_of_loc_stands (m e : Z) (l : location) (v : Q) :
  (0 <= m)%Z -> F2Q m e <= v -> v < F2Q (m + 1) e ->
  (l = loc_Exact <-> v == F2Q m e) ->
  stands (shr_record_of_loc m l) e v.
Proof.
  intros Hm Hlo Hhi Hex. unfold stands, exact_flags.
  destruct l as [|[| |]]; simpl; (split; [done|]); (split; [done|]); (split; [done|]).
  - split; [intros _; by apply Hex|done].
  - split; [intros [? ?]; discriminate|]. intros Heq. apply Hex in Heq. discriminate.
  - split; [intros [? ?]; discriminate|]. intros Heq. apply Hex in Heq. discriminate.
  - split; [intros [? ?]; discriminate|]. intros Heq. apply Hex in Heq. discriminate.
Qed.

(** ** Numbers of the format *)

Lemma fexp_spec (x : Z) : fexp prec emax x = Z.max (x - 53) (-1074).
Proof. reflexivity. Qed.

Lemma bounded_spec (m : positive) (e : Z) :
  bounded prec emax m e = true ->
  e = Z.max (Zpos (digits2_pos m) + e - 53) (-1074) /\ (e <= 971)%Z.
Proof.
  unfold bounded, canonical_mantissa. rewrite fexp_spec. intros H.
  apply andb_true_iff in H as [Hc Hb]. apply Z.eqb_eq in Hc. apply Z.leb_le in Hb.
  split; [by symmetry|exact Hb].
Qed.

Lemma pow2_F2Q (k e : Z) : (0 <= k)%Z -> pow2 (k + e) == F2Q (2 ^ k) e.
Proof. intros Hk. unfold F2Q. by rewrite pow2_add, (pow2_inject k Hk). Qed.

Lemma bounded_mantissa (m : positive) (e : Z) :
  bounded prec emax m e = true -> (Zpos m < 2 ^ 53)%Z.
Proof.
  intros H. apply bounded_spec in H as [He _].
  pose proof (digits2_pos_bounds m) as [_ Hhi].
  assert (Hd : (Zpos (digits2_pos m) <= 53)%Z) by lia.
  assert (2 ^ Zpos (digits2_pos m) <= 2 ^ 53)%Z by (apply Z.pow_le_mono_r; lia). lia.
Qed.

Lemma representable_below_top (h : Q) : representable h -> h < pow2 1024.
Proof.
  intros [H0|(m & e & Hb & Hh)].
  - rewrite H0. apply pow2_pos.
  - rewrite Hh. pose proof (bounded_mantissa m e Hb) as Hm.
    apply bounded_spec in Hb as [_ He].
    apply Qlt_le_trans with (F2Q (2 ^ 53) e); [by apply F2Q_lt|].
    rewrite <- pow2_F2Q by lia. apply pow2_le. lia.
Qed.

(** Between [m * 2^e] and [(m + 1) * 2^e], for [e] the exponent of the
    format at this magnitude, there is no number of the format. *)
Lemma no_number_between (m e : Z) (h : Q) :
  representable h ->
  (0 <= m)%Z -> (-1074 <= e)%Z -> ((-1074 < e)%Z -> (2 ^ 52 <= m)%Z) ->
  F2Q m e < h -> F2Q (m + 1) e <= h.
Proof.
  intros [H0|(mh & eh & Hb & Hh)] Hm He Hnorm Hlt.
  - rewrite H0 in Hlt. assert (F2Q 0 e <= F2Q m e) by (by apply F2Q_le).
    unfold F2Q in H at 1. change (inject_Z 0) with 0 in H. lra.
  - rewrite Hh in *. pose proof (bounded_mantissa mh eh Hb) as Hmh.
    apply bounded_spec in Hb as [Heh _].
    destruct (Z_le_gt_dec e eh) as [Hle|Hgt].
    + assert (Hshift : F2Q (Zpos mh) eh == F2Q (Zpos mh * 2 ^ (eh - e)) e).
      { rewrite F2Q_shift by lia. by replace (e + (eh - e))%Z with eh by lia. }
      rewrite Hshift in *. apply F2Q_lt_inv in Hlt. apply F2Q_le. lia.
    + assert (Hm52 : (2 ^ 52 <= m)%Z) by (apply Hnorm; lia).
      exfalso. apply (Qlt_irrefl (F2Q m e)).
      apply Qlt_le_trans with (F2Q (Zpos mh) eh); [done|].
      apply Qle_trans with (F2Q (2 ^ 53) eh); [apply F2Q_le; lia|].
      apply Qle_trans with (F2Q (2 ^ 52) e); [|by apply F2Q_le].
      rewrite <- !pow2_F2Q by lia. apply pow2_le. lia.
Qed.

(** ** Rounding *)

Lemma Zdigits2_le (m k : Z) : (0 <= k)%Z -> (0 <= m < 2 ^ k)%Z -> (Zdigits2 m <= k)%Z.
Proof.
  intros Hk [Hm Hlt]. destruct (Z.eq_dec m 0%Z) as [->|Hne]; [simpl; lia|].
  pose proof (Zdigits2_bounds m ltac:(lia)) as [Hlo _].
  destruct (Z_le_gt_dec (Zdigits2 m) k) as [|Hgt]; [done|].
  assert (2 ^ k <= 2 ^ (Zdigits2 m - 1))%Z by (apply Z.pow_le_mono_r; lia). lia.
Qed.

Lemma succ_le_pow_digits (m : Z) : (0 <= m)%Z -> (m + 1 <= 2 ^ Zdigits2 m)%Z.
Proof.
  intros Hm. destruct (Z.eq_dec m 0%Z) as [->|Hne]; [simpl; lia|].
  pose proof (Zdigits2_bounds m ltac:(lia)). lia.
Qed.

Lemma round_nearest_even_cases (mrs : shr_record) :
  round_nearest_even (shr_m mrs) (loc_of_shr_record mrs) = shr_m mrs \/
  (round_nearest_even (shr_m mrs) (loc_of_shr_record mrs) = (shr_m mrs + 1)%Z /\
   ~ exact_flags mrs).
Proof.
  destruct mrs as [m [|] [|]]; unfold exact_flags; simpl.
  - right. split; [done|]. intros [? _]. discriminate.
  - destruct (Z.even m); [by left|]. right. split; [done|]. intros [? _]. discriminate.
  - by left.
  - by left.
Qed.

Lemma shr_top (e : Z) :
  shr (shr_record_of_loc 9007199254740992 loc_Exact) e 1
  = ({| shr_m := 4503599627370496; shr_r := false; shr_s := false |}, (e + 1)%Z).
Proof. reflexivity. Qed.

Lemma F2Q_top (e : Z) : F2Q 4503599627370496 (e + 1) == F2Q 9007199254740992 e.
Proof.
  unfold F2Q. rewrite pow2_succ.
  change (inject_Z 9007199254740992) with (2 * inject_Z 4503599627370496). ring.
Qed.

(** The value [v], given by its integer part [mx] at exponent [ex] and
    the location [lx] of the rest, is rounded to a finite number that
    lies between any two numbers of the format that enclose [v]. *)
Theorem binary_round_aux_between (sx : bool) (mx ex : Z) (lx : location) (v lo hi : Q) :
  (0 <= mx)%Z ->
  F2Q mx ex <= v -> v < F2Q (mx + 1) ex ->
  (lx = loc_Exact <-> v == F2Q mx ex) ->
  (ex <= fexp prec emax (Zdigits2 mx + ex))%Z ->
  representable lo -> representable hi -> lo <= v -> v <= hi ->
  exists R, magnitude_of (binary_round_aux prec emax sx mx ex lx) sx R /\ lo <= R /\ R <= hi.
Proof.
  intros Hmx Hvlo Hvhi Hlx Hex Hlo Hhi Hlov Hvhi'.
  set (D := (Zdigits2 mx + ex)%Z) in *.
  unfold binary_round_aux.
  (* the first shift *)
  assert (Hfirst : stands (shr_fexp prec emax mx ex lx).1 (shr_fexp prec emax mx ex lx).2 v /\
                   (shr_fexp prec emax mx ex lx).2
                   = (ex + Z.max (fexp prec emax D - ex) 0)%Z)
    by (by apply shr_stands, record_of_loc_stands).
  destruct Hfirst as [Hst He1].
  destruct (shr_fexp prec emax mx ex lx) as [mrs1 e1] eqn:Hshr1. simpl in Hst, He1.
  assert (He1' : e1 = fexp prec emax D) by lia. clear He1.
  rewrite fexp_spec in He1'.
  destruct Hst as (Hm1 & Hv1lo & Hv1hi & Hflags).
  set (m1 := shr_m mrs1) in *.
  assert (HvD : v < pow2 D).
  { apply Qlt_le_trans with (F2Q (mx + 1) ex); [done|].
    unfold D. rewrite Z.add_comm. rewrite pow2_F2Q by (by apply Zdigits2_nonneg).
    apply F2Q_le. rewrite Z.add_comm. by apply succ_le_pow_digits. }
  assert (Hnorm : (-1074 < e1)%Z -> (2 ^ 52 <= m1)%Z).
  { intros Hgt. assert (He1D : e1 = (D - 53)%Z) by lia.
    assert (Hmxpos : (0 < mx)%Z).
    { destruct (Z.eq_dec mx 0%Z) as [->|]; [|lia]. unfold D in *. simpl in *.
      rewrite fexp_spec in Hex. lia. }
    assert (HvD1 : pow2 (D - 1) <= v).
    { apply Qle_trans with (F2Q mx ex); [|done].
      replace (D - 1)%Z with (Zdigits2 mx - 1 + ex)%Z by (unfold D; lia).
      rewrite pow2_F2Q by (pose proof (Zdigits2_pos mx Hmxpos); lia).
      apply F2Q_le. by apply Zdigits2_bounds. }
    assert (Hlt : F2Q (2 ^ 52) e1 < F2Q (m1 + 1) e1).
    { rewrite <- pow2_F2Q by lia. replace (52 + e1)%Z with (D - 1)%Z by lia.
      by apply Qle_lt_trans with v. }
    apply F2Q_lt_inv in Hlt. lia. }
  assert (Hm1top : (m1 < 2 ^ 53)%Z).
  { apply (F2Q_lt_inv _ _ e1). apply Qle_lt_trans with v; [done|].
    apply Qlt_le_trans with (pow2 D); [done|].
    rewrite <- pow2_F2Q by lia. apply pow2_le. lia. }
  (* the choice *)
  set (m2 := round_nearest_even m1 (loc_of_shr_record mrs1)).
  assert (Hm2 : m2 = m1 \/ (m2 = (m1 + 1)%Z /\ ~ exact_flags mrs1))
    by apply round_nearest_even_cases.
  assert (HR : lo <= F2Q m2 e1 /\ F2Q m2 e1 <= hi).
  { assert (Hbelow : lo <= F2Q m1 e1).
    { destruct (Qlt_le_dec (F2Q m1 e1) lo) as [Hlt|]; [|done].
      pose proof (no_number_between m1 e1 lo Hlo Hm1 ltac:(lia) Hnorm Hlt). lra. }
    destruct Hm2 as [->|[-> Hinexact]].
    - split; [done|]. by apply Qle_trans with v.
    - split; [apply Qle_trans with (F2Q m1 e1); [done|apply F2Q_le; lia]|].
      apply (no_number_between m1 e1 hi Hhi Hm1 ltac:(lia) Hnorm).
      apply Qlt_le_trans with v; [|done].
      destruct (Qle_lt_or_eq _ _ Hv1lo) as [|Heq]; [done|].
      destruct Hinexact. apply Hflags. by symmetry. }
  assert (Hm2range : (0 <= m2 <= 2 ^ 53)%Z) by (destruct Hm2 as [->|[-> _]]; lia).
  (* the second shift *)
  assert (Hsecond : exists m3 e3,
            shr_fexp prec emax m2 e1 loc_Exact = (m3, e3) /\
            (0 <= shr_m m3)%Z /\ F2Q (shr_m m3) e3 == F2Q m2 e1 /\
            ((971 < e3)%Z -> (2 ^ 52 <= shr_m m3)%Z)).
  { unfold shr_fexp. rewrite fexp_spec.
    destruct (Z.eq_dec m2 (2 ^ 53)%Z) as [Htop|Hne].
    - rewrite Htop. change (Zdigits2 (2 ^ 53)) with 54%Z.
      replace (Z.max (54 + e1 - 53) (-1074) - e1)%Z with 1%Z by lia.
      change (2 ^ 53)%Z with 9007199254740992%Z. rewrite shr_top.
      eexists _, _. split; [reflexivity|]. simpl shr_m. split; [lia|]. split; [|lia].
      apply F2Q_top.
    - assert (Hdig : (Zdigits2 m2 <= 53)%Z) by (apply Zdigits2_le; lia).
      assert (Hn : (Z.max (Zdigits2 m2 + e1 - 53) (-1074) - e1 <= 0)%Z) by lia.
      destruct (Z.max (Zdigits2 m2 + e1 - 53) (-1074) - e1)%Z eqn:Hshift; try lia;
        (eexists _, _; split; [reflexivity|]; simpl shr_m; split; [lia|]; split; [done|]);
        intros Hbig; destruct Hm2 as [->|[-> _]];
        pose proof (Hnorm ltac:(lia)); lia. }
  destruct Hsecond as (mrs3 & e3 & -> & Hm3 & Hval3 & Hbig).
  (* the result *)
  exists (F2Q m2 e1). split; [|done].
  destruct (shr_m mrs3) as [|m|m] eqn:Hm3eq; [| |lia].
  - simpl. split; [done|]. rewrite <- Hval3. unfold F2Q. change (inject_Z 0) with 0. ring.
  - destruct (Z.leb_spec e3 (emax - prec)) as [_|Hover].
    + simpl. split; [done|]. by rewrite <- Hval3.
    + exfalso. change (emax - prec)%Z with 971%Z in Hover.
      pose proof (representable_below_top hi Hhi) as Htop.
      apply (Qlt_irrefl hi). apply Qlt_le_trans with (pow2 1024); [done|].
      apply Qle_trans with (F2Q m2 e1); [|by destruct HR].
      rewrite <- Hval3. apply Qle_trans with (F2Q (2 ^ 52) e3); [|apply F2Q_le; lia].
      rewrite <- pow2_F2Q by lia. apply pow2_le. lia.
Qed.

(** ** Signed values *)

Lemma F2Q_pos (m : positive) (e : Z) : 0 < F2Q (Zpos m) e.
Proof.
  unfold F2Q. apply Qmult_lt_0_compat; [|apply pow2_pos].
  change 0 with (inject_Z 0). rewrite <- Zlt_Qlt. lia.
Qed.

Lemma F2Q_opp (m e : Z) : F2Q (- m) e == - F2Q m e.
Proof. unfold F2Q. rewrite inject_Z_opp. ring. Qed.

Lemma F2Q_neg (m : positive) (e : Z) : F2Q (Zneg m) e == - F2Q (Zpos m) e.
Proof. change (Zneg m) with (- Zpos m)%Z. apply F2Q_opp. Qed.

Lemma F2Q_0 (e : Z) : F2Q 0 e == 0.
Proof. unfold F2Q. change (inject_Z 0) with 0. ring. Qed.

Lemma valid_nonneg (f : spec_float) (h : Q) :
  valid f -> SFval f = Some h -> 0 <= h -> representable h.
Proof.
  destruct f as [s|s| |[|] m e]; simpl; intros Hv [= <-] Hpos; try discriminate;
    simpl cond_Zopp in *.
  - by left.
  - rewrite F2Q_opp in Hpos. pose proof (F2Q_pos m e). lra.
  - right. by exists m, e.
Qed.

Lemma valid_nonpos (f : spec_float) (h : Q) :
  valid f -> SFval f = Some h -> h <= 0 -> representable (- h).
Proof.
  destruct f as [s|s| |[|] m e]; simpl; intros Hv [= <-] Hneg; try discriminate;
    simpl cond_Zopp in *.
  - left. ring.
  - right. exists m, e. split; [done|]. rewrite F2Q_opp. ring.
  - pose proof (F2Q_pos m e). lra.
Qed.

Lemma representable_0 : representable 0.
Proof. by left. Qed.

(** The signed form of [binary_round_aux_between]: the exact result is
    [v] with the sign [sx]. *)
Lemma binary_round_aux_signed (sx : bool) (mx ex : Z) (lx : location) (v : Q)
    (fl fh : spec_float) (lo hi : Q) :
  (0 <= mx)%Z ->
  F2Q mx ex <= v -> v < F2Q (mx + 1) ex ->
  (lx = loc_Exact <-> v == F2Q mx ex) ->
  (ex <= fexp prec emax (Zdigits2 mx + ex))%Z ->
  valid fl -> SFval fl = Some lo -> valid fh -> SFval fh = Some hi ->
  lo <= (if sx then - v else v) -> (if sx then - v else v) <= hi ->
  exists z, SFval (binary_round_aux prec emax sx mx ex lx) = Some z /\ lo <= z /\ z <= hi.
Proof.
  intros Hmx Hvlo Hvhi Hlx Hex Hfl Hlo Hfh Hhi Hlov Hvhi'.
  assert (Hv0 : 0 <= v).
  { apply Qle_trans with (F2Q mx ex); [|done].
    rewrite <- (F2Q_0 ex). by apply F2Q_le. }
  destruct sx.
  - (* negative *)
    assert (Hup : representable (- lo)) by (apply (valid_nonpos fl); [done|done|lra]).
    destruct (Qlt_le_dec hi 0) as [Hneg|Hpos].
    + assert (Hdown : representable (- hi)) by (apply (valid_nonpos fh); [done|done|lra]).
      destruct (binary_round_aux_between true mx ex lx v (- hi) (- lo))
        as (R & HR & HRlo & HRhi); try done; try lra.
      destruct (binary_round_aux prec emax true mx ex lx) as [s|s| |s m e]; simpl in *;
        try done; destruct HR as [-> HR].
      * exists 0. split; [done|]. lra.
      * exists (F2Q (Zneg m) e). split; [done|]. rewrite F2Q_neg. lra.
    + destruct (binary_round_aux_between true mx ex lx v 0 (- lo))
        as (R & HR & HRlo & HRhi); try done; try lra; [apply representable_0|].
      destruct (binary_round_aux prec emax true mx ex lx) as [s|s| |s m e]; simpl in *;
        try done; destruct HR as [-> HR].
      * exists 0. split; [done|]. lra.
      * exists (F2Q (Zneg m) e). split; [done|]. rewrite F2Q_neg. lra.
  - (* positive *)
    assert (Hup : representable hi) by (apply (valid_nonneg fh); [done|done|lra]).
    destruct (Qlt_le_dec 0 lo) as [Hpos|Hneg].
    + assert (Hdown : representable lo) by (apply (valid_nonneg fl); [done|done|lra]).
      destruct (binary_round_aux_between false mx ex lx v lo hi)
        as (R & HR & HRlo & HRhi); try done.
      destruct (binary_round_aux prec emax false mx ex lx) as [s|s| |s m e]; simpl in *;
        try done; destruct HR as [-> HR].
      * exists 0. split; [done|]. lra.
      * exists (F2Q (Zpos m) e). split; [done|]. lra.
    + destruct (binary_round_aux_between false mx ex lx v 0 hi)
        as (R & HR & HRlo & HRhi); try done; [apply representable_0|].
      destruct (binary_round_aux prec emax false mx ex lx) as [s|s| |s m e]; simpl in *;
        try done; destruct HR as [-> HR].
      * exists 0. split; [done|]. lra.
      * exists (F2Q (Zpos m) e). split; [done|]. lra.
Qed.

(** ** Multiplication *)

Lemma F2Q_mul (a b ea eb : Z) : F2Q a ea * F2Q b eb == F2Q (a * b) (ea + eb).
Proof. unfold F2Q. rewrite inject_Z_mult, pow2_add. ring. Qed.

Lemma Zdigits2_mul (a b : positive) :
  (Zdigits2 (Zpos a) + Zdigits2 (Zpos b) - 1 <= Zdigits2 (Zpos (a * b)))%Z.
Proof.
  pose proof (Zdigits2_bounds (Zpos a) ltac:(lia)) as [Ha _].
  pose proof (Zdigits2_bounds (Zpos b) ltac:(lia)) as [Hb _].
  pose proof (Zdigits2_bounds (Zpos (a * b)) ltac:(lia)) as [_ Hab].
  pose proof (Zdigits2_pos (Zpos a) ltac:(lia)) as Hda.
  pose proof (Zdigits2_pos (Zpos b) ltac:(lia)) as Hdb.
  set (da := Zdigits2 (Zpos a)) in *. set (db := Zdigits2 (Zpos b)) in *.
  set (dab := Zdigits2 (Zpos (a * b))) in *.
  destruct (Z_le_gt_dec (da + db - 1) dab) as [|Hgt]; [done|]. exfalso.
  assert (H1 : (2 ^ (da - 1) * 2 ^ (db - 1) <= Zpos a * Zpos b)%Z)
    by (apply Z.mul_le_mono_nonneg; lia).
  rewrite <- Z.pow_add_r in H1 by lia.
  assert (H2 : (2 ^ dab <= 2 ^ (da - 1 + (db - 1)))%Z) by (apply Z.pow_le_mono_r; lia).
  rewrite Pos2Z.inj_mul in Hab. lia.
Qed.

Theorem SFmul_between (x y fl fh : spec_float) (vx vy lo hi : Q) :
  valid x -> valid y -> SFval x = Some vx -> SFval y = Some vy ->
  valid fl -> SFval fl = Some lo -> valid fh -> SFval fh = Some hi ->
  lo <= vx * vy -> vx * vy <= hi ->
  exists z, SFval (SFmul prec emax x y) = Some z /\ lo <= z /\ z <= hi.
Proof.
  intros Hx Hy Hvx Hvy Hfl Hlo Hfh Hhi Hl Hh.
  destruct x as [sx|sx| |sx mx ex], y as [sy|sy| |sy my ey]; simpl in Hvx, Hvy;
    try discriminate; injection Hvx as <-; injection Hvy as <-.
  - exists 0. split; [done|]. lra.
  - exists 0. split; [done|]. lra.
  - exists 0. split; [done|]. lra.
  - simpl SFmul.
    apply bounded_spec in Hx as [Hex _]. apply bounded_spec in Hy as [Hey _].
    pose proof (Zdigits2_mul mx my) as Hdig. simpl Zdigits2 in Hdig.
    assert (Hprod : F2Q (cond_Zopp sx (Zpos mx)) ex * F2Q (cond_Zopp sy (Zpos my)) ey
                    == (if xorb sx sy then - F2Q (Zpos (mx * my)) (ex + ey)
                        else F2Q (Zpos (mx * my)) (ex + ey))).
    { rewrite F2Q_mul. destruct sx, sy; simpl cond_Zopp; simpl xorb;
        cbv iota; rewrite Pos2Z.inj_mul, ?Z.mul_opp_l, ?Z.mul_opp_r, ?Z.opp_involutive,
          ?F2Q_opp; reflexivity. }
    rewrite Hprod in Hl, Hh.
    apply (binary_round_aux_signed _ _ _ _ (F2Q (Zpos (mx * my)) (ex + ey)) fl fh);
      try done.
    + apply Qle_refl.
    + apply F2Q_lt. lia.
    + rewrite fexp_spec. simpl Zdigits2. lia.
Qed.

(** ** Addition *)

Lemma iter_xO (m d : positive) : Zpos (Pos.iter xO m d) = (Zpos m * 2 ^ Zpos d)%Z.
Proof.
  induction d as [|d IH] using Pos.peano_ind.
  - simpl. lia.
  - rewrite Pos.iter_succ, Pos2Z.inj_succ, Z.pow_succ_r by lia.
    change (Zpos (Pos.iter xO m d)~0) with (2 * Zpos (Pos.iter xO m d))%Z. lia.
Qed.

Lemma shl_align_spec (mx : positive) (ex ez : Z) :
  F2Q (Zpos (fst (shl_align mx ex ez))) (snd (shl_align mx ex ez)) == F2Q (Zpos mx) ex /\
  snd (shl_align mx ex ez) = Z.min ex ez /\
  (Zdigits2 (Zpos (fst (shl_align mx ex ez))) + snd (shl_align mx ex ez)
   = Zdigits2 (Zpos mx) + ex)%Z.
Proof.
  unfold shl_align. destruct (ez - ex)%Z as [|d|d] eqn:Hd; simpl fst; simpl snd.
  - split; [reflexivity|split; lia].
  - split; [reflexivity|split; lia].
  - assert (Hex : ex = (ez + Zpos d)%Z) by lia.
    split; [|split; [lia|]].
    + rewrite iter_xO, F2Q_shift by lia. by rewrite Hex.
    + rewrite iter_xO.
      pose proof (Zdigits2_bounds (Zpos mx) ltac:(lia)) as [Hlo Hhi].
      pose proof (Zdigits2_pos (Zpos mx) ltac:(lia)) as Hpos.
      set (dx := Zdigits2 (Zpos mx)) in *.
      rewrite (Zdigits2_unique _ (dx + Zpos d)); [lia| |lia].
      replace (dx + Zpos d - 1)%Z with ((dx - 1) + Zpos d)%Z by lia.
      rewrite !Z.pow_add_r by lia. nia.
Qed.

Lemma binary_round_between (sx : bool) (mx : positive) (ex : Z)
    (fl fh : spec_float) (lo hi : Q) :
  valid fl -> SFval fl = Some lo -> valid fh -> SFval fh = Some hi ->
  lo <= F2Q (cond_Zopp sx (Zpos mx)) ex -> F2Q (cond_Zopp sx (Zpos mx)) ex <= hi ->
  exists z, SFval (binary_round prec emax sx mx ex) = Some z /\ lo <= z /\ z <= hi.
Proof.
  intros Hfl Hlo Hfh Hhi Hl Hh. unfold binary_round.
  pose proof (shl_align_spec mx ex (fexp prec emax (Zpos (digits2_pos mx) + ex)))
    as (Hval & Hexp & Hdig).
  destruct (shl_align mx ex (fexp prec emax (Zpos (digits2_pos mx) + ex)))
    as [mz ez]; simpl fst in *; simpl snd in *.
  apply (binary_round_aux_signed _ _ _ _ (F2Q (Zpos mz) ez) fl fh); try done.
  - apply Qle_refl.
  - apply F2Q_lt. lia.
  - rewrite Hdig. simpl Zdigits2. lia.
  - destruct sx; simpl cond_Zopp in Hl; rewrite Hval; [by rewrite F2Q_opp in Hl|done].
  - destruct sx; simpl cond_Zopp in Hh; rewrite Hval; [by rewrite F2Q_opp in Hh|done].
Qed.

Lemma binary_normalize_between (m e : Z) (fl fh : spec_float) (lo hi : Q) :
  valid fl -> SFval fl = Some lo -> valid fh -> SFval fh = Some hi ->
  lo <= F2Q m e -> F2Q m e <= hi ->
  exists z, SFval (binary_normalize prec emax m e false) = Some z /\ lo <= z /\ z <= hi.
Proof.
  intros Hfl Hlo Hfh Hhi Hl Hh. destruct m as [|m|m]; simpl binary_normalize.
  - exists 0. split; [done|]. rewrite F2Q_0 in Hl, Hh. done.
  - by apply (binary_round_between false m e fl fh).
  - by apply (binary_round_between true m e fl fh).
Qed.

Lemma F2Q_add (a b e : Z) : F2Q a e + F2Q b e == F2Q (a + b) e.
Proof. unfold F2Q. rewrite inject_Z_plus. ring. Qed.

Lemma F2Q_cond_Zopp (s : bool) (m e : Z) :
  F2Q (cond_Zopp s m) e == (if s then - F2Q m e else F2Q m e).
Proof. destruct s; simpl; [apply F2Q_opp|reflexivity]. Qed.

Theorem SFadd_between (x y fl fh : spec_float) (vx vy lo hi : Q) :
  valid x -> valid y -> SFval x = Some vx -> SFval y = Some vy ->
  valid fl -> SFval fl = Some lo -> valid fh -> SFval fh = Some hi ->
  lo <= vx + vy -> vx + vy <= hi ->
  exists z, SFval (SFadd prec emax x y) = Some z /\ lo <= z /\ z <= hi.
Proof.
  intros Hx Hy Hvx Hvy Hfl Hlo Hfh Hhi Hl Hh.
  destruct x as [sx|sx| |sx mx ex], y as [sy|sy| |sy my ey]; simpl in Hvx, Hvy;
    try discriminate; injection Hvx as <-; injection Hvy as <-.
  - exists 0. split; [by destruct sx, sy|]. lra.
  - eexists. split; [reflexivity|]. lra.
  - eexists. split; [reflexivity|]. lra.
  - simpl SFadd.
    pose proof (shl_align_spec mx ex (Z.min ex ey)) as (Hxv & Hxe & _).
    pose proof (shl_align_spec my ey (Z.min ex ey)) as (Hyv & Hye & _).
    replace (Z.min ex (Z.min ex ey)) with (Z.min ex ey) in Hxe by lia.
    replace (Z.min ey (Z.min ex ey)) with (Z.min ex ey) in Hye by lia.
    rewrite Hxe in Hxv. rewrite Hye in Hyv.
    apply (binary_normalize_between _ _ fl fh); try done.
    + rewrite <- F2Q_add. destruct sx, sy; simpl cond_Zopp in *;
        rewrite ?F2Q_opp in *; rewrite Hxv, Hyv; done.
    + rewrite <- F2Q_add. destruct sx, sy; simpl cond_Zopp in *;
        rewrite ?F2Q_opp in *; rewrite Hxv, Hyv; done.
Qed.

(** ** Division *)

Lemma F2Q_scale (m e k : Z) : F2Q m e * inject_Z k == F2Q (m * k) e.
Proof. unfold F2Q. rewrite inject_Z_mult. ring. Qed.

Lemma F2Q_inj (m n e : Z) : F2Q m e == F2Q n e -> m = n.
Proof.
  intros H. apply Z.le_antisymm; apply (F2Q_le_inv _ _ e); rewrite H; apply Qle_refl.
Qed.

Lemma F2Q_quotient (mx my : positive) (ex ey : Z) :
  F2Q (Zpos mx) ex / F2Q (Zpos my) ey * inject_Z (Zpos my) == F2Q (Zpos mx) (ex - ey).
Proof.
  unfold F2Q. replace ex with ((ex - ey) + ey)%Z at 1 by lia. rewrite pow2_add.
  pose proof (pow2_pos ey).
  assert (Hmy : ~ inject_Z (Zpos my) == 0).
  { change 0 with (inject_Z 0). rewrite inject_Z_injective. lia. }
  field. split; [lra|done].
Qed.

Lemma new_location_exact (n k : Z) : new_location n k = loc_Exact <-> k = 0%Z.
Proof.
  unfold new_location, new_location_even, new_location_odd.
  destruct (Z.even n), (Z.eqb_spec k 0); split; intros; try done.
Qed.

Lemma SFdiv_core_binary_spec (mx my : positive) (ex ey : Z) (q e' : Z) (l : location) :
  SFdiv_core_binary prec emax (Zpos mx) ex (Zpos my) ey = (q, e', l) ->
  (0 <= q)%Z /\
  F2Q q e' <= F2Q (Zpos mx) ex / F2Q (Zpos my) ey /\
  F2Q (Zpos mx) ex / F2Q (Zpos my) ey < F2Q (q + 1) e' /\
  (l = loc_Exact <-> F2Q (Zpos mx) ex / F2Q (Zpos my) ey == F2Q q e') /\
  (e' <= fexp prec emax (Zdigits2 q + e'))%Z.
Proof.
  unfold SFdiv_core_binary.
  set (d1 := Zdigits2 (Zpos mx)). set (d2 := Zdigits2 (Zpos my)).
  set (E := Z.min (fexp prec emax (d1 + ex - (d2 + ey))) (ex - ey)).
  set (s := (ex - ey - E)%Z).
  assert (Hs : (0 <= s)%Z) by (unfold s, E; lia).
  set (m' := match s with Zpos _ => Z.shiftl (Zpos mx) s | Z0 => Zpos mx | Zneg _ => 0%Z end).
  assert (Hm' : m' = (Zpos mx * 2 ^ s)%Z).
  { unfold m'. destruct s as [|p|p] eqn:Hp; [simpl; lia| |lia].
    rewrite Z.shiftl_mul_pow2 by lia. done. }
  clearbody m'.
  pose proof (Z_div_mod m' (Zpos my) ltac:(lia)) as Hdiv.
  destruct (Z.div_eucl m' (Zpos my)) as [q0 r]. destruct Hdiv as [Hdiv Hr].
  intros [= <- <- <-].
  set (V := F2Q (Zpos mx) ex / F2Q (Zpos my) ey).
  assert (HV : V * inject_Z (Zpos my) == F2Q m' E).
  { unfold V. rewrite F2Q_quotient, Hm', F2Q_shift by done. unfold s.
    replace (E + (ex - ey - E))%Z with (ex - ey)%Z by lia. reflexivity. }
  assert (Hmy : 0 < inject_Z (Zpos my)).
  { change 0 with (inject_Z 0). rewrite <- Zlt_Qlt. lia. }
  assert (Hq0 : (0 <= q0)%Z) by nia.
  split; [done|]. split; [|split; [|split]].
  - apply (Qmult_le_r _ _ (inject_Z (Zpos my))); [done|].
    rewrite HV, F2Q_scale. apply F2Q_le. nia.
  - apply (Qmult_lt_r _ _ (inject_Z (Zpos my))); [done|].
    rewrite HV, F2Q_scale. apply F2Q_lt. nia.
  - rewrite new_location_exact. split.
    + intros ->. apply (Qmult_inj_r _ _ (inject_Z (Zpos my))); [lra|].
      rewrite HV, F2Q_scale. replace m' with (q0 * Zpos my)%Z by lia. reflexivity.
    + intros Heq. apply (Qmult_inj_r _ _ (inject_Z (Zpos my))) in Heq; [|lra].
      rewrite HV, F2Q_scale in Heq. apply F2Q_inj in Heq. lia.
  - rewrite fexp_spec.
    destruct (Z_le_gt_dec E (-1074)) as [|HE]; [lia|].
    assert (HEle : (E <= d1 + ex - (d2 + ey) - 53)%Z).
    { unfold E in HE |- *. rewrite fexp_spec in HE |- *. lia. }
    assert (Hsge : (d2 - d1 + 53 <= s)%Z) by (unfold s; lia).
    pose proof (Zdigits2_bounds (Zpos mx) ltac:(lia)) as [Hx1 _].
    pose proof (Zdigits2_bounds (Zpos my) ltac:(lia)) as [_ Hy2].
    pose proof (Zdigits2_pos (Zpos mx) ltac:(lia)) as Hd1.
    pose proof (Zdigits2_pos (Zpos my) ltac:(lia)) as Hd2.
    fold d1 in Hx1, Hd1. fold d2 in Hy2, Hd2.
    assert (Hbig : (2 ^ d2 * 2 ^ 52 <= m')%Z).
    { rewrite Hm', <- Z.pow_add_r by lia.
      apply Z.le_trans with (2 ^ (d1 - 1) * 2 ^ s)%Z.
      - rewrite <- Z.pow_add_r by lia. apply Z.pow_le_mono_r; lia.
      - apply Z.mul_le_mono_nonneg_r; [apply Z.pow_nonneg; lia|done]. }
    assert (Hq52 : (2 ^ 52 <= q0)%Z) by nia.
    assert (Hq53 : (53 <= Zdigits2 q0)%Z).
    { pose proof (Zdigits2_bounds q0 ltac:(lia)) as [_ Hq2].
      destruct (Z_le_gt_dec 53 (Zdigits2 q0)) as [|Hlt]; [done|]. exfalso.
      assert ((2 ^ Zdigits2 q0 <= 2 ^ 52)%Z); [|lia].
      apply Z.pow_le_mono_r; lia. }
    lia.
Qed.

Lemma Qdiv_signs (sx sy : bool) (a b : Q) :
  ~ b == 0 ->
  (if sx then - a else a) / (if sy then - b else b)
  == (if xorb sx sy then - (a / b) else a / b).
Proof. intros Hb. destruct sx, sy; simpl; field; done. Qed.

Theorem SFdiv_between (x y fl fh : spec_float) (vx vy lo hi : Q) :
  valid x -> valid y -> SFval x = Some vx -> SFval y = Some vy -> ~ vy == 0 ->
  valid fl -> SFval fl = Some lo -> valid fh -> SFval fh = Some hi ->
  lo <= vx / vy -> vx / vy <= hi ->
  exists z, SFval (SFdiv prec emax x y) = Some z /\ lo <= z /\ z <= hi.
Proof.
  intros Hx Hy Hvx Hvy Hnz Hfl Hlo Hfh Hhi Hl Hh.
  destruct x as [sx|sx| |sx mx ex], y as [sy|sy| |sy my ey]; simpl in Hvx, Hvy;
    try discriminate; injection Hvx as <-; injection Hvy as <-.
  - by destruct Hnz.
  - exists 0. split; [done|].
    assert (H0 : 0 / F2Q (cond_Zopp sy (Zpos my)) ey == 0) by (unfold Qdiv; ring).
    rewrite H0 in Hl, Hh. done.
  - by destruct Hnz.
  - simpl SFdiv.
    destruct (SFdiv_core_binary prec emax (Zpos mx) ex (Zpos my) ey)
      as [[q e'] l] eqn:Hcore.
    apply SFdiv_core_binary_spec in Hcore as (Hq & Hlo' & Hhi' & Hloc & Hexp).
    pose proof (F2Q_pos my ey) as Hpos.
    assert (Hsign : F2Q (cond_Zopp sx (Zpos mx)) ex / F2Q (cond_Zopp sy (Zpos my)) ey
                    == (if xorb sx sy then - (F2Q (Zpos mx) ex / F2Q (Zpos my) ey)
                        else F2Q (Zpos mx) ex / F2Q (Zpos my) ey)).
    { rewrite <- Qdiv_signs by lra. destruct sx, sy; simpl cond_Zopp;
        rewrite ?F2Q_opp; reflexivity. }
    rewrite Hsign in Hl, Hh.
    by apply (binary_round_aux_signed _ _ _ _
                (F2Q (Zpos mx) ex / F2Q (Zpos my) ey) fl fh).
Qed.

(** ** Comparison, sign and uniqueness of the representation *)

Lemma canonical_lt (m1 m2 : positive) (e1 e2 : Z) :
  bounded prec emax m1 e1 = true -> bounded prec emax m2 e2 = true ->
  (e1 < e2)%Z -> F2Q (Zpos m1) e1 < F2Q (Zpos m2) e2.
Proof.
  intros H1 H2 Hlt.
  pose proof (bounded_mantissa _ _ H1) as Hm1.
  apply bounded_spec in H1 as [He1 _]. apply bounded_spec in H2 as [He2 _].
  assert (Hd2 : Zpos (digits2_pos m2) = 53%Z) by lia.
  pose proof (digits2_pos_bounds m2) as [Hm2 _]. rewrite Hd2 in Hm2.
  apply Qlt_le_trans with (F2Q (2 ^ 53) e1); [by apply F2Q_lt|].
  apply Qle_trans with (F2Q (2 ^ 52) e2); [|by apply F2Q_le].
  rewrite <- !pow2_F2Q by lia. apply pow2_le. lia.
Qed.

Lemma canonical_compare (m1 m2 : positive) (e1 e2 : Z) :
  bounded prec emax m1 e1 = true -> bounded prec emax m2 e2 = true ->
  (F2Q (Zpos m1) e1 ?= F2Q (Zpos m2) e2)
  = match Z.compare e1 e2 with
    | Lt => Lt
    | Gt => Gt
    | Eq => Pos.compare_cont Eq m1 m2
    end.
Proof.
  intros H1 H2. destruct (Z.compare_spec e1 e2) as [->|Hlt|Hgt].
  - change (Pos.compare_cont Eq m1 m2) with (Pos.compare m1 m2).
    destruct (Pos.compare_spec m1 m2) as [->|Hm|Hm].
    + by rewrite <- Qeq_alt.
    + rewrite <- Qlt_alt. apply F2Q_lt. lia.
    + rewrite <- Qgt_alt. apply F2Q_lt. lia.
  - rewrite <- Qlt_alt. by apply canonical_lt.
  - rewrite <- Qgt_alt. by apply canonical_lt.
Qed.

Lemma Qcompare_opp (a b : Q) : (- a ?= - b) = CompOpp (a ?= b).
Proof.
  destruct (Qcompare_spec a b) as [H|H|H]; simpl.
  - rewrite <- Qeq_alt. by rewrite H.
  - rewrite <- Qgt_alt. lra.
  - rewrite <- Qlt_alt. lra.
Qed.

Lemma SFcompare_spec (x y : spec_float) (vx vy : Q) :
  valid x -> valid y -> SFval x = Some vx -> SFval y = Some vy ->
  SFcompare x y = Some (vx ?= vy).
Proof.
  intros Hx Hy Hvx Hvy.
  destruct x as [sx|sx| |sx mx ex], y as [sy|sy| |sy my ey]; simpl in Hvx, Hvy;
    try discriminate; injection Hvx as <-; injection Hvy as <-; simpl SFcompare; f_equal.
  - pose proof (F2Q_pos my ey). destruct sy; simpl cond_Zopp; rewrite ?F2Q_opp; symmetry.
    + rewrite <- Qgt_alt. lra.
    + by rewrite <- Qlt_alt.
  - pose proof (F2Q_pos mx ex). destruct sx; simpl cond_Zopp; rewrite ?F2Q_opp; symmetry.
    + rewrite <- Qlt_alt. lra.
    + by rewrite <- Qgt_alt.
  - pose proof (F2Q_pos mx ex). pose proof (F2Q_pos my ey).
    destruct sx, sy; simpl cond_Zopp; rewrite ?F2Q_opp.
    + rewrite Qcompare_opp, canonical_compare by done.
      by destruct (Z.compare ex ey).
    + symmetry. rewrite <- Qlt_alt. lra.
    + symmetry. rewrite <- Qgt_alt. lra.
    + by rewrite canonical_compare.
Qed.

Lemma SFltb_spec (x y : spec_float) (vx vy : Q) :
  valid x -> valid y -> SFval x = Some vx -> SFval y = Some vy ->
  SFltb x y = true <-> vx < vy.
Proof.
  intros Hx Hy Hvx Hvy. unfold SFltb. rewrite (SFcompare_spec x y vx vy) by done.
  rewrite Qlt_alt. by destruct (vx ?= vy).
Qed.

Lemma SFabs_spec (x : spec_float) (vx : Q) :
  SFval x = Some vx -> exists z, SFval (SFabs x) = Some z /\ z == Qabs vx.
Proof.
  destruct x as [sx|sx| |sx mx ex]; simpl; intros [= <-].
  - by exists 0.
  - eexists. split; [reflexivity|]. pose proof (F2Q_pos mx ex).
    destruct sx; simpl cond_Zopp; rewrite ?F2Q_opp.
    + rewrite Qabs_opp, Qabs_pos; [reflexivity|lra].
    + rewrite Qabs_pos; [reflexivity|lra].
Qed.

Lemma SFopp_spec (x : spec_float) (vx : Q) :
  SFval x = Some vx -> exists z, SFval (SFopp x) = Some z /\ z == - vx.
Proof.
  destruct x as [sx|sx| |sx mx ex]; simpl; intros [= <-].
  - by exists 0.
  - eexists. split; [reflexivity|].
    destruct sx; simpl cond_Zopp; rewrite ?F2Q_opp; ring.
Qed.

(** Two valid numbers of the same non-zero value are the same number. *)
Lemma valid_unique (x y : spec_float) (vx vy : Q) :
  valid x -> valid y -> SFval x = Some vx -> SFval y = Some vy ->
  vx == vy -> ~ vx == 0 -> x = y.
Proof.
  intros Hx Hy Hvx Hvy Heq Hnz.
  pose proof (SFcompare_spec x y vx vy Hx Hy Hvx Hvy) as Hc.
  apply Qeq_alt in Heq. rewrite Heq in Hc.
  destruct x as [sx|sx| |sx mx ex], y as [sy|sy| |sy my ey]; simpl in Hvx, Hvy;
    try discriminate; injection Hvx as <-; injection Hvy as <-.
  - by destruct Hnz.
  - by destruct Hnz.
  - simpl in Hc. by destruct sx.
  - simpl in Hc.
    assert (Hem : ex = ey /\ mx = my).
    { destruct sx, sy; try discriminate; injection Hc as Hc;
        destruct (Z.compare_spec ex ey) as [->|?|?]; try discriminate;
        (split; [done|]); apply Pos.compare_eq;
        change (Pos.compare mx my) with (Pos.compare_cont Eq mx my);
        by destruct (Pos.compare_cont Eq mx my). }
    destruct Hem as [-> ->].
    destruct sx, sy; simpl in Hc; try discriminate; done.
Qed.

End Faithful64.

(** ** The kernel's floats

    The same statements for the primitive floats, whose operations the
    kernel specifies by those of [SpecFloat], with values in [Qc]. *)

Section Binary64Laws.

Import Binary64.

Lemma Q2Qc_le (p q : Q) : Q2Qc p <= Q2Qc q <-> (p <= q)%Q.
Proof. unfold Qcle. simpl. by rewrite !Qred_correct. Qed.

Lemma Q2Qc_this (x : Qc) : Q2Qc (this x) = x.
Proof. apply Qc_is_canon. simpl. apply Qred_correct. Qed.

Lemma value64_Some (a : PrimFloat.float) (x : Qc) :
  Engine.value64 a = Some x ->
  exists q, SFval (FloatOps.Prim2SF a) = Some q /\ x = Q2Qc q.
Proof.
  unfold Engine.value64. destruct (SFval (FloatOps.Prim2SF a)) as [q|]; [|done].
  intros [= <-]. by exists q.
Qed.

Lemma value64_of (a : PrimFloat.float) (q : Q) :
  SFval (FloatOps.Prim2SF a) = Some q -> Engine.value64 a = Some (Q2Qc q).
Proof. unfold Engine.value64. by intros ->. Qed.

Lemma valid64 (a : PrimFloat.float) : valid (FloatOps.Prim2SF a).
Proof. apply FloatAxioms.Prim2SF_valid. Qed.

Lemma Q2Qc_plus (p q : Q) : Q2Qc p + Q2Qc q = Q2Qc (p + q).
Proof. apply Qc_is_canon. simpl. by rewrite !Qred_correct. Qed.

Lemma Q2Qc_mult (p q : Q) : Q2Qc p * Q2Qc q = Q2Qc (p * q).
Proof. apply Qc_is_canon. simpl. by rewrite !Qred_correct. Qed.

Lemma Q2Qc_div (p q : Q) : Q2Qc p / Q2Qc q = Q2Qc (p / q).
Proof.
  apply Qc_is_canon. unfold Qcdiv, Qcmult, Qcinv, Qdiv. simpl. by rewrite !Qred_correct.
Qed.

Lemma Q2Qc_opp (p : Q) : - Q2Qc p = Q2Qc (- p).
Proof. apply Qc_is_canon. simpl. by rewrite !Qred_correct. Qed.

Lemma Q2Qc_abs (p : Q) : Qcabs (Q2Qc p) = Q2Qc (Qabs p).
Proof. apply Qc_is_canon. simpl. by rewrite !Qred_correct. Qed.

Lemma Q2Qc_zero (p : Q) : Q2Qc p <> 0 -> ~ (p == 0)%Q.
Proof. intros Hne H0. apply Hne. apply Qc_is_canon. simpl. by rewrite Qred_correct. Qed.

Lemma literal64_one :
  FloatOps.Prim2SF (Engine.literal64 1) = SpecFloat.S754_finite false 4503599627370496 (-52).
Proof. vm_compute. reflexivity. Qed.

Lemma value64_one : Engine.value64 (Engine.literal64 1) = Some 1.
Proof.
  unfold Engine.value64. rewrite literal64_one. simpl. f_equal.
  apply Qc_is_canon. vm_compute. reflexivity.
Qed.

Lemma value64_opp (a : PrimFloat.float) (x : Qc) :
  Engine.value64 a = Some x -> Engine.value64 (PrimFloat.opp a) = Some (- x).
Proof.
  intros Ha. apply value64_Some in Ha as (q & Hq & ->).
  destruct (SFopp_spec _ _ Hq) as (z & Hz & Heq).
  rewrite <- FloatAxioms.opp_spec in Hz. rewrite (value64_of _ _ Hz), Q2Qc_opp.
  f_equal. by apply Q2Qc_eq_iff.
Qed.

Lemma value64_abs (a : PrimFloat.float) (x : Qc) :
  Engine.value64 a = Some x -> Engine.value64 (PrimFloat.abs a) = Some (Qcabs x).
Proof.
  intros Ha. apply value64_Some in Ha as (q & Hq & ->).
  destruct (SFabs_spec _ _ Hq) as (z & Hz & Heq).
  rewrite <- FloatAxioms.abs_spec in Hz. rewrite (value64_of _ _ Hz), Q2Qc_abs.
  f_equal. by apply Q2Qc_eq_iff.
Qed.

Lemma value64_gt (a b : PrimFloat.float) (x y : Qc) :
  Engine.value64 a = Some x -> Engine.value64 b = Some y ->
  PrimFloat.ltb b a = Qcgtb x y.
Proof.
  intros Ha Hb. apply value64_Some in Ha as (p & Hp & ->).
  apply value64_Some in Hb as (q & Hq & ->).
  rewrite FloatAxioms.ltb_spec. unfold SpecFloat.SFltb.
  rewrite (SFcompare_spec _ _ q p (valid64 b) (valid64 a) Hq Hp).
  unfold Qcgtb, Qccompare. simpl. rewrite !Qred_correct.
  rewrite <- (Qcompare_antisym q p). by destruct (q ?= p)%Q.
Qed.

Lemma value64_add_between (a b l h : PrimFloat.float) (x y lo hi : Qc) :
  Engine.value64 a = Some x -> Engine.value64 b = Some y ->
  Engine.value64 l = Some lo -> Engine.value64 h = Some hi ->
  lo <= x + y -> x + y <= hi ->
  exists z, Engine.value64 (PrimFloat.add a b) = Some z /\ lo <= z /\ z <= hi.
Proof.
  intros Ha Hb Hl Hh Hlo Hhi.
  apply value64_Some in Ha as (qa & Ha & ->). apply value64_Some in Hb as (qb & Hb & ->).
  apply value64_Some in Hl as (ql & Hl & ->). apply value64_Some in Hh as (qh & Hh & ->).
  rewrite Q2Qc_plus, Q2Qc_le in Hlo, Hhi.
  destruct (SFadd_between _ _ _ _ _ _ _ _ (valid64 a) (valid64 b) Ha Hb
              (valid64 l) Hl (valid64 h) Hh Hlo Hhi) as (z & Hz & Hzl & Hzh).
  change (SpecFloat.SFadd prec emax) with FloatAxioms.SF64add in Hz.
  rewrite <- FloatAxioms.add_spec in Hz.
  exists (Q2Qc z). rewrite (value64_of _ _ Hz), !Q2Qc_le. done.
Qed.

Lemma value64_mul_between (a b l h : PrimFloat.float) (x y lo hi : Qc) :
  Engine.value64 a = Some x -> Engine.value64 b = Some y ->
  Engine.value64 l = Some lo -> Engine.value64 h = Some hi ->
  lo <= x * y -> x * y <= hi ->
  exists z, Engine.value64 (PrimFloat.mul a b) = Some z /\ lo <= z /\ z <= hi.
Proof.
  intros Ha Hb Hl Hh Hlo Hhi.
  apply value64_Some in Ha as (qa & Ha & ->). apply value64_Some in Hb as (qb & Hb & ->).
  apply value64_Some in Hl as (ql & Hl & ->). apply value64_Some in Hh as (qh & Hh & ->).
  rewrite Q2Qc_mult, Q2Qc_le in Hlo, Hhi.
  destruct (SFmul_between _ _ _ _ _ _ _ _ (valid64 a) (valid64 b) Ha Hb
              (valid64 l) Hl (valid64 h) Hh Hlo Hhi) as (z & Hz & Hzl & Hzh).
  change (SpecFloat.SFmul prec emax) with FloatAxioms.SF64mul in Hz.
  rewrite <- FloatAxioms.mul_spec in Hz.
  exists (Q2Qc z). rewrite (value64_of _ _ Hz), !Q2Qc_le. done.
Qed.

Lemma value64_div_between (a b l h : PrimFloat.float) (x y lo hi : Qc) :
  Engine.value64 a = Some x -> Engine.value64 b = Some y -> y <> 0 ->
  Engine.value64 l = Some lo -> Engine.value64 h = Some hi ->
  lo <= x / y -> x / y <= hi ->
  exists z, Engine.value64 (PrimFloat.div a b) = Some z /\ lo <= z /\ z <= hi.
Proof.
  intros Ha Hb Hne Hl Hh Hlo Hhi.
  apply value64_Some in Ha as (qa & Ha & ->). apply value64_Some in Hb as (qb & Hb & ->).
  apply value64_Some in Hl as (ql & Hl & ->). apply value64_Some in Hh as (qh & Hh & ->).
  apply Q2Qc_zero in Hne.
  rewrite Q2Qc_div, Q2Qc_le in Hlo, Hhi.
  destruct (SFdiv_between _ _ _ _ _ _ _ _ (valid64 a) (valid64 b) Ha Hb Hne
              (valid64 l) Hl (valid64 h) Hh Hlo Hhi) as (z & Hz & Hzl & Hzh).
  change (SpecFloat.SFdiv prec emax) with FloatAxioms.SF64div in Hz.
  rewrite <- FloatAxioms.div_spec in Hz.
  exists (Q2Qc z). rewrite (value64_of _ _ Hz), !Q2Qc_le. done.
Qed.

(** [x / 1] is [x], for every float: finite, infinite or NaN. *)
Lemma div64_one (a : PrimFloat.float) : PrimFloat.div a (Engine.literal64 1) = a.
Proof.
  apply FloatAxioms.Prim2SF_inj.
  pose proof (valid64 (PrimFloat.div a (Engine.literal64 1))) as Hvalid.
  rewrite FloatAxioms.div_spec, literal64_one in *.
  pose proof (valid64 a) as Ha.
  destruct (FloatOps.Prim2SF a) as [s|s| |s m e] eqn:Hsf.
  - by destruct s.
  - by destruct s.
  - done.
  - set (x := SpecFloat.S754_finite s m e) in *.
    set (one := SpecFloat.S754_finite false 4503599627370496 (-52)).
    assert (Hone : (F2Q 4503599627370496 (-52) == 1)%Q) by (vm_compute; reflexivity).
    assert (Hx : SFval x = Some (F2Q (SpecFloat.cond_Zopp s (Zpos m)) e)) by done.
    assert (Hq : (F2Q (SpecFloat.cond_Zopp s (Zpos m)) e / F2Q 4503599627370496 (-52)
                  == F2Q (SpecFloat.cond_Zopp s (Zpos m)) e)%Q).
    { rewrite Hone. field. }
    assert (Hnz : ~ (F2Q 4503599627370496 (-52) == 0)%Q) by (rewrite Hone; lra).
    destruct (SFdiv_between x one x x _ _ _ _ Ha eq_refl Hx eq_refl Hnz Ha Hx Ha Hx)
      as (z & Hz & Hzl & Hzh).
    + rewrite Hq. apply Qle_refl.
    + rewrite Hq. apply Qle_refl.
    + eapply valid_unique; [exact Hvalid|exact Ha|exact Hz|exact Hx| |].
      * by apply Qle_antisym.
      * intros H0. assert (Hz0 : (z == F2Q (SpecFloat.cond_Zopp s (Zpos m)) e)%Q)
          by (by apply Qle_antisym).
        rewrite Hz0 in H0. pose proof (F2Q_pos m e) as Hpos.
        destruct s; simpl SpecFloat.cond_Zopp in H0; rewrite ?F2Q_opp in H0; lra.
Qed.

End Binary64Laws.

(** binary64 rounds faithfully. *)
Lemma binary64_faithful : Engine.Faithful Engine.binary64 Engine.value64.
Proof.
  split.
  - apply value64_one.
  - intros a x Ha. exists (PrimFloat.opp a). by apply value64_opp.
  - apply value64_abs.
  - apply value64_gt.
  - apply value64_add_between.
  - apply value64_mul_between.
  - apply value64_div_between.
  - apply div64_one.
Qed.

(** * The mixing computation over a faithful arithmetic *)

Section Rounding.

Import Engine.

Context {arith : Arith} (val : num -> option Qc).
Context (laws : Faithful arith val).

Lemma val_minus_one : exists n, val n = Some (- (1)).
Proof. apply (val_opp _ _ laws (lit 1)), (val_one _ _ laws). Qed.

(** The largest magnitude found by the second [reduce], from any start. *)
Lemma maxRaw_reduce_bounds (raws : list num) : forall (index : nat) (accum : num) (m : Qc),
  val accum = Some m ->
  Forall (fun r => is_Some (val r)) raws ->
  exists M,
    val (reduceFrom (fun accum val (_ : nat) => if gt (abs val) accum then abs val else accum)
                    raws index accum) = Some M /\
    m <= M /\ Forall (within val M) raws /\
    (forall bound, m <= bound -> Forall (within val bound) raws -> M <= bound).
Proof.
  induction raws as [|r raws IH]; intros index accum m Hacc Hfin; simpl.
  - exists m. split; [done|]. split; [apply Qcle_refl|]. split; [constructor|done].
  - apply Forall_cons in Hfin as [[x Hx] Hfin].
    pose proof (val_abs _ _ laws r x Hx) as Habs.
    rewrite (gt_spec _ _ laws _ _ _ _ Habs Hacc).
    destruct (Qcgtb (Qcabs x) m) eqn:Hgt.
    + apply Qcgtb_true in Hgt.
      destruct (IH (S index) (abs r) (Qcabs x) Habs Hfin) as (M & HM & Hle & Hall & Hleast).
      exists M. split; [done|]. split; [|split].
      * eapply Qcle_trans; [by apply Qclt_le_weak|done].
      * apply Forall_cons. split; [by exists x|done].
      * intros bound _ Hbound. apply Forall_cons in Hbound as [(x' & Hx' & Hle') Hbound].
        apply Hleast; [|done]. rewrite Hx in Hx'. by injection Hx' as <-.
    + apply Qcgtb_false in Hgt.
      destruct (IH (S index) accum m Hacc Hfin) as (M & HM & Hle & Hall & Hleast).
      exists M. split; [done|]. split; [done|]. split.
      * apply Forall_cons. split; [|done]. exists x. split; [done|]. by eapply Qcle_trans.
      * intros bound Hm Hbound. apply Forall_cons in Hbound as [_ Hbound]. by apply Hleast.
Qed.

Lemma maxRaw_finite (raws : list num) :
  Forall (fun r => is_Some (val r)) raws ->
  exists M, val (maxRaw raws) = Some M /\ 1 <= M /\ Forall (within val M) raws /\
            (forall bound, 1 <= bound -> Forall (within val bound) raws -> M <= bound).
Proof.
  intros Hfin. unfold maxRaw, reduce.
  by apply maxRaw_reduce_bounds; [apply (val_one _ _ laws)|].
Qed.

(** The quotient by the largest magnitude is a number in [-1, 1]. *)
Lemma quotient_in_unit (r maxi : num) (x M : Qc) :
  val r = Some x -> val maxi = Some M -> Qcabs x <= M -> 1 <= M ->
  between val (- (1)) 1 (div r maxi).
Proof.
  intros Hr HM Hx Hone.
  assert (Hpos : 0 < M) by (eapply Qclt_le_trans; [apply Qc_one_pos|done]).
  assert (Hne : M <> 0) by (intros ->; by destruct (Qclt_not_eq 0 0)).
  apply Qcabs_Qcle_condition in Hx as [Hlo Hhi].
  pose proof (Qcinv_nonneg M Hpos) as Hinv.
  destruct val_minus_one as (n & Hn).
  apply (div_between _ _ laws r maxi n (lit 1) x M); [done|done|done|done| | |].
  - apply (val_one _ _ laws).
  - replace (- (1)) with (- M * / M) by (field; done). by apply Qcmult_le_compat_r.
  - replace 1 with (M * / M) by (field; done). by apply Qcmult_le_compat_r.
Qed.

(** Scaling a number of [-1, 1] by the half-range. *)
Lemma scaled_in_half_range (t diff : num) (d : Qc) :
  between val (- (1)) 1 t -> val diff = Some d -> 0 <= d ->
  between val (- d) d (mul t diff).
Proof.
  intros (q & Ht & Hlo & Hhi) Hd Hpos.
  destruct (val_opp _ _ laws _ _ Hd) as (n & Hn).
  apply (mul_between _ _ laws t diff n diff q d); [done|done|done|done| |].
  - replace (- d) with (- (1) * d) by ring. by apply Qcmult_le_compat_r.
  - replace d with (1 * d) at 2 by ring. by apply Qcmult_le_compat_r.
Qed.

(** Moving a number of [-diff, diff] to the center. *)
Lemma centered_in_range (u mid l h : num) (d m lo hi : Qc) :
  between val (- d) d u -> val mid = Some m ->
  val l = Some lo -> val h = Some hi -> lo <= m - d -> m + d <= hi ->
  between val lo hi (add u mid).
Proof.
  intros (q & Hu & Hlo & Hhi) Hm Hl Hh Hlow Hhigh.
  apply (add_between _ _ laws u mid l h q m); [done|done|done|done| |].
  - eapply Qcle_trans; [exact Hlow|].
    replace (m - d) with (- d + m) by ring. apply Qcplus_le_compat; [done|apply Qcle_refl].
  - eapply Qcle_trans; [|exact Hhigh].
    replace (m + d) with (d + m) by ring. apply Qcplus_le_compat; [done|apply Qcle_refl].
Qed.

(** In a faithful arithmetic, finite raw sums give pulse widths between
    any two finite numbers that enclose [mid - diff, mid + diff]. *)
Lemma mix_within_range (data : list num) (matrix : list (list num))
    (diff mid l h : num) (d m lo hi : Qc) :
  Forall (fun r => is_Some (val r)) (rawValues data matrix) ->
  val diff = Some d -> 0 <= d ->
  val mid = Some m ->
  val l = Some lo -> val h = Some hi -> lo <= m - d -> m + d <= hi ->
  Forall (between val lo hi) (calcMotorValues data matrix diff mid).
Proof.
  intros Hfin Hd Hpos Hm Hl Hh Hlo Hhi.
  unfold calcMotorValues.
  destruct (maxRaw_finite _ Hfin) as (M & HM & Hone & Hall & _).
  apply Forall_map. eapply Forall_impl; [exact Hall|].
  intros r (x & Hx & Hle). simpl.
  eapply centered_in_range; [|done|done|done|done|done].
  eapply scaled_in_half_range; [|done|done].
  by eapply quotient_in_unit.
Qed.

(** With no magnitude above 1 the second [reduce] returns its start. *)
Lemma maxRaw_unit_from (raws : list num) : forall (index : nat),
  Forall (within val 1) raws ->
  reduceFrom (fun accum val (_ : nat) => if gt (abs val) accum then abs val else accum)
             raws index (lit 1) = lit 1.
Proof.
  induction raws as [|r raws IH]; intros index Hall; simpl; [done|].
  apply Forall_cons in Hall as [(x & Hx & Hle) Hall].
  rewrite (gt_spec _ _ laws _ _ _ _ (val_abs _ _ laws r x Hx) (val_one _ _ laws)).
  apply Qcgtb_false in Hle. rewrite Hle. by apply IH.
Qed.

(** Without normalisation: when every raw sum is a finite number of
    magnitude at most 1, the divisor is the literal 1 and each pulse
    width is [r * diff + mid] as the arithmetic computes it from the raw
    sum [r]. *)
Lemma mix_unscaled (data : list num) (matrix : list (list num)) (diff mid : num) :
  Forall (within val 1) (rawValues data matrix) ->
  calcMotorValues data matrix diff mid
  = map (fun r => add (mul r diff) mid) (rawValues data matrix).
Proof.
  intros Hall. unfold calcMotorValues, maxRaw, reduce. rewrite maxRaw_unit_from by done.
  apply map_ext. intros r. by rewrite (div_one _ _ laws).
Qed.

(** Once the largest raw sum has magnitude at least 1, the channel that
    carries it is driven to the end of the range on its side. *)
Lemma mix_saturates (data : list num) (matrix : list (list num))
    (diff mid t : num) (i : nat) (r : num) (x d m : Qc) :
  rawValues data matrix !! i = Some r ->
  val r = Some x ->
  1 <= Qcabs x ->
  Forall (within val (Qcabs x)) (rawValues data matrix) ->
  val diff = Some d ->
  val mid = Some m ->
  val t = Some (if Qcgtb x 0 then m + d else m - d) ->
  exists p, calcMotorValues data matrix diff mid !! i = Some p /\
            val p = Some (if Qcgtb x 0 then m + d else m - d).
Proof.
  intros Hi Hx Hone Hall Hd Hm Ht.
  assert (Hfin : Forall (fun r' => is_Some (val r')) (rawValues data matrix)).
  { eapply Forall_impl; [exact Hall|]. intros r' (x' & Hx' & _). by exists x'. }
  destruct (maxRaw_finite _ Hfin) as (M & HM & _ & Hge & Hleast).
  assert (HMx : M = Qcabs x).
  { apply Qcle_antisym; [by apply Hleast|].
    assert (Hin : r ∈ rawValues data matrix) by (by eapply list_elem_of_lookup_2).
    rewrite Forall_forall in Hge. destruct (Hge r Hin) as (x' & Hx' & Hle).
    rewrite Hx in Hx'. by injection Hx' as <-. }
  subst M.
  assert (Hne : Qcabs x <> 0).
  { intros H0. rewrite H0 in Hone. by apply (Qcle_not_lt _ _ Hone), Qc_one_pos. }
  exists (add (mul (div r (maxRaw (rawValues data matrix))) diff) mid). split.
  - unfold calcMotorValues. change (map ?f ?l) with (f <$> l).
    by rewrite list_lookup_fmap, Hi.
  - destruct val_minus_one as (n & Hn).
    destruct (val_opp _ _ laws _ _ Hd) as (nd & Hnd).
    assert (Hq : val (div r (maxRaw (rawValues data matrix)))
                 = Some (if Qcgtb x 0 then 1 else - (1))).
    { destruct (Qcgtb x 0) eqn:Hsign.
      - apply Qcgtb_true in Hsign. rewrite Qcabs_pos in * by (by apply Qclt_le_weak).
        destruct (div_between _ _ laws r _ (lit 1) (lit 1) x x 1 1 Hx HM Hne
                    (val_one _ _ laws) (val_one _ _ laws)) as (z & Hz & Hzl & Hzh).
        + replace (x / x) with 1 by (by field). apply Qcle_refl.
        + replace (x / x) with 1 by (by field). apply Qcle_refl.
        + rewrite Hz. f_equal. by apply Qcle_antisym.
      - apply Qcgtb_false in Hsign. rewrite Qcabs_neg in * by done.
        assert (Hquot : x / - x = - (1)).
        { field. intros H0. apply Hne. rewrite H0. by apply Qc_is_canon. }
        destruct (div_between _ _ laws r _ n n x (- x) (- (1)) (- (1)) Hx HM Hne Hn Hn)
          as (z & Hz & Hzl & Hzh).
        + rewrite Hquot. apply Qcle_refl.
        + rewrite Hquot. apply Qcle_refl.
        + rewrite Hz. f_equal. by apply Qcle_antisym. }
    assert (Hu : val (mul (div r (maxRaw (rawValues data matrix))) diff)
                 = Some (if Qcgtb x 0 then d else - d)).
    { destruct (Qcgtb x 0).
      - destruct (mul_between _ _ laws _ diff diff diff 1 d d d Hq Hd Hd Hd)
          as (z & Hz & Hzl & Hzh).
        + replace (1 * d) with d by ring. apply Qcle_refl.
        + replace (1 * d) with d by ring. apply Qcle_refl.
        + rewrite Hz. f_equal. by apply Qcle_antisym.
      - destruct (mul_between _ _ laws _ diff nd nd (- (1)) d (- d) (- d) Hq Hd Hnd Hnd)
          as (z & Hz & Hzl & Hzh).
        + replace (- (1) * d) with (- d) by ring. apply Qcle_refl.
        + replace (- (1) * d) with (- d) by ring. apply Qcle_refl.
        + rewrite Hz. f_equal. by apply Qcle_antisym. }
    destruct (add_between _ _ laws _ mid t t _ m _ _ Hu Hm Ht Ht) as (z & Hz & Hzl & Hzh).
    + destruct (Qcgtb x 0); [|replace (m - d) with (- d + m) by ring];
        [rewrite (Qcplus_comm m d)|]; apply Qcle_refl.
    + destruct (Qcgtb x 0); [|replace (m - d) with (- d + m) by ring];
        [rewrite (Qcplus_comm m d)|]; apply Qcle_refl.
    + rewrite Hz. f_equal. by apply Qcle_antisym.
Qed.

(** A product of a number of [-1, 1] and one of [-B, B]. *)
Lemma product_within (dir v b : num) (B : Qc) :
  within val 1 dir -> within val B v -> val b = Some B ->
  within val B (mul dir v).
Proof.
  intros (x & Hx & Hxle) (y & Hy & Hyle) Hb.
  destruct (val_opp _ _ laws _ _ Hb) as (n & Hn).
  assert (Hprod : Qcabs (x * y) <= B).
  { rewrite Qcabs_Qcmult. apply Qcle_trans with (1 * Qcabs y).
    - apply Qcmult_le_compat_r; [done|apply Qcabs_nonneg].
    - by replace (1 * Qcabs y) with (Qcabs y) by ring. }
  apply Qcabs_Qcle_condition in Hprod as [Hlo Hhi].
  destruct (mul_between _ _ laws dir v n b x y (- B) B Hx Hy Hn Hb Hlo Hhi)
    as (z & Hz & Hzl & Hzh).
  exists z. split; [done|]. by apply Qcabs_Qcle_condition.
Qed.

(** A sum of a number of [-S, S] and one of [-P, P]. *)
Lemma sum_within (s p t : num) (S P T : Qc) :
  within val S s -> within val P p -> val t = Some T -> S + P <= T ->
  within val T (add s p).
Proof.
  intros (x & Hx & Hxle) (y & Hy & Hyle) Ht HT.
  destruct (val_opp _ _ laws _ _ Ht) as (n & Hn).
  assert (Hsum : Qcabs (x + y) <= T).
  { eapply Qcle_trans; [apply Qcabs_triangle|].
    eapply Qcle_trans; [|exact HT]. by apply Qcplus_le_compat. }
  apply Qcabs_Qcle_condition in Hsum as [Hlo Hhi].
  destruct (add_between _ _ laws s p n t x y (- T) T Hx Hy Hn Ht Hlo Hhi)
    as (z & Hz & Hzl & Hzh).
  exists z. split; [done|]. by apply Qcabs_Qcle_condition.
Qed.

End Rounding.

(** ** Exact arithmetic is faithful *)

Lemma exact_faithful : Engine.Faithful Engine.exact Engine.exactValue.
Proof.
  split.
  - simpl. f_equal. apply Qc_of_Z_1.
  - intros [x|] x' Hx; [|done]. injection Hx as <-. by exists (Num (- x)).
  - intros [x|] x' Hx; [|done]. by injection Hx as <-.
  - by intros [x|] [y|] x' y' Hx Hy; try done; injection Hx as <-; injection Hy as <-.
  - intros [x|] [y|] l h x' y' lo hi Hx Hy _ _ Hlo Hhi; try done.
    injection Hx as <-. injection Hy as <-. by exists (x + y).
  - intros [x|] [y|] l h x' y' lo hi Hx Hy _ _ Hlo Hhi; try done.
    injection Hx as <-. injection Hy as <-. by exists (x * y).
  - intros [x|] [y|] l h x' y' lo hi Hx Hy Hne _ _ Hlo Hhi; try done.
    injection Hx as <-. injection Hy as <-. exists (x / y). split; [|done].
    simpl. destruct (Qceqb y 0) eqn:E; [|done]. by apply Qceqb_true in E.
  - intros [x|]; [|done]. simpl.
    destruct (Qceqb (Qc_of_Z 1) 0) eqn:E; [by apply Qceqb_true in E|].
    f_equal. rewrite Qc_of_Z_1. field. apply Q_apart_0_1.
Qed.

(** * The mixing computation on binary64 *)

(** C1, amended. On binary64, when every raw channel sum the engine
    computes is a finite number, the half-range [diff >= 0] and the
    center [mid] are finite, and [lo] and [hi] are two finite numbers of
    the engine with [lo <= mid - diff] and [mid + diff <= hi],
    [calcMotorValues] yields one pulse width per row, each of them a
    finite number within [lo, hi]. *)
Theorem calcMotorValues_finite_within_range (data : list PrimFloat.float)
    (matrix : list (list PrimFloat.float)) (diff mid l h : PrimFloat.float)
    (d m lo hi : Qc) :
  Forall (fun r => is_Some (Engine.value64 r))
         (@Engine.rawValues Engine.binary64 data matrix) ->
  Engine.value64 diff = Some d -> 0 <= d ->
  Engine.value64 mid = Some m ->
  Engine.value64 l = Some lo -> Engine.value64 h = Some hi ->
  lo <= m - d -> m + d <= hi ->
  length (@Engine.calcMotorValues Engine.binary64 data matrix diff mid) = length matrix /\
  Forall (@between Engine.binary64 Engine.value64 lo hi)
         (@Engine.calcMotorValues Engine.binary64 data matrix diff mid).
Proof.
  intros Hfin Hd Hpos Hm Hl Hh Hlo Hhi. split.
  - unfold Engine.calcMotorValues, Engine.rawValues. by rewrite !length_map.
  - by apply (mix_within_range _ binary64_faithful data matrix diff mid l h d m).
Qed.

(** C2, amended. On binary64, when every raw channel sum the engine
    computes is a finite number of magnitude at most 1, nothing is
    normalised: each pulse width is [r * diff + mid] as the engine
    computes it from the raw sum [r] of its channel.  The forward-only
    command through the thrust-vector matrix, with mid 1550 and diff
    400, puts 1950 on all four channels. *)
Theorem calcMotorValues_linear_as_computed :
  (forall (data : list PrimFloat.float) (matrix : list (list PrimFloat.float))
          (diff mid : PrimFloat.float),
     Forall (@within Engine.binary64 Engine.value64 1)
            (@Engine.rawValues Engine.binary64 data matrix) ->
     @Engine.calcMotorValues Engine.binary64 data matrix diff mid
     = map (fun r => PrimFloat.add (PrimFloat.mul r diff) mid)
           (@Engine.rawValues Engine.binary64 data matrix)) /\
  @Engine.calcMotorValues Engine.binary64
     [Engine.lit 1; Engine.lit 0; Engine.lit 0] Engine.vectorMapMatrix
     Engine.defaultDiff Engine.defaultMid
  = [Engine.lit 1950; Engine.lit 1950; Engine.lit 1950; Engine.lit 1950].
Proof.
  split.
  - intros data matrix diff mid Hall.
    by apply (mix_unscaled _ binary64_faithful data matrix diff mid).
  - vm_compute. reflexivity.
Qed.

(** * Further properties of the script *)

(** ** Saturation on binary64 *)

(** On binary64, once the largest raw sum has magnitude at least 1, the
    channel that carries it is driven to the end of the range on its
    side: when [mid + diff], or [mid - diff], is a number of the engine,
    the pulse width is that number. *)
Theorem calcMotorValues_saturates (data : list PrimFloat.float)
    (matrix : list (list PrimFloat.float)) (diff mid t : PrimFloat.float)
    (i : nat) (r : PrimFloat.float) (x d m : Qc) :
  @Engine.rawValues Engine.binary64 data matrix !! i = Some r ->
  Engine.value64 r = Some x ->
  1 <= Qcabs x ->
  Forall (@within Engine.binary64 Engine.value64 (Qcabs x))
         (@Engine.rawValues Engine.binary64 data matrix) ->
  Engine.value64 diff = Some d ->
  Engine.value64 mid = Some m ->
  Engine.value64 t = Some (if Qcgtb x 0 then m + d else m - d) ->
  exists p, @Engine.calcMotorValues Engine.binary64 data matrix diff mid !! i = Some p /\
            Engine.value64 p = Some (if Qcgtb x 0 then m + d else m - d).
Proof. apply (mix_saturates _ binary64_faithful). Qed.

(** ** Sticks within their travel, on binary64 *)

Lemma value64_literals :
  Engine.value64 (Engine.literal64 0) = Some (Qc_of_Z 0) /\
  Engine.value64 (Engine.literal64 (-1)) = Some (Qc_of_Z (-1)) /\
  Engine.value64 (Engine.literal64 2) = Some (Qc_of_Z 2) /\
  Engine.value64 (Engine.literal64 3) = Some (Qc_of_Z 3) /\
  Engine.value64 (Engine.literal64 400) = Some (Qc_of_Z 400) /\
  Engine.value64 (Engine.literal64 1550) = Some (Qc_of_Z 1550) /\
  Engine.value64 (Engine.literal64 1150) = Some (Qc_of_Z 1150) /\
  Engine.value64 (Engine.literal64 1950) = Some (Qc_of_Z 1950).
Proof. repeat split; value64_closed. Qed.

Lemma literal_within_unit (z : Z) :
  z = 1%Z \/ z = (-1)%Z -> @within Engine.binary64 Engine.value64 1 (Engine.literal64 z).
Proof.
  intros [->| ->].
  - exists 1. split; [apply value64_one|by vm_compute].
  - exists (Qc_of_Z (-1)). split; [apply value64_literals|by vm_compute].
Qed.

(** A row of three directions, each 1 or -1, against three sticks
    within their travel: the raw sum is finite. *)
Lemma rawValue_three (a b c : PrimFloat.float) (i j k : Z) :
  i = 1%Z \/ i = (-1)%Z -> j = 1%Z \/ j = (-1)%Z -> k = 1%Z \/ k = (-1)%Z ->
  @within Engine.binary64 Engine.value64 1 a ->
  @within Engine.binary64 Engine.value64 1 b ->
  @within Engine.binary64 Engine.value64 1 c ->
  is_Some (Engine.value64 (@Engine.rawValue Engine.binary64 [a; b; c]
                             [Engine.literal64 i; Engine.literal64 j; Engine.literal64 k])).
Proof.
  intros Hi Hj Hk Ha Hb Hc.
  destruct value64_literals as (H0 & _ & H2 & H3 & _).
  pose proof (product_within _ binary64_faithful _ _ _ 1
                (literal_within_unit i Hi) Ha value64_one) as Hpa.
  pose proof (product_within _ binary64_faithful _ _ _ 1
                (literal_within_unit j Hj) Hb value64_one) as Hpb.
  pose proof (product_within _ binary64_faithful _ _ _ 1
                (literal_within_unit k Hk) Hc value64_one) as Hpc.
  assert (Hzero : @within Engine.binary64 Engine.value64 0 (Engine.literal64 0)).
  { exists (Qc_of_Z 0). split; [done|by vm_compute]. }
  pose proof (sum_within _ binary64_faithful _ _ _ _ _ _ Hzero Hpa value64_one
                ltac:(by vm_compute)) as H1s.
  pose proof (sum_within _ binary64_faithful _ _ _ _ _ _ H1s Hpb H2
                ltac:(by vm_compute)) as H2s.
  destruct (sum_within _ binary64_faithful _ _ _ _ _ _ H2s Hpc H3
              ltac:(by vm_compute)) as (x & Hx & _).
  by exists x.
Qed.

Lemma rawValue_two (a b : PrimFloat.float) (i j : Z) :
  i = 1%Z \/ i = (-1)%Z -> j = 1%Z \/ j = (-1)%Z ->
  @within Engine.binary64 Engine.value64 1 a ->
  @within Engine.binary64 Engine.value64 1 b ->
  is_Some (Engine.value64 (@Engine.rawValue Engine.binary64 [a; b]
                             [Engine.literal64 i; Engine.literal64 j])).
Proof.
  intros Hi Hj Ha Hb.
  destruct value64_literals as (H0 & _ & H2 & _).
  pose proof (product_within _ binary64_faithful _ _ _ 1
                (literal_within_unit i Hi) Ha value64_one) as Hpa.
  pose proof (product_within _ binary64_faithful _ _ _ 1
                (literal_within_unit j Hj) Hb value64_one) as Hpb.
  assert (Hzero : @within Engine.binary64 Engine.value64 0 (Engine.literal64 0)).
  { exists (Qc_of_Z 0). split; [done|by vm_compute]. }
  pose proof (sum_within _ binary64_faithful _ _ _ _ _ _ Hzero Hpa value64_one
                ltac:(by vm_compute)) as H1s.
  destruct (sum_within _ binary64_faithful _ _ _ _ _ _ H1s Hpb H2
              ltac:(by vm_compute)) as (x & Hx & _).
  by exists x.
Qed.

(** On binary64, whatever finite numbers of [-1, 1] the sticks are at,
    the thrust mix of three axes and the depth mix of two, with the
    default diff 400 and mid 1550, give pulse widths within
    [1150, 1950]. *)
Theorem sticks_within_range (a b c : PrimFloat.float) :
  @within Engine.binary64 Engine.value64 1 a ->
  @within Engine.binary64 Engine.value64 1 b ->
  @within Engine.binary64 Engine.value64 1 c ->
  Forall (@between Engine.binary64 Engine.value64 (Qc_of_Z 1150) (Qc_of_Z 1950))
         (@Engine.calcMotorValues Engine.binary64 [a; b; c] Engine.vectorMapMatrix
            Engine.defaultDiff Engine.defaultMid) /\
  Forall (@between Engine.binary64 Engine.value64 (Qc_of_Z 1150) (Qc_of_Z 1950))
         (@Engine.calcMotorValues Engine.binary64 [a; b] Engine.depthMapMatrix
            Engine.defaultDiff Engine.defaultMid).
Proof.
  intros Ha Hb Hc.
  destruct value64_literals as (_ & _ & _ & _ & H400 & H1550 & H1150 & H1950).
  split.
  - apply (mix_within_range _ binary64_faithful _ _ _ _
             (Engine.literal64 1150) (Engine.literal64 1950)
             (Qc_of_Z 400) (Qc_of_Z 1550));
      [|exact H400|by vm_compute|exact H1550|exact H1150|exact H1950
       |by vm_compute|by vm_compute].
    unfold Engine.rawValues, Engine.vectorMapMatrix. cbn [map].
    apply Forall_cons; split;
      [apply (rawValue_three a b c 1 1 1); first [by left|by right|done]|].
    apply Forall_cons; split;
      [apply (rawValue_three a b c 1 (-1) (-1)); first [by left|by right|done]|].
    apply Forall_cons; split;
      [apply (rawValue_three a b c 1 1 (-1)); first [by left|by right|done]|].
    apply Forall_cons; split;
      [apply (rawValue_three a b c 1 (-1) 1); first [by left|by right|done]|].
    apply Forall_nil_2.
  - apply (mix_within_range _ binary64_faithful _ _ _ _
             (Engine.literal64 1150) (Engine.literal64 1950)
             (Qc_of_Z 400) (Qc_of_Z 1550));
      [|exact H400|by vm_compute|exact H1550|exact H1150|exact H1950
       |by vm_compute|by vm_compute].
    unfold Engine.rawValues, Engine.depthMapMatrix. cbn [map].
    apply Forall_cons; split;
      [apply (rawValue_two a b 1 (-1)); first [by left|by right|done]|].
    apply Forall_cons; split;
      [apply (rawValue_two a b (-1) (-1)); first [by left|by right|done]|].
    apply Forall_nil_2.
Qed.


(** ** The stick grid on binary64 *)

Lemma forallb_elem_of {A : Type} (f : A -> bool) (l : list A) (x : A) :
  forallb f l = true -> x ∈ l -> f x = true.
Proof. intros Hall Hx. rewrite forallb_forall in Hall. by apply Hall, list_elem_of_In. Qed.

(** On binary64 itself, whatever positions k/16 the sticks are at, the
    thrust mix and the depth mix give pulse widths within [1150, 1950]. *)
Theorem stick_grid_within_range :
  (forall a b c, a ∈ stickPositions -> b ∈ stickPositions -> c ∈ stickPositions ->
     mixInRange (@Engine.vectorMapMatrix Engine.binary64) [a; b; c] = true) /\
  (forall a b, a ∈ stickPositions -> b ∈ stickPositions ->
     mixInRange (@Engine.depthMapMatrix Engine.binary64) [a; b] = true).
Proof.
  assert (Hvector : forallb (fun a => forallb (fun b => forallb (fun c =>
                      mixInRange (@Engine.vectorMapMatrix Engine.binary64) [a; b; c])
                      stickPositions) stickPositions) stickPositions = true)
    by (vm_compute; reflexivity).
  assert (Hdepth : forallb (fun a => forallb (fun b =>
                     mixInRange (@Engine.depthMapMatrix Engine.binary64) [a; b])
                     stickPositions) stickPositions = true)
    by (vm_compute; reflexivity).
  split.
  - intros a b c Ha Hb Hc.
    apply (forallb_elem_of _ _ a) in Hvector; [|done].
    apply (forallb_elem_of _ _ b) in Hvector; [|done].
    by apply (forallb_elem_of _ _ c) in Hvector.
  - intros a b Ha Hb.
    apply (forallb_elem_of _ _ a) in Hdepth; [|done].
    by apply (forallb_elem_of _ _ b) in Hdepth.
Qed.

Section Mixing.

Context {platform : Platform}.

(** ** More on the mixing engine *)

Lemma rowSum_zero (row : list Qc) (n : nat) : rowSum row (replicate n 0) = 0.
Proof.
  unfold rowSum. revert n. induction row as [|d row IH]; intros [|n]; simpl; try done.
  rewrite IH. ring.
Qed.

(** Neutral sticks give the neutral pulse on every channel, whatever the
    matrix and the range. *)
Theorem calcMotorValues_neutral (n : nat) (m : list (list Qc)) (diff mid : Qc) :
  Forall (fun row => (length row <= n)%nat) m ->
  calcMotorValues (dofVector (replicate n 0)) (coefficients m) (Num diff) (Num mid)
  = map (fun _ => Num mid) m.
Proof.
  intros Hshape. rewrite calcMotorValues_numeric by (by rewrite length_replicate).
  rewrite maxAbs_unit.
  - apply map_ext. intros row. rewrite rowSum_zero. f_equal. field. apply Q_apart_0_1.
  - apply Forall_map, Forall_forall. intros row _. simpl. rewrite rowSum_zero.
    by vm_compute.
Qed.

Lemma lookup_map {A B : Type} (f : A -> B) (l : list A) (i : nat) :
  map f l !! i = f <$> l !! i.
Proof. change (map f l) with (f <$> l). apply list_lookup_fmap. Qed.

Lemma reduceFrom_NaN (data : list jsval) (row : list jsnum) : forall (i : nat),
  reduceFrom (fun sum dir index => jsadd sum (jsmul dir (toNumber (arrGet data index))))
             row i NaN = NaN.
Proof. induction row as [|d row IH]; intros i; simpl; [done|apply IH]. Qed.

Lemma rawValue_past_end (v : list Qc) (row : list Qc) : forall (i : nat) (acc : jsnum),
  (i <= length v)%nat -> (length v < i + length row)%nat ->
  reduceFrom (fun sum dir index =>
                jsadd sum (jsmul dir (toNumber (arrGet (dofVector v) index))))
             (map Num row) i acc = NaN.
Proof.
  induction row as [|d row IH]; intros i acc Hi Hlen; simpl in *; [lia|].
  destruct (decide (i = length v)) as [->|Hne].
  - assert (Hget : arrGet (dofVector v) (length v) = JUndefined).
    { unfold arrGet, dofVector. rewrite lookup_map.
      by rewrite (lookup_ge_None_2 v (length v)). }
    rewrite Hget. simpl.
    replace (jsadd acc NaN) with NaN by (by destruct acc). apply reduceFrom_NaN.
  - apply IH; lia.
Qed.

(** A row that reaches past the end of the DOF vector reads [undefined]
    there, and its channel comes out as [NaN]. *)
Theorem calcMotorValues_row_past_end (v : list Qc) (m : list (list Qc)) (diff mid : jsnum)
    (i : nat) (row : list Qc) :
  m !! i = Some row ->
  (length v < length row)%nat ->
  calcMotorValues (dofVector v) (coefficients m) diff mid !! i = Some NaN.
Proof.
  intros Hrow Hlen. unfold calcMotorValues, rawValues, coefficients.
  rewrite !lookup_map, Hrow. simpl.
  unfold rawValue, reduce. rewrite rawValue_past_end by lia. reflexivity.
Qed.

(** ** The correction of the depth lock *)

(** For numeric pressures the correction is a number of [-1, 1]: it is 1
    from an error of 30 up and -1 from an error of -30 down. *)
Theorem depthCorrection_clamped (target reading : Qc) :
  exists q : Qc,
    depthCorrection (JNum (Num target)) (JNum (Num reading)) = Num q /\
    - (1) <= q /\ q <= 1 /\
    (Qc_of_Z 30 <= target - reading -> q = 1) /\
    (target - reading <= - Qc_of_Z 30 -> q = - (1)).
Proof.
  assert (H30 : 0 < Qc_of_Z 30) by (by vm_compute).
  assert (Hne : Qc_of_Z 30 <> 0) by (intros H; rewrite H in H30; by destruct (Qclt_not_eq 0 0)).
  assert (Hm1 : Qc_of_Z (-1) = - (1)) by (by apply Qc_is_canon).
  assert (Hle : - (1) <= 1) by (by vm_compute).
  assert (Hscale : forall x y : Qc, x <= y -> x / Qc_of_Z 30 <= y / Qc_of_Z 30).
  { intros x y Hxy. apply Qcmult_le_compat_r; [done|]. by apply Qcinv_nonneg. }
  assert (Hunit : Qc_of_Z 30 / Qc_of_Z 30 = 1) by (by field).
  assert (Hnunit : - Qc_of_Z 30 / Qc_of_Z 30 = - (1)) by (by field).
  set (e := target - reading).
  unfold depthCorrection, nz. simpl. fold e.
  rewrite Hm1, Qc_of_Z_1.
  destruct (Qcgtb (e / Qc_of_Z 30) (- (1))) eqn:Hlow.
  - apply Qcgtb_true in Hlow.
    destruct (Qcgtb (e / Qc_of_Z 30) 1) eqn:Hhigh.
    + apply Qcgtb_true in Hhigh. exists 1.
      split; [reflexivity|]. split; [exact Hle|]. split; [apply Qcle_refl|].
      split; [done|].
      intros Hneg. apply Hscale in Hneg. rewrite Hnunit in Hneg.
      by destruct (Qclt_not_le _ _ Hlow).
    + apply Qcgtb_false in Hhigh. exists (e / Qc_of_Z 30).
      split; [reflexivity|]. split; [by apply Qclt_le_weak|]. split; [exact Hhigh|].
      split.
      * intros Hpos. apply Hscale in Hpos. rewrite Hunit in Hpos.
        by apply Qcle_antisym.
      * intros Hneg. apply Hscale in Hneg. rewrite Hnunit in Hneg.
        by destruct (Qclt_not_le _ _ Hlow).
  - apply Qcgtb_false in Hlow.
    replace (Qcgtb (- (1)) 1) with false by done.
    exists (- (1)).
    split; [reflexivity|]. split; [apply Qcle_refl|]. split; [exact Hle|].
    split; [|done].
    intros Hpos. apply Hscale in Hpos. rewrite Hunit in Hpos.
    assert (H : 1 <= - (1)) by (by eapply Qcle_trans).
    by vm_compute in H.
Qed.

(** ** The two embeddings of the mixing computation

    On a vector of numbers, [calcMotorValues] as the handlers use it is
    [Engine.calcMotorValues] over exact arithmetic. *)
Lemma calcMotorValues_exact_agrees (v : list Qc) (matrix : list (list jsnum))
    (diff mid : jsnum) :
  @Engine.calcMotorValues Engine.exact (map Num v) matrix diff mid
  = calcMotorValues (dofVector v) matrix diff mid.
Proof.
  assert (Hoperand : forall index,
            @Engine.operand Engine.exact (map Num v) index
            = toNumber (arrGet (dofVector v) index)).
  { intros index. unfold Engine.operand, arrGet, dofVector. rewrite !lookup_map.
    by destruct (v !! index). }
  assert (Hraw : forall row index sum,
            reduceFrom (fun sum dir index =>
                          @Engine.add Engine.exact sum
                            (@Engine.mul Engine.exact dir
                               (@Engine.operand Engine.exact (map Num v) index)))
                       row index sum
            = reduceFrom (fun sum dir index =>
                            jsadd sum (jsmul dir (toNumber (arrGet (dofVector v) index))))
                         row index sum).
  { induction row as [|dir row IH]; intros index sum; simpl; [done|].
    by rewrite Hoperand, IH. }
  assert (Hraws : @Engine.rawValues Engine.exact (map Num v) matrix
                  = rawValues (dofVector v) matrix).
  { unfold Engine.rawValues, rawValues. apply map_ext. intros row.
    unfold Engine.rawValue, rawValue, reduce. apply Hraw. }
  unfold Engine.calcMotorValues, calcMotorValues. rewrite Hraws. reflexivity.
Qed.

End Mixing.

Section Framing.

Context {platform : Platform}.

(** ** Framing *)

Lemma splitOn_nonempty (sep : ascii) (s : string) : splitOn sep s <> [].
Proof.
  destruct s as [|c s]; simpl; [done|].
  destruct (Ascii.eqb c sep); [done|]. by destruct (splitOn sep s).
Qed.

Lemma splitOn_join (sep : ascii) (s : string) :
  String.concat (String sep EmptyString) (splitOn sep s) = s.
Proof.
  induction s as [|c s IH]; simpl; [done|].
  destruct (Ascii.eqb_spec c sep) as [->|Hne].
  - pose proof (splitOn_nonempty sep s) as Hne.
    destruct (splitOn sep s) as [|piece pieces]; [done|].
    simpl in *. by rewrite IH.
  - pose proof (splitOn_nonempty sep s) as Hnil.
    destruct (splitOn sep s) as [|piece pieces]; [done|].
    simpl in *. destruct pieces; simpl in *; by rewrite <- IH.
Qed.

Lemma splitOn_free (sep : ascii) (s : string) :
  Forall (fun piece => hasChar sep piece = false) (splitOn sep s).
Proof.
  induction s as [|c s IH]; simpl; [by repeat constructor|].
  destruct (Ascii.eqb c sep) eqn:Hc.
  - by constructor.
  - pose proof (splitOn_nonempty sep s) as Hnil.
    destruct (splitOn sep s) as [|piece pieces]; [done|].
    apply Forall_cons in IH as [Hpiece Hpieces].
    constructor; [|done]. simpl. by rewrite Hc.
Qed.

Lemma splitOn_concat (sep : ascii) (s : string) :
  String.concat EmptyString (splitOn sep s) = withoutChar sep s.
Proof.
  induction s as [|c s IH]; simpl; [done|].
  pose proof (splitOn_nonempty sep s) as Hnil.
  destruct (Ascii.eqb c sep).
  - destruct (splitOn sep s) as [|piece pieces]; [done|]. simpl in *. by rewrite IH.
  - destruct (splitOn sep s) as [|piece pieces]; [done|].
    simpl in *. destruct pieces; simpl in *; by rewrite <- IH.
Qed.

Lemma replaceBoundaries_pair (c c' : ascii) (s : string) :
  replaceBoundaries (String c (String c' s))
  = if (Ascii.eqb c "}"%char && Ascii.eqb c' "{"%char)%bool
    then String "}"%char (String "|"%char (String "{"%char (replaceBoundaries s)))
    else String c (replaceBoundaries (String c' s)).
Proof. reflexivity. Qed.

Lemma hasBoundary_pair (c c' : ascii) (s : string) :
  hasBoundary (String c (String c' s))
  = ((Ascii.eqb c "}"%char && Ascii.eqb c' "{"%char) || hasBoundary (String c' s))%bool.
Proof. reflexivity. Qed.

Lemma withoutChar_replaceBoundaries (s : string) :
  withoutChar "|"%char (replaceBoundaries s) = withoutChar "|"%char s.
Proof.
  assert (H : forall n s, (String.length s <= n)%nat ->
            withoutChar "|"%char (replaceBoundaries s) = withoutChar "|"%char s).
  { clear s. induction n as [|n IH]; intros [|c [|c' s]] Hlen; try done;
      try (simpl in Hlen; lia).
    rewrite replaceBoundaries_pair.
    destruct (Ascii.eqb c "}"%char && Ascii.eqb c' "{"%char)%bool eqn:Hpair.
    - apply andb_true_iff in Hpair as [Hc Hc'].
      apply Ascii.eqb_eq in Hc, Hc'. subst c c'.
      cbn [withoutChar Ascii.eqb Bool.eqb]. f_equal. f_equal.
      apply IH. simpl in Hlen. lia.
    - change (withoutChar "|"%char (String c (replaceBoundaries (String c' s))))
        with (if Ascii.eqb c "|"%char
              then withoutChar "|"%char (replaceBoundaries (String c' s))
              else String c (withoutChar "|"%char (replaceBoundaries (String c' s)))).
      rewrite (IH (String c' s)) by (simpl in *; lia). reflexivity. }
  by apply (H (String.length s)).
Qed.

(** No text holds the separator, there is always at least one text, and
    the texts put end to end are the chunk without its [|] characters:
    framing adds nothing and loses nothing else. *)
Theorem tokenTexts_partition (data : string) :
  tokenTexts data <> [] /\
  Forall (fun text => hasChar "|"%char text = false) (tokenTexts data) /\
  String.concat EmptyString (tokenTexts data) = withoutChar "|"%char data.
Proof.
  unfold tokenTexts. split; [apply splitOn_nonempty|]. split; [apply splitOn_free|].
  by rewrite splitOn_concat, withoutChar_replaceBoundaries.
Qed.

Lemma replaceBoundaries_clean (s : string) :
  hasBoundary s = false -> replaceBoundaries s = s.
Proof.
  induction s as [|c s IH]; [done|]. destruct s as [|c' s]; [done|].
  intros H. rewrite hasBoundary_pair in H.
  apply orb_false_iff in H as [Hpair Hrest].
  rewrite replaceBoundaries_pair, Hpair. f_equal. by apply IH.
Qed.

Lemma splitOn_clean (sep : ascii) (s : string) :
  hasChar sep s = false -> splitOn sep s = [s].
Proof.
  induction s as [|c s IH]; simpl; [done|].
  intros H. apply orb_false_iff in H as [Hc Hs].
  rewrite Hc, IH by done. reflexivity.
Qed.

(** A chunk with no [|] and no brace boundary is one text. *)
Theorem tokenTexts_single (data : string) :
  hasChar "|"%char data = false ->
  hasBoundary data = false ->
  tokenTexts data = [data].
Proof.
  intros Hpipe Hboundary. unfold tokenTexts.
  rewrite replaceBoundaries_clean by done. by apply splitOn_clean.
Qed.

Lemma replaceBoundaries_glued (a b : string) :
  hasBoundary a = false ->
  replaceBoundaries (a ++ "}{" ++ b)%string = (a ++ "}|{" ++ replaceBoundaries b)%string.
Proof.
  induction a as [|c a IH]; intros Ha; [done|].
  assert (Hrest : hasBoundary a = false).
  { destruct a as [|c' a]; [done|].
    rewrite hasBoundary_pair in Ha.
    by apply orb_false_iff in Ha as [_ Ha]. }
  destruct a as [|c' a].
  - simpl. replace (Ascii.eqb c "}"%char && false)%bool with false
      by (by destruct (Ascii.eqb c "}"%char)).
    reflexivity.
  - rewrite hasBoundary_pair in Ha.
    apply orb_false_iff in Ha as [Hpair _].
    change (replaceBoundaries (String c (String c' a) ++ "}{" ++ b)%string)
      with (replaceBoundaries (String c (String c' (a ++ "}{" ++ b)%string))).
    rewrite replaceBoundaries_pair, Hpair.
    change (String c (replaceBoundaries (String c' a ++ "}{" ++ b)%string)
            = String c (String c' a ++ "}|{" ++ replaceBoundaries b)%string).
    f_equal. by apply IH.
Qed.

Lemma splitOn_app (sep : ascii) (a b : string) :
  hasChar sep a = false ->
  splitOn sep (a ++ String sep b)%string = a :: splitOn sep b.
Proof.
  induction a as [|c a IH]; simpl.
  - intros _. by rewrite Ascii.eqb_refl.
  - intros H. apply orb_false_iff in H as [Hc Ha].
    rewrite Hc, IH by done. reflexivity.
Qed.

(** Two objects written back to back come apart at the brace boundary
    between them. *)
Theorem tokenTexts_two (a b : string) :
  hasChar "|"%char a = false ->
  hasChar "|"%char b = false ->
  hasBoundary a = false ->
  hasBoundary b = false ->
  tokenTexts (a ++ "}{" ++ b)%string = [(a ++ "}")%string; ("{" ++ b)%string].
Proof.
  intros Hpa Hpb Hba Hbb. unfold tokenTexts.
  rewrite replaceBoundaries_glued, (replaceBoundaries_clean b) by done.
  assert (Hcut : (a ++ "}|{" ++ b = (a ++ "}") ++ String "|"%char ("{" ++ b))%string).
  { clear. induction a as [|c a IH]; [done|].
    change (String c (a ++ "}|{" ++ b)%string
            = String c ((a ++ "}") ++ String "|"%char ("{" ++ b))%string).
    by rewrite IH. }
  rewrite Hcut, splitOn_app.
  - f_equal. apply splitOn_clean. simpl. exact Hpb.
  - clear -Hpa. induction a as [|c a IH]; simpl in *; [done|].
    apply orb_false_iff in Hpa as [Hc Ha]. by rewrite Hc, IH.
Qed.

End Framing.

Section Dispatch.

Context {platform : Platform}.

#[local] Arguments propOf : simpl never.
#[local] Arguments ownsOf : simpl never.

(** ** Dispatch *)

(** A text that parses to [null] makes the read of its [type] throw:
    the exception leaves the loop over the texts, and the texts after it
    in the chunk are not handled. *)
Theorem null_text_aborts_chunk (text : string) (rest : list string) (w : World) :
  parseJSON text = Some JNull ->
  forEach onDatum (text :: rest) w
  = (Throw (TypeError "cannot read property type"), w, [Logged LogD "message"]).
Proof.
  intros Hparse. simpl. unfold bind at 1. unfold onDatum. rewrite Hparse.
  unfold_monad. reflexivity.
Qed.



Lemma emit_error_unheard (listeners : list listener) (datum : jsval) :
  "error" ∉ map (fun l : listener => toString l.1) listeners ->
  emit listeners (JStr "error") datum = throw (UnhandledError datum).
Proof.
  intros Hkey. unfold emit. change (toString (JStr "error")) with "error".
  by rewrite (filter_no_listener _ _ Hkey).
Qed.

#[local] Opaque emit.


(** A token of type ["error"], for which the script registers no
    listener, is thrown by the emitter: the rest of the chunk is not
    handled. *)
Theorem error_token_aborts_chunk (text : string) (v : jsval) (rest : list string) (w : World) :
  parseJSON text = Some v ->
  propOf v "type" = Ret (JStr "error") ->
  "error" ∉ registeredKeys ->
  forEach onDatum (text :: rest) w
  = (Throw (UnhandledError v), w, [Logged LogD "message"]).
Proof.
  intros Hparse Htype Hkey. simpl. unfold bind at 1. unfold onDatum. rewrite Hparse.
  unfold_monad. simpl. rewrite Htype. by rewrite emit_error_unheard.
Qed.

#[local] Transparent emit.


End Dispatch.

Section Handlers.

Context {platform : Platform}.

#[local] Arguments propOf : simpl never.
#[local] Arguments ownsOf : simpl never.

(** ** Streams and session *)

(** Stopping a stream cancels the timer registered under its name, if
    there is one, and acknowledges either way; the stale handle stays in
    the intervals object. *)
Theorem stop_stream_cancels (data headers tid : jsval) (w : World) (socket : nat) :
  propOf data "headers" = Ret headers ->
  propOf headers "transactionID" = Ret tid ->
  client w = Some socket ->
  stopMagStream data w
  = (Ret tt,
     setWritten (written w ++ [(socket, mkResponse (JObj []) tid)]) (cancelled "mag" w),
     [Logged LogD "message"]) /\
  stopPiTempStream data w
  = (Ret tt,
     setWritten (written w ++ [(socket, mkResponse (JObj []) tid)]) (cancelled "piTemp" w),
     [Logged LogD "message"]).
Proof.
  intros Hh Ht Hc. split.
  - unfold stopMagStream, respondTo, sendToken, cancelled. unfold_monad.
    destruct (intervals w !! "mag"); simpl; rewrite Hh; simpl; rewrite Ht; simpl;
      by rewrite Hc.
  - unfold stopPiTempStream, respondTo, sendToken, cancelled. unfold_monad.
    destruct (intervals w !! "piTemp"); simpl; rewrite Hh; simpl; rewrite Ht; simpl;
      by rewrite Hc.
Qed.

Lemma forEach_clearInterval (ids : list nat) : forall (w : World),
  forEach (fun interval => clearInterval (Some interval)) ids w
  = (Ret tt, setTimers (foldl (fun t id => delete id t) (timers w) ids) (nextTimer w) w, []).
Proof.
  induction ids as [|id ids IH]; intros w; simpl.
  - unfold ret. by destruct w.
  - unfold bind, clearInterval, modify. rewrite IH. reflexivity.
Qed.

Lemma lookup_foldl_delete (ids : list nat) : forall (t : gmap nat timer) (id : nat),
  foldl (fun t id => delete id t) t ids !! id
  = if decide (id ∈ ids) then None else t !! id.
Proof.
  induction ids as [|id' ids IH]; intros t id; simpl.
  - destruct (decide (id ∈ [])) as [Hin|_]; [by apply elem_of_nil in Hin|done].
  - rewrite IH.
    destruct (decide (id ∈ ids)) as [Hin|Hnin],
             (decide (id ∈ id' :: ids)) as [Hin'|Hnin']; try done.
    + destruct Hnin'. by right.
    + apply elem_of_cons in Hin' as [->|Hin']; [apply lookup_delete_eq|done].
    + apply lookup_delete_ne. intros ->. apply Hnin'. by left.
Qed.

(** A disconnect clears the session reference and takes every timer
    whose handle is in the intervals object off the event loop; a timer
    whose handle is not there goes on. *)
Theorem onClientDisconnect_clears_registered (w : World) :
  result (onClientDisconnect w) = Ret tt /\
  client (world (onClientDisconnect w)) = None /\
  written (world (onClientDisconnect w)) = written w /\
  (forall name id, intervals w !! name = Some id ->
                   timers (world (onClientDisconnect w)) !! id = None) /\
  (forall id, (forall name, intervals w !! name <> Some id) ->
              timers (world (onClientDisconnect w)) !! id = timers w !! id).
Proof.
  assert (Hrun : onClientDisconnect w
          = (Ret tt,
             setClient None
               (setTimers (foldl (fun t id => delete id t) (timers w)
                                 (map_to_list (intervals w)).*2)
                          (nextTimer w) w),
             [Logged LogI "connection"])).
  { unfold onClientDisconnect. unfold bind at 1. unfold logger, emitEvent.
    unfold bind at 1. unfold gets. unfold bind at 1.
    rewrite forEach_clearInterval. reflexivity. }
  rewrite Hrun. unfold result, world. simpl. repeat split.
  - intros name id Hid. rewrite lookup_foldl_delete.
    destruct (decide (id ∈ (map_to_list (intervals w)).*2)) as [_|Hnin]; [done|].
    destruct Hnin. apply list_elem_of_fmap. exists (name, id). split; [done|].
    by apply elem_of_map_to_list.
  - intros id Hid. rewrite lookup_foldl_delete.
    destruct (decide (id ∈ (map_to_list (intervals w)).*2)) as [Hin|_]; [|done].
    apply list_elem_of_fmap in Hin as [[name id'] [Heq Hin]].
    simpl in Heq. subst id'. apply elem_of_map_to_list in Hin. by destruct (Hid name).
Qed.

(** ** LED test *)

(** Outside debug mode both LED channels get the duty cycle
    [(body + 1) / 2] as the arithmetic computes it, a number of [0, 1]
    for a body in [-1, 1], and the request is acknowledged; in debug
    mode nothing happens and nothing is acknowledged. *)
Theorem setLEDBrightness_duty (data headers tid : jsval) (x : Qc) (w : World) (socket : nat) :
  propOf data "body" = Ret (JNum (Num x)) ->
  propOf data "headers" = Ret headers ->
  propOf headers "transactionID" = Ret tid ->
  client w = Some socket ->
  (debug w = false ->
   setLEDBrightness data w
   = (Ret tt,
      setWritten (written w ++ [(socket, mkResponse (JObj []) tid)])
        (setDuties (duties w ++ [(5%Z, jsdiv (jsadd (Num x) (nz 1)) (nz 2));
                                 (6%Z, jsdiv (jsadd (Num x) (nz 1)) (nz 2))]) w),
      [Logged LogD "LEDTest"; Logged LogD "LEDTest"; Logged LogD "message"])) /\
  (debug w = true -> setLEDBrightness data w = (Ret tt, w, [])) /\
  (- (1) <= x -> x <= 1 ->
   exists duty, jsdiv (jsadd (Num x) (nz 1)) (nz 2) = Num duty /\ 0 <= duty /\ duty <= 1).
Proof.
  intros Hb Hh Ht Hc.
  assert (H2 : Qc_of_Z 2 = 1 + 1) by (by apply Qc_is_canon).
  assert (Hpos : (0 : Qc) < 1 + 1) by (by vm_compute).
  split; [|split].
  - intros Hdbg. unfold setLEDBrightness, respondTo, sendToken, LEDChannels, forEach.
    unfold_monad. rewrite Hdbg. simpl. rewrite Hb. simpl. rewrite Hh. simpl.
    rewrite Ht. simpl. rewrite Hc. simpl.
    unfold setWritten, setDuties. simpl.
    by rewrite <- app_assoc.
  - intros Hdbg. unfold setLEDBrightness. unfold_monad. by rewrite Hdbg.
  - intros Hlo Hhi. exists ((x + 1) / (1 + 1)). split.
    { unfold nz. simpl. rewrite Qc_of_Z_1, H2.
      replace (Qceqb (1 + 1) 0) with false by done. reflexivity. }
    assert (Hinv : 0 <= / (1 + 1)) by (by apply Qcinv_nonneg).
    assert (Hzero : 0 * / (1 + 1) = 0) by ring.
    assert (Hone : (1 + 1) * / (1 + 1) = 1) by (field; by vm_compute).
    assert (Hneg : - (1) + 1 = 0) by ring.
    unfold Qcdiv. split.
    + rewrite <- Hzero. apply Qcmult_le_compat_r; [|done].
      rewrite <- Hneg. by apply Qcplus_le_compat; [|apply Qcle_refl].
    + apply Qcle_trans with ((1 + 1) * / (1 + 1)); [|rewrite Hone; apply Qcle_refl].
      apply Qcmult_le_compat_r; [|done]. by apply Qcplus_le_compat; [|apply Qcle_refl].
Qed.

(** ** Depth lock *)

(** In debug mode the pressure sensor is missing: engaging the lock sets
    the flag, then fails before any timer is registered, any response is
    written or anything is awaited. *)
Theorem setDepthLock_debug_never_engages (data b : jsval) (w : World) :
  debug w = true ->
  propOf data "body" = Ret b ->
  truthy b = true ->
  setDepthLock data w
  = (Ret tt, setDepthLockToggle (JBool true) (cancelled "depthLock" w),
     [Rejection (TypeError "depthSlave.getPressure is not a function")]).
Proof.
  intros Hdbg Hb Htruthy. unfold setDepthLock, getPressure, cancelled. unfold_monad.
  destruct (intervals w !! "depthLock"); simpl; rewrite Hb; simpl; rewrite Htruthy; simpl;
    by rewrite Hdbg.
Qed.

(** Outside debug mode engaging parks on the sensor; when the reading
    arrives it becomes the target, exactly one 100 ms depthLoop timer is
    registered under a fresh handle, and the request is acknowledged. *)
Theorem setDepthLock_engages (data headers tid reading : jsval) (w : World) (socket : nat) :
  propOf data "headers" = Ret headers ->
  propOf headers "transactionID" = Ret tid ->
  client w = Some socket ->
  setDepthLockResume data reading w
  = (Ret tt,
     setWritten (written w ++ [(socket, mkResponse (JObj []) tid)])
       (setIntervals (<["depthLock" := nextTimer w]> (intervals w))
          (setTimers (<[nextTimer w := mkTimer DepthLoop (jn 100) JUndefined]> (timers w))
                     (S (nextTimer w))
                     (setTargetPressure reading w))),
     [Logged LogI "depth lock"; Logged LogD "message"]).
Proof.
  intros Hh Ht Hc. unfold setDepthLockResume, respondTo, sendToken. unfold_monad. simpl.
  rewrite Hh. simpl. rewrite Ht. simpl. by rewrite Hc.
Qed.

(** ** Electromagnet *)

(** Switching the magnet off writes to the slave and acknowledges at
    once; switching it on writes and parks, the acknowledgement is
    written when the slave answers and never if it does not. *)
Theorem specialElectromag_acknowledges (data b headers tid : jsval) (w : World) (socket : nat) :
  debug w = false ->
  propOf data "body" = Ret b ->
  propOf data "headers" = Ret headers ->
  propOf headers "transactionID" = Ret tid ->
  client w = Some socket ->
  (truthy b = false ->
   specialElectromag data w
   = (Ret tt,
      setWritten (written w ++ [(socket, mkResponse (JObj []) tid)])
        (setMagnet (magnet w ++ [false]) w),
      [Logged LogD "electromag"; Logged LogD "message"])) /\
  (truthy b = true ->
   specialElectromag data w
   = (Ret tt,
      setSuspended (suspended w ++ [AwaitElectromagOn data])
        (setMagnet (magnet w ++ [true]) w),
      [Logged LogD "electromag"])) /\
  (forall reply, resume (AwaitElectromagOn data) (Some reply) w
                 = (Ret tt, setWritten (written w ++ [(socket, mkResponse (JObj []) tid)]) w,
                    [Logged LogD "message"])) /\
  world (resume (AwaitElectromagOn data) None w) = w.
Proof.
  intros Hdbg Hb Hh Ht Hc. split; [|split; [|split; [|reflexivity]]].
  - intros Hfalsy. unfold specialElectromag, electromagWrite, respondTo, sendToken.
    unfold_monad. simpl. rewrite Hb. simpl. rewrite Hfalsy. simpl. rewrite Hdbg. simpl.
    rewrite Hh. simpl. rewrite Ht. simpl. by rewrite Hc.
  - intros Htruthy. unfold specialElectromag, electromagWrite. unfold_monad. simpl.
    rewrite Hb. simpl. rewrite Htruthy. simpl. by rewrite Hdbg.
  - intros reply. unfold resume, specialElectromagResume, respondTo, sendToken.
    unfold_monad. simpl. rewrite Hh. simpl. rewrite Ht. simpl. by rewrite Hc.
Qed.

(** ** Pitch and depth from the controller *)

#[local] Opaque calcMotorValues.



#[local] Transparent calcMotorValues.

(** ** Telemetry *)

(** A tick of the magnetometer stream started by a request: in debug
    mode it draws heading, pitch and roll in this order and sends them
    under the stream's own transaction identifier; outside debug mode it
    does nothing at all. *)
Theorem mag_stream_tick (data b ms headers tid : jsval) (w : World) (socket : nat) :
  propOf data "body" = Ret b ->
  propOf b "interval" = Ret ms ->
  propOf data "headers" = Ret headers ->
  propOf headers "transactionID" = Ret tid ->
  client w = Some socket ->
  let started := world (startMagStream data w) in
  written started = written w ++ [(socket, mkResponse (JObj []) tid)] /\
  (debug w = true ->
   fireTimer (nextTimer w) started
   = (Ret tt,
      setWritten (written started
                  ++ [(socket,
                       mkResponse (JObj [("heading", JNum (randomAngle (randomDraws w)));
                                         ("pitch", JNum (randomAngle (S (randomDraws w))));
                                         ("roll", JNum (randomAngle (S (S (randomDraws w)))))])
                                  (MAGDATA responseTypes))])
                 (setRandomDraws (S (S (S (randomDraws w)))) started),
      [Logged LogD "message"])) /\
  (debug w = false -> fireTimer (nextTimer w) started = (Ret tt, started, [])).
Proof.
  intros Hb Hms Hh Ht Hc started.
  assert (Hstarted : startMagStream data w
           = (Ret tt,
              setWritten (written w ++ [(socket, mkResponse (JObj []) tid)])
                (setIntervals (<["mag" := nextTimer w]> (intervals w))
                   (setTimers
                      (<[nextTimer w := mkTimer ReadMag ms (streamToken (MAGDATA responseTypes))]>
                         (timers (cancelled "mag" w)))
                      (S (nextTimer w)) (cancelled "mag" w))),
              [Logged LogD "message"])).
  { unfold startMagStream, respondTo, sendToken, cancelled. unfold_monad.
    destruct (intervals w !! "mag"); simpl; rewrite Hb; simpl; rewrite Hms; simpl;
      rewrite Hh; simpl; rewrite Ht; simpl; by rewrite Hc. }
  assert (Hdebug : debug started = debug w).
  { unfold started. rewrite Hstarted. unfold cancelled.
    by destruct (intervals w !! "mag"). }
  assert (Hclient : client started = Some socket).
  { unfold started. rewrite Hstarted. unfold world, cancelled. simpl.
    by destruct (intervals w !! "mag"). }
  assert (Hdraws : randomDraws started = randomDraws w).
  { unfold started. rewrite Hstarted. unfold cancelled.
    by destruct (intervals w !! "mag"). }
  assert (Htimer : timers started !! nextTimer w
                   = Some (mkTimer ReadMag ms (streamToken (MAGDATA responseTypes)))).
  { unfold started. rewrite Hstarted. unfold world. simpl. apply lookup_insert_eq. }
  split; [|split].
  - unfold started. rewrite Hstarted. unfold world, cancelled. simpl.
    by destruct (intervals w !! "mag").
  - intros Hdbg. unfold fireTimer. unfold gets, bind at 1. rewrite Htimer. simpl.
    unfold readMag, random, respondTo, sendToken, streamToken. unfold_monad. simpl.
    rewrite Hdebug, Hdbg. simpl. rewrite Hclient, Hdraws. reflexivity.
  - intros Hdbg. unfold fireTimer. unfold gets, bind at 1. rewrite Htimer. simpl.
    unfold readMag. unfold_monad. by rewrite Hdebug, Hdbg.
Qed.

(** The Pi temperature request: in debug mode a fixed text is sent at
    once.  Otherwise the function parks on the file read; when the
    content arrives, what is sent is the content as a number divided by
    1000, which is NaN if the content is not a number; when the read
    fails nothing is sent. *)
Theorem readPiTemp_reports_degrees (data headers tid : jsval) (w : World) (socket : nat) :
  propOf data "headers" = Ret headers ->
  propOf headers "transactionID" = Ret tid ->
  client w = Some socket ->
  (debug w = true ->
   readPiTemp data w
   = (Ret tt,
      setWritten (written w ++ [(socket, mkResponse (JStr "6 bajillion degrees") tid)]) w,
      [Logged LogD "message"])) /\
  (debug w = false ->
   readPiTemp data w = (Ret tt, setSuspended (suspended w ++ [AwaitTempFile data]) w, [])) /\
  (forall content,
     resume (AwaitTempFile data) (Some content) w
     = (Ret tt,
        setWritten
          (written w ++ [(socket, mkResponse (JNum (jsdiv (toNumber content) (nz 1000))) tid)])
          w,
        [Logged LogD "message"])) /\
  (forall content, toNumber content = NaN ->
     resume (AwaitTempFile data) (Some content) w
     = (Ret tt, setWritten (written w ++ [(socket, mkResponse (JNum NaN) tid)]) w,
        [Logged LogD "message"])) /\
  written (world (resume (AwaitTempFile data) None w)) = written w.
Proof.
  intros Hh Ht Hc. split; [|split; [|split; [|split; [|reflexivity]]]].
  - intros Hdbg. unfold readPiTemp, respondTo, sendToken. unfold_monad. rewrite Hdbg. simpl.
    rewrite Hh. simpl. rewrite Ht. simpl. by rewrite Hc.
  - intros Hdbg. unfold readPiTemp. unfold_monad. by rewrite Hdbg.
  - intros content. unfold resume, readPiTempResume, respondTo, sendToken.
    unfold_monad. simpl. rewrite Hh. simpl. rewrite Ht. simpl. by rewrite Hc.
  - intros content Hn. unfold resume, readPiTempResume, respondTo, sendToken.
    unfold_monad. simpl. rewrite Hh. simpl. rewrite Ht. simpl. rewrite Hc. simpl.
    by rewrite Hn.
Qed.

(** ** Sessions *)

(** Responses go to the socket that connected last, whatever session
    was stored before: a request handled after a new connection is
    answered on the new socket only. *)
Theorem latest_connection_answers (data b headers tid : jsval) (w : World) (socket : nat) :
  propOf data "body" = Ret b ->
  propOf data "headers" = Ret headers ->
  propOf headers "transactionID" = Ret tid ->
  (onServerConnection socket >> echo data) w
  = (Ret tt,
     setWritten (written w ++ [(socket, mkResponse b tid)]) (setClient (Some socket) w),
     [Logged LogI "connection"; Logged LogD "message"]).
Proof.
  intros Hb Hh Ht. unfold onServerConnection, echo, respondTo, sendToken. unfold_monad.
  simpl. rewrite Hb. simpl. rewrite Hh. simpl. by rewrite Ht.
Qed.

End Handlers.

(** ** Predicates preserved along any run *)

Section Preserved.

Context {platform : Platform}.
Variable I : World -> Prop.

Lemma preserves_ret {A : Type} (a : A) : preserves I (ret a).
Proof. by intros w. Qed.

Lemma preserves_throw {A : Type} (e : exn) : preserves I (throw (A := A) e).
Proof. by intros w. Qed.

Lemma preserves_lift {A : Type} (o : outcome A) : preserves I (lift o).
Proof. by intros w. Qed.

Lemma preserves_gets {A : Type} (f : World -> A) : preserves I (gets f).
Proof. by intros w. Qed.

Lemma preserves_emitEvent (ev : event) : preserves I (emitEvent ev).
Proof. by intros w. Qed.

Lemma preserves_logger (lvl : level) (tag : string) : preserves I (logger lvl tag).
Proof. by intros w. Qed.

Lemma preserves_modify (f : World -> World) :
  (forall w, I w -> I (f w)) -> preserves I (modify f).
Proof. intros H w. apply H. Qed.

Lemma preserves_bind {A B : Type} (m : M A) (f : A -> M B) :
  preserves I m -> (forall a, preserves I (f a)) -> preserves I (bind m f).
Proof.
  intros Hm Hf w Hw. specialize (Hm w Hw). unfold bind, world in *.
  destruct (m w) as [[[a|e] w1] evs1]; simpl in *; [|done].
  specialize (Hf a w1 Hm). unfold world in Hf.
  by destruct (f a w1) as [[r w2] evs2].
Qed.

Lemma preserves_async (m : M unit) : preserves I m -> preserves I (async m).
Proof.
  intros Hm w Hw. specialize (Hm w Hw). unfold async, world in *.
  by destruct (m w) as [[[a|e] w1] evs1].
Qed.

Lemma preserves_orM (a b : M bool) : preserves I a -> preserves I b -> preserves I (orM a b).
Proof.
  intros Ha Hb. apply preserves_bind; [done|]. intros [|]; [apply preserves_ret|done].
Qed.

Lemma preserves_andM (a b : M bool) : preserves I a -> preserves I b -> preserves I (andM a b).
Proof.
  intros Ha Hb. apply preserves_bind; [done|]. intros [|]; [done|apply preserves_ret].
Qed.

Lemma preserves_mapMFrom {A B : Type} (f : A -> nat -> M B) (l : list A) :
  (forall x i, preserves I (f x i)) -> forall i, preserves I (mapMFrom f l i).
Proof.
  intros Hf. induction l as [|x l IH]; intros i; simpl; [apply preserves_ret|].
  apply preserves_bind; [apply Hf|]. intros y.
  apply preserves_bind; [apply IH|]. intros ys. apply preserves_ret.
Qed.

Lemma preserves_forEach {A : Type} (f : A -> M unit) (l : list A) :
  Forall (fun x => preserves I (f x)) l -> preserves I (forEach f l).
Proof.
  induction 1 as [|x l Hx _ IH]; simpl; [apply preserves_ret|].
  apply preserves_bind; [done|]. by intros _.
Qed.

Lemma preserves_emit (listeners : list listener) (type datum : jsval) :
  Forall (fun l : listener => forall d, preserves I (l.2 d)) listeners ->
  preserves I (emit listeners type datum).
Proof.
  intros Hall. unfold emit.
  assert (Hfound : Forall (fun l : listener => preserves I (l.2 datum))
                     (filter (fun l : listener => toString l.1 = toString type) listeners)).
  { apply Forall_forall. intros l Hl. apply list_elem_of_filter in Hl as [_ Hl].
    by apply (proj1 (Forall_forall _ _) Hall). }
  destruct (filter _ listeners) as [|l found].
  - intros w Hw. unfold world.
    by destruct type as [| | | |s| |];
      try (repeat (destruct s as [|[[|] [|] [|] [|] [|] [|] [|] [|]] s]; try done)).
  - by apply preserves_forEach.
Qed.

End Preserved.

(** Walks a handler along its binds and branches; [leaf] closes the
    steps that depend on the predicate at hand. *)
Ltac preserves_walk leaf :=
  repeat first
    [ apply preserves_ret | apply preserves_throw | apply preserves_lift
    | apply preserves_gets | apply preserves_logger | apply preserves_emitEvent
    | apply preserves_async | apply preserves_orM | apply preserves_andM
    | apply preserves_mapMFrom
    | leaf
    | apply preserves_bind
    | match goal with
      | |- preserves _ (if ?c then _ else _) => destruct c
      | |- preserves _ (match ?c with _ => _ end) => destruct c
      | |- forall _, _ => intro
      end ].

Ltac unfold_handlers :=
  unfold echo, readMag, startMagStream, stopMagStream, setMotor, setMotors, readPiTemp,
    readPiTempResume, startPiTempStream, stopPiTempStream, setDepthLock,
    setDepthLockResume, depthLoop, depthLoopResume, tunePIDLoop, specialTest,
    specialElectromag, specialElectromagResume, respondTo, pick, getPressure, mapM,
    suspend, clearInterval, getProp, hasOwnProperty.

Section Runs.

Context {platform : Platform}.

Lemma runAll_preserves (I : World -> Prop) (allowed : input -> Prop) :
  (forall e, allowed e -> preserves I (react e)) ->
  forall inputs, Forall allowed inputs -> forall w, I w -> I (runAll inputs w).
Proof.
  intros Hreact inputs Hall. induction Hall as [|e inputs He _ IH]; intros w Hw; [done|].
  simpl. pose proof (Hreact e He w Hw) as Hstep.
  destruct (result (react e w)); [by apply IH|done].
Qed.

(** What every input does to a predicate that every listener, every
    timer callback and every resumed function preserves. *)
Lemma react_preserves (I : World -> Prop) (e : input) :
  Forall (fun l : listener => forall d, preserves I (l.2 d)) tokenTypeEmitter ->
  (forall d, preserves I (readMag d)) ->
  (forall d, preserves I (readPiTemp d)) ->
  preserves I depthLoop ->
  (forall s v, preserves I (resume s v)) ->
  (forall f, preserves I (modify (fun w => setSuspended (f w) w))) ->
  (forall f n, preserves I (modify (fun w => setTimers (f w) (n w) w))) ->
  preserves I (modify (setClient None)) ->
  (forall socket, preserves I (modify (setClient (Some socket)))) \/ isConnection e = false ->
  preserves I (react e).
Proof.
  intros Hlisteners Hmag Htemp Hloop Hresume Hsusp Htimers Hclose Hconn.
  destruct e as [socket|chunk| |id|i settled]; simpl.
  - destruct Hconn as [Hconn|Hc]; [|done].
    unfold onServerConnection. preserves_walk ltac:(apply Hconn).
  - unfold onClientData. apply preserves_forEach, Forall_forall. intros text _.
    unfold onDatum, getProp. preserves_walk ltac:(by apply preserves_emit).
  - unfold onClientDisconnect. apply preserves_bind; [apply preserves_logger|]. intros _.
    apply preserves_bind; [apply preserves_gets|]. intros ids.
    apply preserves_bind; [|intros _; apply Hclose].
    apply preserves_forEach, Forall_forall. intros id _. apply Htimers.
  - unfold fireTimer. apply preserves_bind; [apply preserves_gets|].
    intros [[[| |] ms arg]|]; simpl; [apply Hmag|apply Htemp|apply Hloop|apply preserves_ret].
  - unfold settle. apply preserves_bind; [apply preserves_gets|]. intros parked.
    destruct (parked !! i); [|apply preserves_ret].
    apply preserves_bind; [apply Hsusp|]. intros _. apply Hresume.
Qed.

(** ** Debug mode and the hardware *)

Lemma quiet_setChannel (w0 : World) (channel value : jsval) :
  preserves (hardwareQuiet w0) (setChannel channel value).
Proof.
  intros w Hw. unfold setChannel, world. unfold_monad.
  destruct Hw as (Hdbg & Hw). simpl. rewrite Hdbg. simpl. by split.
Qed.

Lemma quiet_electromagWrite (w0 : World) (bit : bool) :
  preserves (hardwareQuiet w0) (electromagWrite bit).
Proof.
  intros w Hw. unfold electromagWrite, world. unfold_monad.
  destruct Hw as (Hdbg & Hw). simpl. rewrite Hdbg. simpl. by split.
Qed.

Lemma quiet_setLEDBrightness (w0 : World) (data : jsval) :
  preserves (hardwareQuiet w0) (setLEDBrightness data).
Proof.
  intros w Hw. unfold setLEDBrightness, world. unfold_monad.
  destruct Hw as (Hdbg & Hw). simpl. rewrite Hdbg. simpl. by split.
Qed.

Ltac quiet_leaf :=
  first [ apply quiet_setChannel | apply quiet_electromagWrite | apply quiet_setLEDBrightness
        | apply preserves_modify; intros ? Hquiet; exact Hquiet
        | intros ? Hquiet; exact Hquiet ].

Lemma quiet_listeners (w0 : World) :
  Forall (fun l : listener => forall d, preserves (hardwareQuiet w0) (l.2 d)) tokenTypeEmitter.
Proof.
  assert (Hspecial : Forall (fun l : listener => forall d, preserves (hardwareQuiet w0) (l.2 d))
                            specialEmitter).
  { repeat (apply Forall_cons; split); try apply Forall_nil_2;
      intros d; simpl; unfold_handlers; preserves_walk quiet_leaf. }
  repeat (apply Forall_cons; split); try apply Forall_nil_2;
    intros d; simpl; unfold special; unfold_handlers;
    preserves_walk ltac:(first [quiet_leaf | by apply preserves_emit]).
Qed.

Lemma quiet_resume (w0 : World) (s : suspension) (v : option jsval) :
  preserves (hardwareQuiet w0) (resume s v).
Proof.
  unfold resume. destruct v as [v|]; [|apply preserves_emitEvent].
  destruct s; unfold_handlers; preserves_walk quiet_leaf.
Qed.

(** In debug mode no sequence of inputs makes the script write to the
    PWM driver or to the electromagnet. *)
Theorem debug_mode_spares_hardware (inputs : list input) (w : World) :
  debug w = true ->
  pulses (runAll inputs w) = pulses w /\
  duties (runAll inputs w) = duties w /\
  magnet (runAll inputs w) = magnet w.
Proof.
  intros Hdbg.
  assert (H : hardwareQuiet w (runAll inputs w)).
  { apply (runAll_preserves (hardwareQuiet w) (fun _ => True)).
    - intros e _. apply react_preserves.
      + apply quiet_listeners.
      + intros d. unfold_handlers. preserves_walk quiet_leaf.
      + intros d. unfold_handlers. preserves_walk quiet_leaf.
      + unfold_handlers. preserves_walk quiet_leaf.
      + apply quiet_resume.
      + intros f. quiet_leaf.
      + intros f n. quiet_leaf.
      + quiet_leaf.
      + left. intros c. quiet_leaf.
    - by apply Forall_forall.
    - by repeat split. }
  by destruct H as (_ & Hp & Hd & Hm).
Qed.

(** ** Without a session *)

Lemma sessionless_sendToken (w0 : World) (t : responseToken) :
  preserves (sessionless w0) (sendToken t).
Proof.
  intros w Hw. unfold sendToken, world. unfold_monad.
  destruct Hw as (Hc & Hw). simpl. rewrite Hc. simpl. by split.
Qed.

Ltac sessionless_leaf :=
  first [ apply sessionless_sendToken
        | apply preserves_modify; intros ? Hless; exact Hless
        | intros ? Hless; exact Hless ].

Ltac unfold_drivers := unfold setChannel, electromagWrite, setLEDBrightness.

Lemma sessionless_listeners (w0 : World) :
  Forall (fun l : listener => forall d, preserves (sessionless w0) (l.2 d)) tokenTypeEmitter.
Proof.
  assert (Hspecial : Forall (fun l : listener => forall d, preserves (sessionless w0) (l.2 d))
                            specialEmitter).
  { repeat (apply Forall_cons; split); try apply Forall_nil_2;
      intros d; simpl; unfold_handlers; unfold_drivers; preserves_walk sessionless_leaf. }
  repeat (apply Forall_cons; split); try apply Forall_nil_2;
    intros d; simpl; unfold special; unfold_handlers; unfold_drivers;
    preserves_walk ltac:(first [ sessionless_leaf
                               | by apply preserves_emit
                               | apply preserves_forEach, Forall_forall; intros ? _ ]).
Qed.

Lemma sessionless_resume (w0 : World) (s : suspension) (v : option jsval) :
  preserves (sessionless w0) (resume s v).
Proof.
  unfold resume. destruct v as [v|]; [|apply preserves_emitEvent].
  destruct s; unfold_handlers; unfold_drivers; preserves_walk sessionless_leaf.
Qed.

(** While no session is stored, and until a client connects, no input
    makes the script write a response: what timers and resumed functions
    try to send is lost. *)
Theorem no_session_no_response (inputs : list input) (w : World) :
  client w = None ->
  Forall (fun e => isConnection e = false) inputs ->
  client (runAll inputs w) = None /\ written (runAll inputs w) = written w.
Proof.
  intros Hclient Hinputs.
  apply (runAll_preserves (sessionless w) (fun e => isConnection e = false)); [|done|done].
  intros e He. apply react_preserves.
  - apply sessionless_listeners.
  - intros d. unfold_handlers. preserves_walk sessionless_leaf.
  - intros d. unfold_handlers. preserves_walk sessionless_leaf.
  - unfold_handlers. preserves_walk sessionless_leaf.
  - apply sessionless_resume.
  - intros f. sessionless_leaf.
  - intros f n. sessionless_leaf.
  - apply preserves_modify. intros w' [_ Hw']. by split.
  - by right.
Qed.

(** ** Retained DOF keys *)

Lemma objectAssign_keeps (old : gmap string jsval) (source : jsval) (k : string) :
  is_Some (old !! k) -> is_Some (objectAssign old source !! k).
Proof.
  unfold objectAssign. generalize (ownEntries source). intros entries. revert old.
  induction entries as [|[k' v] entries IH]; intros old Hk; simpl; [done|].
  apply IH. rewrite lookup_insert. by destruct (decide (k' = k)).
Qed.

Lemma keepsKeys_assign (w0 : World) (source : jsval) :
  preserves (keepsKeys w0)
    (modify (fun w => setOldDOFValues (objectAssign (oldDOFValues w) source) w)).
Proof.
  apply preserves_modify. intros w Hw k Hk. simpl. by apply objectAssign_keeps, Hw.
Qed.

Ltac keys_leaf :=
  first [ apply keepsKeys_assign
        | apply preserves_modify; intros ? Hkeys; exact Hkeys
        | intros ? Hkeys; exact Hkeys ].

Lemma keys_listeners (w0 : World) :
  Forall (fun l : listener => forall d, preserves (keepsKeys w0) (l.2 d)) tokenTypeEmitter.
Proof.
  assert (Hspecial : Forall (fun l : listener => forall d, preserves (keepsKeys w0) (l.2 d))
                            specialEmitter).
  { repeat (apply Forall_cons; split); try apply Forall_nil_2;
      intros d; simpl; unfold_handlers; unfold_drivers; unfold sendToken;
      preserves_walk keys_leaf. }
  repeat (apply Forall_cons; split); try apply Forall_nil_2;
    intros d; simpl; unfold special; unfold_handlers; unfold_drivers; unfold sendToken;
    preserves_walk ltac:(first [ keys_leaf
                               | by apply preserves_emit
                               | apply preserves_forEach, Forall_forall; intros ? _ ]).
Qed.

Lemma keys_resume (w0 : World) (s : suspension) (v : option jsval) :
  preserves (keepsKeys w0) (resume s v).
Proof.
  unfold resume. destruct v as [v|]; [|apply preserves_emitEvent].
  destruct s; unfold_handlers; unfold_drivers; unfold sendToken; preserves_walk keys_leaf.
Qed.

(** A DOF key that is retained stays retained whatever the script is
    fed: updates overwrite values and add keys, nothing removes one. *)
Theorem retained_keys_stay (inputs : list input) (w : World) (k : string) :
  is_Some (oldDOFValues w !! k) ->
  is_Some (oldDOFValues (runAll inputs w) !! k).
Proof.
  intros Hk.
  assert (H : keepsKeys w (runAll inputs w)); [|by apply H].
  apply (runAll_preserves (keepsKeys w) (fun _ => True));
    [|by apply Forall_forall|by intros k' Hk'].
  intros e _. apply react_preserves.
  - apply keys_listeners.
  - intros d. unfold_handlers. unfold sendToken. preserves_walk keys_leaf.
  - intros d. unfold_handlers. unfold sendToken. preserves_walk keys_leaf.
  - unfold_handlers. unfold_drivers. unfold sendToken. preserves_walk keys_leaf.
  - apply keys_resume.
  - intros f. keys_leaf.
  - intros f n. keys_leaf.
  - keys_leaf.
  - left. intros socket. keys_leaf.
Qed.

(** ** A motor command that cannot be answered *)

Lemma unsent_sendToken_then {A : Type} (w0 : World) (t : responseToken) (k : unit -> M A) :
  preserves (unsentUnretained w0) (bind (sendToken t) k).
Proof.
  intros w Hw. unfold sendToken, world. unfold_monad.
  destruct Hw as (Hc & Hw). simpl. rewrite Hc. simpl. by split.
Qed.

(** Without a session a motor command still reaches the driver, but its
    response cannot be sent and the exception leaves the handler before
    the update is retained: the retained DOF values stay as they were. *)
Theorem setMotors_unsent_not_retained (data : jsval) (fromController : bool) (w : World) :
  client w = None ->
  oldDOFValues (world (setMotors data fromController w)) = oldDOFValues w.
Proof.
  intros Hc.
  assert (H : preserves (unsentUnretained w) (setMotors data fromController)).
  { unfold_handlers. unfold setChannel.
    preserves_walk ltac:(first [ apply unsent_sendToken_then
                               | apply preserves_modify; intros ? Hu; exact Hu
                               | intros ? Hu; exact Hu ]). }
  by apply H.
Qed.

End Runs.

(** * Instances of the statements *)

#[local] Existing Instance samplePlatform.

(** Full forward and half left on binary64: the raw sums are finite,
    and the pulse widths lie in [1150, 1950]. *)
Lemma calcMotorValues_finite_within_range_witness :
  let data := [Engine.literal64 1;
               PrimFloat.div (Engine.literal64 (-1)) (Engine.literal64 2);
               Engine.literal64 0] in
  Forall (fun r => is_Some (Engine.value64 r))
         (@Engine.rawValues Engine.binary64 data Engine.vectorMapMatrix) /\
  Engine.value64 (Engine.literal64 400) = Some (Qc_of_Z 400) /\
  0 <= Qc_of_Z 400 /\
  Engine.value64 (Engine.literal64 1550) = Some (Qc_of_Z 1550) /\
  Engine.value64 (Engine.literal64 1150) = Some (Qc_of_Z 1150) /\
  Engine.value64 (Engine.literal64 1950) = Some (Qc_of_Z 1950) /\
  Qc_of_Z 1150 <= Qc_of_Z 1550 - Qc_of_Z 400 /\
  Qc_of_Z 1550 + Qc_of_Z 400 <= Qc_of_Z 1950 /\
  Forall (@between Engine.binary64 Engine.value64 (Qc_of_Z 1150) (Qc_of_Z 1950))
         (@Engine.calcMotorValues Engine.binary64 data Engine.vectorMapMatrix
            (Engine.literal64 400) (Engine.literal64 1550)).
Proof.
  intros data.
  assert (H1 : Forall (fun r => is_Some (Engine.value64 r))
                      (@Engine.rawValues Engine.binary64 data Engine.vectorMapMatrix)).
  { unfold Engine.rawValues, Engine.vectorMapMatrix. cbn [map].
    repeat (apply Forall_cons; split; [value64_eval; by eexists|]). apply Forall_nil_2. }
  assert (H2 : Engine.value64 (Engine.literal64 400) = Some (Qc_of_Z 400))
    by value64_closed.
  assert (H3 : 0 <= Qc_of_Z 400) by (by vm_compute).
  assert (H4 : Engine.value64 (Engine.literal64 1550) = Some (Qc_of_Z 1550))
    by value64_closed.
  assert (H5 : Engine.value64 (Engine.literal64 1150) = Some (Qc_of_Z 1150))
    by value64_closed.
  assert (H6 : Engine.value64 (Engine.literal64 1950) = Some (Qc_of_Z 1950))
    by value64_closed.
  assert (H7 : Qc_of_Z 1150 <= Qc_of_Z 1550 - Qc_of_Z 400) by (by vm_compute).
  assert (H8 : Qc_of_Z 1550 + Qc_of_Z 400 <= Qc_of_Z 1950) by (by vm_compute).
  split; [exact H1|]. split; [exact H2|]. split; [exact H3|]. split; [exact H4|].
  split; [exact H5|]. split; [exact H6|]. split; [exact H7|]. split; [exact H8|].
  exact (proj2 (calcMotorValues_finite_within_range data
                  (@Engine.vectorMapMatrix Engine.binary64)
                  (Engine.literal64 400) (Engine.literal64 1550)
                  (Engine.literal64 1150) (Engine.literal64 1950)
                  (Qc_of_Z 400) (Qc_of_Z 1550) (Qc_of_Z 1150) (Qc_of_Z 1950)
                  H1 H2 H3 H4 H5 H6 H7 H8)).
Defined.


(** On binary64 a raw sum that overflows gives no pulse width at all:
    infinity over infinity is NaN.  And with finite raw sums a pulse
    width can leave [mid - diff, mid + diff] where an end of it is no
    number of the engine: with the center 1 and the half-range
    3 * 2^-54 the forward-only command gives 1 + 2^-52 on every channel,
    above 1 + 3 * 2^-54. *)
Lemma calcMotorValues_overflow_gives_NaN :
  (map Engine.value64 overflowing
   = [Some (Q2Qc (Qpower (2 # 1) 1023)); Some (Q2Qc (Qpower (2 # 1) 1023)); Some 0] /\
   @Engine.calcMotorValues Engine.binary64 overflowing Engine.vectorMapMatrix
      Engine.defaultDiff Engine.defaultMid
   = [PrimFloat.nan; Engine.literal64 1550; PrimFloat.nan; Engine.literal64 1550] /\
   Engine.value64 PrimFloat.nan = None /\
   mixInRange (@Engine.vectorMapMatrix Engine.binary64) overflowing = false) /\
  (Engine.value64 tinyDiff = Some (Q2Qc (3 # 18014398509481984)) /\
   Engine.value64 (Engine.literal64 1) = Some 1 /\
   map Engine.value64
       (@Engine.rawValues Engine.binary64
          [Engine.literal64 1; Engine.literal64 0; Engine.literal64 0] Engine.vectorMapMatrix)
   = [Some 1; Some 1; Some 1; Some 1] /\
   map Engine.value64
       (@Engine.calcMotorValues Engine.binary64
          [Engine.literal64 1; Engine.literal64 0; Engine.literal64 0] Engine.vectorMapMatrix
          tinyDiff (Engine.literal64 1))
   = [Some (Q2Qc (4503599627370497 # 4503599627370496));
      Some (Q2Qc (4503599627370497 # 4503599627370496));
      Some (Q2Qc (4503599627370497 # 4503599627370496));
      Some (Q2Qc (4503599627370497 # 4503599627370496))] /\
   1 + Q2Qc (3 # 18014398509481984) < Q2Qc (4503599627370497 # 4503599627370496)).
Proof.
  split.
  - repeat split; vm_compute; repeat first [reflexivity | apply Qc_is_canon | f_equal].
  - split; [|split; [|split; [|split]]].
    + vm_compute. f_equal. by apply Qc_is_canon.
    + vm_compute. f_equal. by apply Qc_is_canon.
    + vm_compute. repeat first [reflexivity | apply Qc_is_canon | f_equal].
    + vm_compute. repeat first [reflexivity | apply Qc_is_canon | f_equal].
    + by vm_compute.
Qed.

(** On binary64 the sum of 2^52, 3/2 and -(2^52 + 1) is computed as 1,
    not as 1/2: the pulse width is 1950 where the exact sum gives 1750. *)
Lemma calcMotorValues_rounded_sum_not_linear :
  map Engine.value64 cancelling
  = [Some (Qc_of_Z (2 ^ 52)); Some (Q2Qc (3 # 2)); Some (Qc_of_Z (- (2 ^ 52 + 1)))] /\
  rowSum [1; 1; 1] [Qc_of_Z (2 ^ 52); Q2Qc (3 # 2); Qc_of_Z (- (2 ^ 52 + 1))] = Q2Qc (1 # 2) /\
  Qcabs (Q2Qc (1 # 2)) <= 1 /\
  @Engine.calcMotorValues Engine.binary64 cancelling [[Engine.lit 1; Engine.lit 1; Engine.lit 1]]
     Engine.defaultDiff Engine.defaultMid
  = [Engine.lit 1950] /\
  Engine.value64 (Engine.literal64 1950) = Some (Qc_of_Z 1950) /\
  Qc_of_Z 1950 <> Qc_of_Z 1550 + Q2Qc (1 # 2) * Qc_of_Z 400.
Proof.
  split; [|split; [|split; [|split; [|split]]]].
  - vm_compute. repeat first [reflexivity | apply Qc_is_canon | f_equal].
  - vm_compute. by apply Qc_is_canon.
  - by vm_compute.
  - vm_compute. reflexivity.
  - vm_compute. f_equal. by apply Qc_is_canon.
  - by vm_compute.
Qed.

(** A quarter of full thrust on binary64: nothing is normalised. *)
Lemma calcMotorValues_linear_as_computed_witness :
  let data := [PrimFloat.div (Engine.literal64 1) (Engine.literal64 4);
               Engine.literal64 0; Engine.literal64 0] in
  Forall (@within Engine.binary64 Engine.value64 1)
         (@Engine.rawValues Engine.binary64 data Engine.vectorMapMatrix) /\
  @Engine.calcMotorValues Engine.binary64 data Engine.vectorMapMatrix
     (Engine.literal64 400) (Engine.literal64 1550)
  = map (fun r => PrimFloat.add (PrimFloat.mul r (Engine.literal64 400))
                                (Engine.literal64 1550))
        (@Engine.rawValues Engine.binary64 data Engine.vectorMapMatrix).
Proof.
  intros data.
  assert (H1 : Forall (@within Engine.binary64 Engine.value64 1)
                      (@Engine.rawValues Engine.binary64 data Engine.vectorMapMatrix)).
  { unfold Engine.rawValues, Engine.vectorMapMatrix. cbn [map].
    repeat (apply Forall_cons; split;
            [eexists; split; [value64_eval; reflexivity|by vm_compute]|]).
    apply Forall_nil_2. }
  split; [exact H1|].
  exact (proj1 calcMotorValues_linear_as_computed data
               (@Engine.vectorMapMatrix Engine.binary64)
               (Engine.literal64 400) (Engine.literal64 1550) H1).
Defined.

(** A forward update leaves the retained turn value alone. *)
Lemma setMotors_partial_update_retains_witness :
  (forall b, propOf (token (JStr "controllerData") "t1" (JObj [("FB", jn 1)])) "body" = Ret b ->
             "turn" ∉ (ownEntries b).*1) /\
  oldDOFValues
    (world (setMotors (token (JStr "controllerData") "t1" (JObj [("FB", jn 1)])) true
                      (connected false))) !! "turn"
  = oldDOFValues (connected false) !! "turn".
Proof.
  assert (H : forall b,
             propOf (token (JStr "controllerData") "t1" (JObj [("FB", jn 1)])) "body" = Ret b ->
             "turn" ∉ (ownEntries b).*1).
  { intros b Hb. vm_compute in Hb. injection Hb as Hb. subst b. simpl.
    rewrite not_elem_of_cons. split; [done|apply not_elem_of_nil]. }
  split; [exact H|].
  exact (proj1 setMotors_partial_update_retains
               (token (JStr "controllerData") "t1" (JObj [("FB", jn 1)])) true "turn"
               (connected false) H).
Defined.

Lemma sample_undefined_not_registered : "undefined" ∉ registeredKeys.
Proof.
  unfold registeredKeys. simpl.
  repeat (apply not_elem_of_cons; split; [done|]). apply not_elem_of_nil.
Qed.

(** A chunk of garbage followed by an echo request: the request is
    answered. *)
Lemma malformed_text_is_isolated_witness :
  parseJSON "{oops}" = None /\
  ("undefined" ∉ registeredKeys) /\
  tokenTexts mixedChunk = [] ++ "{oops}" :: [echoText] /\
  written (world (onClientData mixedChunk (connected false)))
  = [(0%nat, mkResponse (JStr "hello") (JStr "abc"))].
Proof.
  assert (H1 : parseJSON "{oops}" = None) by reflexivity.
  assert (H3 : tokenTexts mixedChunk = [] ++ "{oops}" :: [echoText]) by reflexivity.
  split; [exact H1|]. split; [exact sample_undefined_not_registered|]. split; [exact H3|].
  rewrite (proj2 (proj1 (proj2 (malformed_text_is_isolated
                                  "{oops}" H1 sample_undefined_not_registered))
                        mixedChunk [] [echoText] (connected false) H3)).
  reflexivity.
Defined.

(** A tune token that stores the proportional gain 5: the response
    reports 5, and a cycle halfway into the band still commands -1/2,
    as it does with the stored gain 1, where a proportional term with
    gain 5 would command -1. *)
Lemma depthLoop_ignores_stored_gain :
  let tuned := world (tunePIDLoop tuneToken (connected false)) in
  zKp tuned = jn 5 /\
  written tuned
  = [(0%nat, mkResponse (JObj [("zKp", jn 5); ("zKi", jn 1); ("zKd", jn 0)]) (JStr "t1"))] /\
  oldDOFValues (world (depthLoopResume (jn 1000) (jn 985) tuned)) !! "depth"
  = Some (JNum (Num (Q2Qc (-1 # 2)))) /\
  oldDOFValues (world (depthLoopResume (jn 1000) (jn 985) (connected false))) !! "depth"
  = Some (JNum (Num (Q2Qc (-1 # 2)))) /\
  jsneg (proportionalTerm (nz 5) (nz 1000) (nz 985)) = nz (-1) /\
  JNum (Num (Q2Qc (-1 # 2))) <> JNum (nz (-1)).
Proof. repeat split; try qc_equal. by vm_compute. Qed.

Lemma tune_reports_gains_and_cycle_applies_fixed_law_witness :
  let data := token (JStr "pidTune") "t1" (JObj [("zKp", jn 5)]) in
  propOf data "headers" = Ret (JObj [("transactionID", JStr "t1")]) /\
  propOf (JObj [("transactionID", JStr "t1")]) "transactionID" = Ret (JStr "t1") /\
  client (connected false) = Some 0%nat /\
  result (tunePIDLoop data (connected false)) = Ret tt /\
  last (written (world (tunePIDLoop data (connected false))))
  = Some (0%nat,
          mkResponse (JObj [("zKp", zKp (world (tunePIDLoop data (connected false))));
                            ("zKi", zKi (world (tunePIDLoop data (connected false))));
                            ("zKd", zKd (world (tunePIDLoop data (connected false))))])
                     (JStr "t1")).
Proof.
  intros data.
  assert (H1 : propOf data "headers" = Ret (JObj [("transactionID", JStr "t1")]))
    by reflexivity.
  assert (H2 : propOf (JObj [("transactionID", JStr "t1")]) "transactionID" = Ret (JStr "t1"))
    by reflexivity.
  assert (H3 : client (connected false) = Some 0%nat) by reflexivity.
  assert (H4 : result (tunePIDLoop data (connected false)) = Ret tt) by reflexivity.
  repeat (split; [assumption|]).
  exact (proj1 tune_reports_gains_and_cycle_applies_fixed_law data _ _ _ _ H1 H2 H3 H4).
Defined.

(** After the client went away a send throws instead of returning. *)
Lemma sendToken_after_disconnect_throws :
  let w := world (onClientDisconnect (connected false)) in
  client w = None /\
  result (sendToken (mkResponse (JStr "hello") (JStr "abc")) w) <> Ret tt /\
  result (sendToken (mkResponse (JStr "hello") (JStr "abc")) w)
  = Throw (TypeError "cannot read property write").
Proof. repeat split; by vm_compute. Qed.

Lemma sendToken_without_session_witness :
  client (startup false) = None /\
  sendToken (mkResponse (JStr "hello") (JStr "abc")) (startup false)
  = (Throw (TypeError "cannot read property write"), startup false, [Logged LogD "message"]).
Proof.
  split; [reflexivity|].
  apply (sendToken_without_session (mkResponse (JStr "hello") (JStr "abc")) (startup false)).
  reflexivity.
Defined.

(** Switching the engaged lock off. *)
Lemma setDepthLock_off_sends_nothing_witness :
  let data := token (JStr "setDepthLock") "off" (JBool false) in
  propOf data "body" = Ret (JBool false) /\
  truthy (JBool false) = false /\
  written (world (setDepthLock data lockEngaged)) = written lockEngaged /\
  depthLockToggle (world (setDepthLock data lockEngaged)) = JBool false.
Proof.
  intros data.
  assert (H1 : propOf data "body" = Ret (JBool false)) by reflexivity.
  assert (H2 : truthy (JBool false) = false) by reflexivity.
  split; [exact H1|]. split; [exact H2|].
  destruct (proj1 setDepthLock_off_sends_nothing data (JBool false) lockEngaged H1 H2)
    as (_ & Hw & Ht & _).
  split; [exact Hw|exact Ht].
Defined.

(** ** Instances of the further properties *)

Lemma calcMotorValues_neutral_witness :
  Forall (fun row => (length row <= 3)%nat) thrustMatrix /\
  calcMotorValues (dofVector (replicate 3 0)) (coefficients thrustMatrix) (nz 400) (nz 1550)
  = map (fun _ => Num (Qc_of_Z 1550)) thrustMatrix.
Proof.
  assert (H : Forall (fun row => (length row <= 3)%nat) thrustMatrix) by (repeat constructor).
  split; [exact H|].
  exact (calcMotorValues_neutral 3 thrustMatrix (Qc_of_Z 400) (Qc_of_Z 1550) H).
Defined.

Lemma calcMotorValues_row_past_end_witness :
  thrustMatrix !! 0%nat = Some [Qc_of_Z 1; Qc_of_Z 1; Qc_of_Z 1] /\
  (length [Qc_of_Z 1] < length [Qc_of_Z 1; Qc_of_Z 1; Qc_of_Z 1])%nat /\
  calcMotorValues (dofVector [Qc_of_Z 1]) (coefficients thrustMatrix) (nz 400) (nz 1550)
    !! 0%nat = Some NaN.
Proof.
  assert (H1 : thrustMatrix !! 0%nat = Some [Qc_of_Z 1; Qc_of_Z 1; Qc_of_Z 1]) by reflexivity.
  assert (H2 : (length [Qc_of_Z 1] < length [Qc_of_Z 1; Qc_of_Z 1; Qc_of_Z 1])%nat)
    by (simpl; lia).
  repeat (split; [assumption|]).
  exact (calcMotorValues_row_past_end [Qc_of_Z 1] thrustMatrix (nz 400) (nz 1550) 0
           [Qc_of_Z 1; Qc_of_Z 1; Qc_of_Z 1] H1 H2).
Defined.

Lemma tokenTexts_single_witness :
  hasChar "|"%char "{ping}" = false /\
  hasBoundary "{ping}" = false /\
  tokenTexts "{ping}" = ["{ping}"].
Proof.
  assert (H1 : hasChar "|"%char "{ping}" = false) by reflexivity.
  assert (H2 : hasBoundary "{ping}" = false) by reflexivity.
  repeat (split; [assumption|]).
  exact (tokenTexts_single "{ping}" H1 H2).
Defined.

Lemma tokenTexts_two_witness :
  hasChar "|"%char "{ping" = false /\
  hasChar "|"%char "pong}" = false /\
  hasBoundary "{ping" = false /\
  hasBoundary "pong}" = false /\
  tokenTexts ("{ping" ++ "}{" ++ "pong}")%string = ["{ping}"; "{pong}"].
Proof.
  assert (H1 : hasChar "|"%char "{ping" = false) by reflexivity.
  assert (H2 : hasChar "|"%char "pong}" = false) by reflexivity.
  assert (H3 : hasBoundary "{ping" = false) by reflexivity.
  assert (H4 : hasBoundary "pong}" = false) by reflexivity.
  repeat (split; [assumption|]).
  exact (tokenTexts_two "{ping" "pong}" H1 H2 H3 H4).
Defined.

Lemma null_text_aborts_chunk_witness :
  @parseJSON probePlatform "null" = Some JNull /\
  forEach (@onDatum probePlatform) ["null"; "{ping}"] (connected false)
  = (Throw (TypeError "cannot read property type"), connected false,
     [Logged LogD "message"]).
Proof.
  assert (H : @parseJSON probePlatform "null" = Some JNull) by reflexivity.
  split; [exact H|].
  exact (@null_text_aborts_chunk probePlatform "null" ["{ping}"] (connected false) H).
Defined.

Lemma probe_keys (key : string) :
  key <> "echo" -> key <> "readMag" -> key <> "startMagStream" -> key <> "stopMagStream" ->
  key <> "controllerData" -> key <> "readPiTemp" -> key <> "startPiTempStream" ->
  key <> "stopPiTempStream" -> key <> "setDepthLock" -> key <> "LEDTest" ->
  key <> "pidTune" -> key <> "special" ->
  key ∉ @registeredKeys probePlatform.
Proof.
  intros. unfold registeredKeys. simpl.
  repeat (apply not_elem_of_cons; split; [done|]). apply not_elem_of_nil.
Qed.


Lemma error_token_aborts_chunk_witness :
  @parseJSON probePlatform "{error}" = Some (token (JStr "error") "e1" JNull) /\
  propOf (token (JStr "error") "e1" JNull) "type" = Ret (JStr "error") /\
  ("error" ∉ @registeredKeys probePlatform) /\
  forEach (@onDatum probePlatform) ["{error}"; "{ping}"] (connected false)
  = (Throw (UnhandledError (token (JStr "error") "e1" JNull)), connected false,
     [Logged LogD "message"]).
Proof.
  assert (H1 : @parseJSON probePlatform "{error}" = Some (token (JStr "error") "e1" JNull))
    by reflexivity.
  assert (H2 : propOf (token (JStr "error") "e1" JNull) "type" = Ret (JStr "error"))
    by reflexivity.
  assert (H3 : "error" ∉ @registeredKeys probePlatform) by (by apply probe_keys).
  repeat (split; [assumption|]).
  exact (@error_token_aborts_chunk probePlatform "{error}" _ ["{ping}"] (connected false)
           H1 H2 H3).
Defined.


Lemma stop_stream_cancels_witness :
  let data := token (JStr "stopPiTempStream") "s3" JNull in
  let headers := JObj [("transactionID", JStr "s3")] in
  propOf data "headers" = Ret headers /\
  propOf headers "transactionID" = Ret (JStr "s3") /\
  client piTempStartedTwice = Some 0%nat /\
  stopPiTempStream data piTempStartedTwice
  = (Ret tt,
     setWritten (written piTempStartedTwice ++ [(0%nat, mkResponse (JObj []) (JStr "s3"))])
                (cancelled "piTemp" piTempStartedTwice),
     [Logged LogD "message"]).
Proof.
  intros data headers.
  assert (H1 : propOf data "headers" = Ret headers) by reflexivity.
  assert (H2 : propOf headers "transactionID" = Ret (JStr "s3")) by reflexivity.
  assert (H3 : client piTempStartedTwice = Some 0%nat) by (by vm_compute).
  split; [exact H1|]. split; [exact H2|]. split; [exact H3|].
  exact (proj2 (stop_stream_cancels data headers (JStr "s3") piTempStartedTwice 0 H1 H2 H3)).
Defined.

(** The engaged lock's timer is gone after a disconnect. *)
Lemma onClientDisconnect_clears_registered_witness :
  intervals lockEngaged !! "depthLock" = Some 0%nat /\
  is_Some (timers lockEngaged !! 0%nat) /\
  timers (world (onClientDisconnect lockEngaged)) !! 0%nat = None.
Proof.
  assert (H1 : intervals lockEngaged !! "depthLock" = Some 0%nat) by (by vm_compute).
  split; [exact H1|]. split; [vm_compute; by eexists|].
  exact (proj1 (proj2 (proj2 (proj2 (onClientDisconnect_clears_registered lockEngaged))))
               "depthLock" 0%nat H1).
Defined.

Lemma setDepthLock_debug_never_engages_witness :
  let data := token (JStr "setDepthLock") "d1" (JBool true) in
  debug (connected true) = true /\
  propOf data "body" = Ret (JBool true) /\
  truthy (JBool true) = true /\
  setDepthLock data (connected true)
  = (Ret tt, setDepthLockToggle (JBool true) (cancelled "depthLock" (connected true)),
     [Rejection (TypeError "depthSlave.getPressure is not a function")]).
Proof.
  intros data.
  assert (H1 : debug (connected true) = true) by reflexivity.
  assert (H2 : propOf data "body" = Ret (JBool true)) by reflexivity.
  assert (H3 : truthy (JBool true) = true) by reflexivity.
  repeat (split; [assumption|]).
  exact (setDepthLock_debug_never_engages data (JBool true) (connected true) H1 H2 H3).
Defined.

Lemma setDepthLock_engages_witness :
  let data := token (JStr "setDepthLock") "d1" (JBool true) in
  let headers := JObj [("transactionID", JStr "d1")] in
  let w := connected false in
  propOf data "headers" = Ret headers /\
  propOf headers "transactionID" = Ret (JStr "d1") /\
  client w = Some 0%nat /\
  setDepthLockResume data (jn 1000) w
  = (Ret tt,
     setWritten (written w ++ [(0%nat, mkResponse (JObj []) (JStr "d1"))])
       (setIntervals (<["depthLock" := nextTimer w]> (intervals w))
          (setTimers (<[nextTimer w := mkTimer DepthLoop (jn 100) JUndefined]> (timers w))
                     (S (nextTimer w))
                     (setTargetPressure (jn 1000) w))),
     [Logged LogI "depth lock"; Logged LogD "message"]).
Proof.
  intros data headers w.
  assert (H1 : propOf data "headers" = Ret headers) by reflexivity.
  assert (H2 : propOf headers "transactionID" = Ret (JStr "d1")) by reflexivity.
  assert (H3 : client w = Some 0%nat) by reflexivity.
  repeat (split; [assumption|]).
  exact (setDepthLock_engages data headers (JStr "d1") (jn 1000) w 0 H1 H2 H3).
Defined.

Lemma specialElectromag_acknowledges_witness :
  let data := token (JStr "special") "m1" (JBool true) in
  let headers := JObj [("transactionID", JStr "m1")] in
  let w := connected false in
  debug w = false /\
  propOf data "body" = Ret (JBool true) /\
  propOf data "headers" = Ret headers /\
  propOf headers "transactionID" = Ret (JStr "m1") /\
  client w = Some 0%nat /\
  truthy (JBool true) = true /\
  specialElectromag data w
  = (Ret tt,
     setSuspended (suspended w ++ [AwaitElectromagOn data]) (setMagnet (magnet w ++ [true]) w),
     [Logged LogD "electromag"]).
Proof.
  intros data headers w.
  assert (H1 : debug w = false) by reflexivity.
  assert (H2 : propOf data "body" = Ret (JBool true)) by reflexivity.
  assert (H3 : propOf data "headers" = Ret headers) by reflexivity.
  assert (H4 : propOf headers "transactionID" = Ret (JStr "m1")) by reflexivity.
  assert (H5 : client w = Some 0%nat) by reflexivity.
  assert (H6 : truthy (JBool true) = true) by reflexivity.
  repeat (split; [assumption|]).
  exact (proj1 (proj2 (specialElectromag_acknowledges data (JBool true) headers (JStr "m1")
                         w 0 H1 H2 H3 H4 H5)) H6).
Defined.



(** A debug session fed a connection, a chunk, a tick and a disconnect. *)
Lemma debug_mode_spares_hardware_witness :
  debug (startup true) = true /\
  pulses (runAll [Connection 0; Data mixedChunk; Tick 0; Close] (startup true))
  = pulses (startup true).
Proof.
  assert (H : debug (startup true) = true) by reflexivity.
  split; [exact H|].
  exact (proj1 (debug_mode_spares_hardware [Connection 0; Data mixedChunk; Tick 0; Close]
                  (startup true) H)).
Defined.

Lemma no_session_no_response_witness :
  client (startup false) = None /\
  Forall (fun e => isConnection e = false) [Tick 0; Settled 0 None; Data mixedChunk; Close] /\
  written (runAll [Tick 0; Settled 0 None; Data mixedChunk; Close] (startup false))
  = written (startup false).
Proof.
  assert (H1 : client (startup false) = None) by reflexivity.
  assert (H2 : Forall (fun e => isConnection e = false)
                      [Tick 0; Settled 0 None; Data mixedChunk; Close])
    by (repeat constructor).
  repeat (split; [assumption|]).
  exact (proj2 (no_session_no_response [Tick 0; Settled 0 None; Data mixedChunk; Close]
                  (startup false) H1 H2)).
Defined.

Lemma retained_keys_stay_witness :
  is_Some (oldDOFValues (startup false) !! "FB") /\
  is_Some (oldDOFValues (runAll [Connection 0; Data mixedChunk; Close] (startup false)) !! "FB").
Proof.
  assert (H : is_Some (oldDOFValues (startup false) !! "FB")) by (by eexists).
  split; [exact H|].
  exact (retained_keys_stay [Connection 0; Data mixedChunk; Close] (startup false) "FB" H).
Defined.

Lemma setMotors_unsent_not_retained_witness :
  client (startup false) = None /\
  oldDOFValues (world (setMotors (token (JStr "controllerData") "c1" (JObj [("FB", jn 1)]))
                                 true (startup false)))
  = oldDOFValues (startup false).
Proof.
  assert (H : client (startup false) = None) by reflexivity.
  split; [exact H|].
  exact (setMotors_unsent_not_retained
           (token (JStr "controllerData") "c1" (JObj [("FB", jn 1)])) true (startup false) H).
Defined.

Lemma mag_stream_tick_witness :
  let data := token (JStr "startMagStream") "m1" (JObj [("interval", jn 500)]) in
  let headers := JObj [("transactionID", JStr "m1")] in
  let w := connected false in
  propOf data "body" = Ret (JObj [("interval", jn 500)]) /\
  propOf (JObj [("interval", jn 500)]) "interval" = Ret (jn 500) /\
  propOf data "headers" = Ret headers /\
  propOf headers "transactionID" = Ret (JStr "m1") /\
  client w = Some 0%nat /\
  debug w = false /\
  fireTimer (nextTimer w) (world (startMagStream data w))
  = (Ret tt, world (startMagStream data w), []).
Proof.
  intros data headers w.
  assert (H1 : propOf data "body" = Ret (JObj [("interval", jn 500)])) by reflexivity.
  assert (H2 : propOf (JObj [("interval", jn 500)]) "interval" = Ret (jn 500)) by reflexivity.
  assert (H3 : propOf data "headers" = Ret headers) by reflexivity.
  assert (H4 : propOf headers "transactionID" = Ret (JStr "m1")) by reflexivity.
  assert (H5 : client w = Some 0%nat) by reflexivity.
  assert (H6 : debug w = false) by reflexivity.
  split; [exact H1|]. split; [exact H2|]. split; [exact H3|]. split; [exact H4|].
  split; [exact H5|]. split; [exact H6|].
  exact (proj2 (proj2 (mag_stream_tick data _ (jn 500) headers (JStr "m1") w 0
                         H1 H2 H3 H4 H5)) H6).
Defined.

(** A second client connects on socket 1 and asks for an echo. *)
Lemma latest_connection_answers_witness :
  let data := token (JStr "echo") "abc" (JStr "hello") in
  let headers := JObj [("transactionID", JStr "abc")] in
  propOf data "body" = Ret (JStr "hello") /\
  propOf data "headers" = Ret headers /\
  propOf headers "transactionID" = Ret (JStr "abc") /\
  (onServerConnection 1 >> echo data) (connected false)
  = (Ret tt,
     setWritten (written (connected false) ++ [(1%nat, mkResponse (JStr "hello") (JStr "abc"))])
                (setClient (Some 1%nat) (connected false)),
     [Logged LogI "connection"; Logged LogD "message"]).
Proof.
  intros data headers.
  assert (H1 : propOf data "body" = Ret (JStr "hello")) by reflexivity.
  assert (H2 : propOf data "headers" = Ret headers) by reflexivity.
  assert (H3 : propOf headers "transactionID" = Ret (JStr "abc")) by reflexivity.
  split; [exact H1|]. split; [exact H2|]. split; [exact H3|].
  exact (latest_connection_answers data _ headers (JStr "abc") (connected false) 1 H1 H2 H3).
Defined.

(** A second start of the magnetometer stream takes the first timer off. *)
Lemma startMagStream_replaces_timer_witness :
  let data := token (JStr "startMagStream") "m2" (JObj [("interval", jn 500)]) in
  let w := world (startMagStream (token (JStr "startMagStream") "m1"
                                        (JObj [("interval", jn 500)])) (connected true)) in
  propOf data "body" = Ret (JObj [("interval", jn 500)]) /\
  propOf (JObj [("interval", jn 500)]) "interval" = Ret (jn 500) /\
  intervals w !! "mag" = Some 0%nat /\
  timers (world (startMagStream data w))
  = <[nextTimer w := mkTimer ReadMag (jn 500) (streamToken (MAGDATA responseTypes))]>
      (match intervals w !! "mag" with
       | Some id => delete id (timers w)
       | None => timers w
       end).
Proof.
  intros data w.
  assert (H1 : propOf data "body" = Ret (JObj [("interval", jn 500)])) by reflexivity.
  assert (H2 : propOf (JObj [("interval", jn 500)]) "interval" = Ret (jn 500)) by reflexivity.
  assert (H3 : intervals w !! "mag" = Some 0%nat) by (by vm_compute).
  split; [exact H1|]. split; [exact H2|]. split; [exact H3|].
  exact (startMagStream_replaces_timer data _ (jn 500) w H1 H2).
Defined.

(** The thrust mix of full forward and full strafe on binary64: channel
    0 carries the largest raw sum, 2, and is driven to 1950. *)
Lemma calcMotorValues_saturates_witness :
  let data := [Engine.literal64 1; Engine.literal64 0; Engine.literal64 1] in
  @Engine.rawValues Engine.binary64 data Engine.vectorMapMatrix !! 0%nat
  = Some (Engine.literal64 2) /\
  Engine.value64 (Engine.literal64 2) = Some (Qc_of_Z 2) /\
  1 <= Qcabs (Qc_of_Z 2) /\
  Forall (@within Engine.binary64 Engine.value64 (Qcabs (Qc_of_Z 2)))
         (@Engine.rawValues Engine.binary64 data Engine.vectorMapMatrix) /\
  Engine.value64 (Engine.literal64 400) = Some (Qc_of_Z 400) /\
  Engine.value64 (Engine.literal64 1550) = Some (Qc_of_Z 1550) /\
  Engine.value64 (Engine.literal64 1950)
  = Some (if Qcgtb (Qc_of_Z 2) 0 then Qc_of_Z 1550 + Qc_of_Z 400
          else Qc_of_Z 1550 - Qc_of_Z 400) /\
  exists p,
    @Engine.calcMotorValues Engine.binary64 data Engine.vectorMapMatrix
      (Engine.literal64 400) (Engine.literal64 1550) !! 0%nat = Some p /\
    Engine.value64 p
    = Some (if Qcgtb (Qc_of_Z 2) 0 then Qc_of_Z 1550 + Qc_of_Z 400
            else Qc_of_Z 1550 - Qc_of_Z 400).
Proof.
  intros data.
  assert (H1 : @Engine.rawValues Engine.binary64 data Engine.vectorMapMatrix !! 0%nat
               = Some (Engine.literal64 2)) by (vm_compute; reflexivity).
  assert (H2 : Engine.value64 (Engine.literal64 2) = Some (Qc_of_Z 2)) by value64_closed.
  assert (H3 : 1 <= Qcabs (Qc_of_Z 2)) by (by vm_compute).
  assert (H4 : Forall (@within Engine.binary64 Engine.value64 (Qcabs (Qc_of_Z 2)))
                      (@Engine.rawValues Engine.binary64 data Engine.vectorMapMatrix)).
  { unfold Engine.rawValues, Engine.vectorMapMatrix. cbn [map].
    repeat (apply Forall_cons; split;
            [eexists; split; [value64_eval; reflexivity|by vm_compute]|]).
    apply Forall_nil_2. }
  assert (H5 : Engine.value64 (Engine.literal64 400) = Some (Qc_of_Z 400))
    by value64_closed.
  assert (H6 : Engine.value64 (Engine.literal64 1550) = Some (Qc_of_Z 1550))
    by value64_closed.
  assert (H7 : Engine.value64 (Engine.literal64 1950)
               = Some (if Qcgtb (Qc_of_Z 2) 0 then Qc_of_Z 1550 + Qc_of_Z 400
                       else Qc_of_Z 1550 - Qc_of_Z 400)) by value64_closed.
  split; [exact H1|]. split; [exact H2|]. split; [exact H3|]. split; [exact H4|].
  split; [exact H5|]. split; [exact H6|]. split; [exact H7|].
  exact (calcMotorValues_saturates data (@Engine.vectorMapMatrix Engine.binary64)
           (Engine.literal64 400) (Engine.literal64 1550) (Engine.literal64 1950)
           0 (Engine.literal64 2) (Qc_of_Z 2) (Qc_of_Z 400) (Qc_of_Z 1550)
           H1 H2 H3 H4 H5 H6 H7).
Defined.

(** A third forward, two sevenths left and full strafe, on binary64:
    positions that are on no grid. *)
Lemma sticks_within_range_witness :
  let a := PrimFloat.div (Engine.literal64 1) (Engine.literal64 3) in
  let b := PrimFloat.div (Engine.literal64 (-2)) (Engine.literal64 7) in
  let c := Engine.literal64 1 in
  @within Engine.binary64 Engine.value64 1 a /\
  @within Engine.binary64 Engine.value64 1 b /\
  @within Engine.binary64 Engine.value64 1 c /\
  Forall (@between Engine.binary64 Engine.value64 (Qc_of_Z 1150) (Qc_of_Z 1950))
         (@Engine.calcMotorValues Engine.binary64 [a; b; c] Engine.vectorMapMatrix
            Engine.defaultDiff Engine.defaultMid) /\
  Forall (@between Engine.binary64 Engine.value64 (Qc_of_Z 1150) (Qc_of_Z 1950))
         (@Engine.calcMotorValues Engine.binary64 [a; b] Engine.depthMapMatrix
            Engine.defaultDiff Engine.defaultMid).
Proof.
  intros a b c.
  assert (Ha : @within Engine.binary64 Engine.value64 1 a)
    by (eexists; split; [value64_eval; reflexivity|by vm_compute]).
  assert (Hb : @within Engine.binary64 Engine.value64 1 b)
    by (eexists; split; [value64_eval; reflexivity|by vm_compute]).
  assert (Hc : @within Engine.binary64 Engine.value64 1 c)
    by (eexists; split; [value64_eval; reflexivity|by vm_compute]).
  split; [exact Ha|]. split; [exact Hb|]. split; [exact Hc|].
  exact (sticks_within_range a b c Ha Hb Hc).
Defined.

Lemma depthCorrection_clamped_witness :
  Qc_of_Z 30 <= Qc_of_Z 1000 - Qc_of_Z 970 /\
  depthCorrection (jn 1000) (jn 970) = Num 1.
Proof.
  assert (H : Qc_of_Z 30 <= Qc_of_Z 1000 - Qc_of_Z 970) by (by vm_compute).
  split; [exact H|].
  destruct (depthCorrection_clamped (Qc_of_Z 1000) (Qc_of_Z 970))
    as (q & Hq & _ & _ & Hsat & _).
  unfold jn, nz. rewrite Hq. f_equal. exact (Hsat H).
Defined.

(** Half forward, full left, a quarter strafe, on binary64. *)
Lemma stick_grid_within_range_witness :
  let a := PrimFloat.div (Engine.literal64 8) (Engine.literal64 16) in
  let b := PrimFloat.div (Engine.literal64 (-16)) (Engine.literal64 16) in
  let c := PrimFloat.div (Engine.literal64 4) (Engine.literal64 16) in
  a ∈ stickPositions /\ b ∈ stickPositions /\ c ∈ stickPositions /\
  mixInRange (@Engine.vectorMapMatrix Engine.binary64) [a; b; c] = true.
Proof.
  intros a b c.
  assert (Ha : a ∈ stickPositions).
  { apply list_elem_of_In, (in_map (fun k => PrimFloat.div (Engine.literal64 k)
                                                           (Engine.literal64 16))).
    apply list_elem_of_In, elem_of_seqZ. lia. }
  assert (Hb : b ∈ stickPositions).
  { apply list_elem_of_In, (in_map (fun k => PrimFloat.div (Engine.literal64 k)
                                                           (Engine.literal64 16))).
    apply list_elem_of_In, elem_of_seqZ. lia. }
  assert (Hc : c ∈ stickPositions).
  { apply list_elem_of_In, (in_map (fun k => PrimFloat.div (Engine.literal64 k)
                                                           (Engine.literal64 16))).
    apply list_elem_of_In, elem_of_seqZ. lia. }
  split; [exact Ha|]. split; [exact Hb|]. split; [exact Hc|].
  exact (proj1 stick_grid_within_range a b c Ha Hb Hc).
Defined.

Lemma setLEDBrightness_duty_witness :
  let data := token (JStr "LEDTest") "l1" (JNum (Num 0)) in
  let headers := JObj [("transactionID", JStr "l1")] in
  propOf data "body" = Ret (JNum (Num 0)) /\
  propOf data "headers" = Ret headers /\
  propOf headers "transactionID" = Ret (JStr "l1") /\
  client (connected false) = Some 0%nat /\
  debug (connected false) = false /\
  setLEDBrightness data (connected false)
  = (Ret tt,
     setWritten (written (connected false) ++ [(0%nat, mkResponse (JObj []) (JStr "l1"))])
       (setDuties (duties (connected false)
                   ++ [(5%Z, jsdiv (jsadd (Num 0) (nz 1)) (nz 2));
                       (6%Z, jsdiv (jsadd (Num 0) (nz 1)) (nz 2))])
                  (connected false)),
     [Logged LogD "LEDTest"; Logged LogD "LEDTest"; Logged LogD "message"]).
Proof.
  intros data headers.
  assert (H1 : propOf data "body" = Ret (JNum (Num 0))) by reflexivity.
  assert (H2 : propOf data "headers" = Ret headers) by reflexivity.
  assert (H3 : propOf headers "transactionID" = Ret (JStr "l1")) by reflexivity.
  assert (H4 : client (connected false) = Some 0%nat) by reflexivity.
  assert (H5 : debug (connected false) = false) by reflexivity.
  split; [exact H1|]. split; [exact H2|]. split; [exact H3|]. split; [exact H4|].
  split; [exact H5|].
  exact (proj1 (setLEDBrightness_duty data headers (JStr "l1") 0 (connected false) 0
                  H1 H2 H3 H4) H5).
Defined.

(** A file content of 45000. *)
Lemma readPiTemp_reports_degrees_witness :
  let data := token (JStr "readPiTemp") "r1" JNull in
  let headers := JObj [("transactionID", JStr "r1")] in
  let w := connected false in
  propOf data "headers" = Ret headers /\
  propOf headers "transactionID" = Ret (JStr "r1") /\
  client w = Some 0%nat /\
  resume (AwaitTempFile data) (Some (jn 45000)) w
  = (Ret tt,
     setWritten
       (written w
        ++ [(0%nat, mkResponse (JNum (jsdiv (toNumber (jn 45000)) (nz 1000))) (JStr "r1"))])
       w,
     [Logged LogD "message"]).
Proof.
  intros data headers w.
  assert (H1 : propOf data "headers" = Ret headers) by reflexivity.
  assert (H2 : propOf headers "transactionID" = Ret (JStr "r1")) by reflexivity.
  assert (H3 : client w = Some 0%nat) by reflexivity.
  split; [exact H1|]. split; [exact H2|]. split; [exact H3|].
  exact (proj1 (proj2 (proj2 (readPiTemp_reports_degrees data headers (JStr "r1") w 0
                                H1 H2 H3)))
               (jn 45000)).
Defined.
